(** * GMSFSv2: a filesystem facade over the operating system's file API

    Shallow embedding of [GMSFSv2.go] (package GMSFS) together with a small
    executable model of the operating system it forwards to: a directory
    tree with permissions and symbolic links, a current working directory,
    a clock, and the record of the mutating system calls made so far.

    Go strings and byte slices are [string] (sequences of 8-bit characters),
    [int64] and [os.FileMode] are [Z], a Go pair [(T, error)] is a Rocq pair
    [T * option error] with [None] for [nil]. *)

From Stdlib Require Import String Ascii List ZArith Lia Bool.
From Stdlib Require Import Sorting.Sorted Sorting.Permutation.
From Stdlib Require Import DecimalString.
Import ListNotations.
Open Scope string_scope.
Open Scope list_scope.

(* ================================================================== *)
(** ** Strings *)

Module strings.

(** [strings.Split(s, sep)] for a one-byte separator: always at least one
    piece. *)
Fixpoint Split (sep : ascii) (s : string) : list string :=
  match s with
  | EmptyString => [EmptyString]
  | String c s' =>
      if Ascii.eqb c sep then EmptyString :: Split sep s'
      else match Split sep s' with
           | [] => [String c EmptyString]
           | h :: t => String c h :: t
           end
  end.

(** [strings.SplitN(s, sep, 2)]: the text before the first separator and
    the text after it, or the whole string when there is no separator. *)
Fixpoint SplitN2 (sep : ascii) (s : string) : list string :=
  match s with
  | EmptyString => [EmptyString]
  | String c s' =>
      if Ascii.eqb c sep then [EmptyString; s']
      else match SplitN2 sep s' with
           | [h; t] => [String c h; t]
           | _ => [s]
           end
  end.

(** [strings.Join(elems, sep)]. *)
Definition Join (elems : list string) (sep : string) : string :=
  String.concat sep elems.

(** [strings.Contains] for the uses below. *)
Fixpoint Contains (s sub : string) : bool :=
  if String.prefix sub s then true
  else match s with
       | EmptyString => false
       | String _ s' => Contains s' sub
       end.

End strings.

Module strconv.

(** [strconv.Itoa]. *)
Definition Itoa (n : Z) : string :=
  NilZero.string_of_int (Z.to_int n).

End strconv.

(* ================================================================== *)
(** ** path/filepath (Unix) *)

Module filepath.

Definition Separator : ascii := "/"%char.

Definition rooted (path : string) : bool :=
  match path with
  | String c _ => Ascii.eqb c Separator
  | EmptyString => false
  end.

(** One step of the lexical clean-up: [out] is the stack of elements
    already written, most recent first. *)
Definition clean_step (isRooted : bool) (out : list string) (elem : string)
  : list string :=
  if (elem =? "") || (elem =? ".") then out
  else if elem =? ".." then
    match out with
    | top :: rest =>
        if top =? ".." then elem :: out else rest
    | [] => if isRooted then out else [elem]
    end
  else elem :: out.

(** [filepath.Clean]: repeated separators collapse, [.] elements go,
    an inner [..] removes the element before it, a [..] at the start of
    a rooted path goes, and the empty result is [.]. *)
Definition Clean (path : string) : string :=
  let isRooted := rooted path in
  let out := fold_left (clean_step isRooted) (strings.Split Separator path) [] in
  let body := strings.Join (rev out) "/" in
  if isRooted then "/" ++ body
  else if body =? "" then "." else body.

(** [filepath.Join]: empty elements are ignored, the rest is joined with
    the separator and cleaned; no element at all gives the empty string. *)
Definition Join (elem : list string) : string :=
  match filter (fun e => negb (e =? "")) elem with
  | [] => ""
  | es => Clean (strings.Join es "/")
  end.

(** [filepath.Base]: the last element of the path, after trailing
    separators are removed; [.] for the empty path and [/] for a path of
    separators only. *)
Definition Base (path : string) : string :=
  if path =? "" then "."
  else match filter (fun e => negb (e =? "")) (strings.Split Separator path) with
       | [] => "/"
       | e :: es => last es e
       end.

End filepath.

(* ================================================================== *)
(** ** sort *)

Module sort.

Section Slice.
Context {A : Type} (less : A -> A -> bool).

(** The inner loop of the insertion sort: the new element moves left
    past every element it is less than. *)
Fixpoint insert (x : A) (sorted : list A) : list A :=
  match sorted with
  | [] => [x]
  | y :: rest => if less x y then x :: sorted else y :: insert x rest
  end.

(** [sort.Slice(x, less)], as the insertion sort the library runs on
    short slices. Directory entries have pairwise distinct names, so
    every correct sort returns this same list ([sorted_perm_unique]
    below). *)
Definition Slice (x : list A) : list A :=
  fold_left (fun sorted e => insert e sorted) x [].
End Slice.

End sort.

(* ================================================================== *)
(** ** time *)

Module time.

Record Time := mkTime
  { Year : nat; Month : nat; Day : nat; Hour : nat; Minute : nat; Second : nat }.

(** Decimal rendering in at least [width] digits, zero padded. *)
Definition pad (width n : nat) : string :=
  let s := NilZero.string_of_uint (Nat.to_uint n) in
  String.concat "" (repeat "0" (width - String.length s)) ++ s.

(** [Time.Format] for layouts made of the numeric reference fields
    [2006 01 02 15 04 05] and literal text. *)
Fixpoint Format (t : Time) (layout : string) : string :=
  match layout with
  | String "2" (String "0" (String "0" (String "6" rest))) =>
      pad 4 (Year t) ++ Format t rest
  | String "0" (String "1" rest) => pad 2 (Month t) ++ Format t rest
  | String "0" (String "2" rest) => pad 2 (Day t) ++ Format t rest
  | String "1" (String "5" rest) => pad 2 (Hour t) ++ Format t rest
  | String "0" (String "4" rest) => pad 2 (Minute t) ++ Format t rest
  | String "0" (String "5" rest) => pad 2 (Second t) ++ Format t rest
  | String c rest => String c (Format t rest)
  | EmptyString => EmptyString
  end.

End time.

(* ================================================================== *)
(** ** Errors *)

Inductive Errno : Type :=
| ENOENT | EACCES | ENOTDIR | EISDIR | EEXIST | ELOOP | EBADF.

Definition Errno_Error (e : Errno) : string :=
  match e with
  | ENOENT => "no such file or directory"
  | EACCES => "permission denied"
  | ENOTDIR => "not a directory"
  | EISDIR => "is a directory"
  | EEXIST => "file exists"
  | ELOOP => "too many levels of symbolic links"
  | EBADF => "bad file descriptor"
  end.

(** A Go [error] value: an [*fs.PathError] from the [os] package, around
    an errno or around the [*os.SyscallError] that names the system call
    which failed, or the text of [fmt.Errorf]. *)
Inductive error : Type :=
| PathError (Op Path : string) (Err : Errno)
| PathSyscallError (Op Path Syscall : string) (Err : Errno)
| errorString (s : string).

(** [err.Error()]. *)
Definition Error (err : error) : string :=
  match err with
  | PathError op path e => op ++ " " ++ path ++ ": " ++ Errno_Error e
  | PathSyscallError op path call e =>
      op ++ " " ++ path ++ ": " ++ call ++ ": " ++ Errno_Error e
  | errorString s => s
  end.

Module fmt.
(** [fmt.Errorf] on a format without verbs. *)
Definition Errorf (format : string) : error := errorString format.
End fmt.

Inductive result (A : Type) : Type :=
| Ok (a : A)
| Failure (err : error).
Arguments Ok {A} a.
Arguments Failure {A} err.

(* ================================================================== *)
(** ** os: the operating system the package forwards to *)

Module os.

(** *** File modes and open flags (Linux values) *)

Definition ModeDir : Z := 2147483648.    (* 1 << 31 *)
Definition ModeSymlink : Z := 134217728.  (* 1 << 27 *)
Definition ModePerm : Z := 511.          (* 0o777 *)

Definition O_RDONLY : Z := 0.
Definition O_WRONLY : Z := 1.
Definition O_RDWR : Z := 2.
Definition O_CREATE : Z := 64.           (* 0x40 *)
Definition O_TRUNC : Z := 512.           (* 0x200 *)
Definition O_APPEND : Z := 1024.         (* 0x400 *)

Definition hasFlag (flag bit : Z) : bool := negb (Z.land flag bit =? 0)%Z.
Definition wantsRead (flag : Z) : bool :=
  let acc := Z.land flag 3 in ((acc =? O_RDONLY) || (acc =? O_RDWR))%Z.
Definition wantsWrite (flag : Z) : bool :=
  let acc := Z.land flag 3 in ((acc =? O_WRONLY) || (acc =? O_RDWR))%Z.

(** The process owns every file and is not the superuser: access is
    decided by the owner bits of the permission word. *)
Definition canRead (perm : Z) : bool := Z.testbit perm 8.
Definition canWrite (perm : Z) : bool := Z.testbit perm 7.
Definition canSearch (perm : Z) : bool := Z.testbit perm 6.

(** *** The directory tree *)

(** A directory keeps its entries in the order in which the operating
    system enumerates them. *)
#[warnings="-register-all"]
Inductive node : Type :=
| Regular (perm : Z) (mtime : time.Time) (data : string)
| Directory (perm : Z) (mtime : time.Time) (entries : list (string * node))
| Symlink (mtime : time.Time) (target : string).

Fixpoint lookup_entry (name : string) (es : list (string * node)) : option node :=
  match es with
  | [] => None
  | (k, n) :: rest => if k =? name then Some n else lookup_entry name rest
  end.

(** The node at an absolute, link-free list of path elements. *)
Fixpoint lookup (n : node) (p : list string) : option node :=
  match p with
  | [] => Some n
  | c :: p' =>
      match n with
      | Directory _ _ es =>
          match lookup_entry c es with
          | Some m => lookup m p'
          | None => None
          end
      | _ => None
      end
  end.

(** Apply [f] to the node at [p]. *)
Fixpoint modify (p : list string) (f : node -> node) (n : node) : node :=
  match p with
  | [] => f n
  | c :: p' =>
      match n with
      | Directory pm mt es =>
          Directory pm mt
            (map (fun kn => if fst kn =? c then (fst kn, modify p' f (snd kn)) else kn) es)
      | _ => n
      end
  end.

(** A new entry goes to the end of its directory's enumeration. *)
Definition addEntry (now : time.Time) (name : string) (new : node) (d : node) : node :=
  match d with
  | Directory pm _ es => Directory pm now (es ++ [(name, new)])
  | _ => d
  end.

Definition typeOf (n : node) : Z :=
  match n with
  | Regular _ _ _ => 0
  | Directory _ _ _ => ModeDir
  | Symlink _ _ => ModeSymlink
  end.

(** *** The world *)

(** A frame of the call stack as [runtime.FuncForPC] describes it. *)
Record Func := mkFunc { FuncName : string; FuncFile : string; FuncLine : Z }.

(** The system calls that can change the tree, recorded when made. *)
Inductive call : Type :=
| CallOpenFile (name : string) (flag perm : Z)
| CallWrite (name : string) (b : string)
| CallMkdir (name : string) (perm : Z)
| CallChmod (name : string) (mode : Z)
| CallSync (name : string).

Record World := mkWorld
  { root : node;                  (* the tree, a directory *)
    cwd : list string;            (* working directory, absolute *)
    now : time.Time;              (* time.Now() *)
    umask : Z;
    frame : option Func;          (* runtime.Caller(2) seen from errorPrinter:
                                     None when it reports !ok or no function *)
    calls : list call }.          (* most recent first *)

Definition record (c : call) (w : World) : World :=
  mkWorld (root w) (cwd w) (now w) (umask w) (frame w) (c :: calls w).

Definition withRoot (r : node) (w : World) : World :=
  mkWorld r (cwd w) (now w) (umask w) (frame w) (calls w).

(** *** Path resolution *)

Inductive walked : Type :=
| Found (p : list string)
| Missing (parent : list string) (name : string)   (* last element absent *)
| Link (cur : list string) (target : string) (rest : list string)
| Failed (e : Errno).

(** Walk [comps] from the directory at [cur], stopping at the first
    symbolic link to follow. An empty element (doubled or trailing
    separator) asks only for a directory; every other element needs
    search permission on the directory it is looked up in. *)
Fixpoint walk (r : node) (cur comps : list string) (follow : bool) : walked :=
  match comps with
  | [] => Found cur
  | c :: rest =>
      match lookup r cur with
      | Some (Directory pm _ es) =>
          if c =? "" then walk r cur rest follow
          else if negb (canSearch pm) then Failed EACCES
          else if c =? "." then walk r cur rest follow
          else if c =? ".." then walk r (removelast cur) rest follow
          else
            match lookup_entry c es with
            | None =>
                match rest with
                | [] => Missing cur c
                | _ => Failed ENOENT
                end
            | Some (Symlink _ t) =>
                match rest, follow with
                | [], false => Found (cur ++ [c])
                | _, _ => Link cur t rest
                end
            | Some _ => walk r (cur ++ [c]) rest follow
            end
      | Some _ => Failed ENOTDIR
      | None => Failed ENOENT
      end
  end.

Definition maxSymlinks : nat := 40.

Fixpoint resolveFrom (budget : nat) (r : node) (cur comps : list string)
         (follow : bool) : walked :=
  match walk r cur comps follow with
  | Link cur' t rest =>
      match budget with
      | O => Failed ELOOP
      | S k =>
          if t =? "" then Failed ENOENT
          else resolveFrom k r (if filepath.rooted t then [] else cur')
                           (strings.Split "/" t ++ rest) follow
      end
  | res => res
  end.

Definition resolve (w : World) (name : string) (follow : bool) : walked :=
  if name =? "" then Failed ENOENT
  else resolveFrom maxSymlinks (root w)
                   (if filepath.rooted name then [] else cwd w)
                   (strings.Split "/" name) follow.

(** *** Stat *)

(** The methods of the [fs.FileInfo] interface. *)
Record FileInfo := mkFileInfo
  { Name : string; Size : Z; Mode : Z; ModTime : time.Time; IsDir : bool }.

Definition dirSize : Z := 4096.

Definition infoOf (name : string) (n : node) : FileInfo :=
  match n with
  | Regular pm mt d =>
      mkFileInfo name (Z.of_nat (String.length d)) (Z.land pm ModePerm) mt false
  | Directory pm mt _ =>
      mkFileInfo name dirSize (Z.lor ModeDir (Z.land pm ModePerm)) mt true
  | Symlink mt t =>
      mkFileInfo name (Z.of_nat (String.length t)) (Z.lor ModeSymlink ModePerm) mt false
  end.

Definition statWith (op : string) (follow : bool) (w : World) (name : string)
  : result FileInfo :=
  match resolve w name follow with
  | Found p =>
      match lookup (root w) p with
      | Some n => Ok (infoOf (filepath.Base name) n)
      | None => Failure (PathError op name ENOENT)
      end
  | Missing _ _ => Failure (PathError op name ENOENT)
  | Link _ _ _ => Failure (PathError op name ELOOP)
  | Failed e => Failure (PathError op name e)
  end.

(** [os.Stat] follows a final symbolic link, [os.Lstat] does not. *)
Definition Stat : World -> string -> result FileInfo := statWith "stat" true.
Definition Lstat : World -> string -> result FileInfo := statWith "lstat" false.

(** [os.IsNotExist]. *)
Definition IsNotExist (err : option error) : bool :=
  match err with
  | Some (PathError _ _ ENOENT) => true
  | _ => false
  end.

(** *** Open files *)

(** An [*os.File]: the name it was opened with, the node it refers to
    and the flags of the open. *)
Record File := mkFile { fileName : string; filePath : list string; fileFlag : Z }.

(** The effect of [open(2)] on the tree. A file that is created gets
    the nine permission bits of [perm] less the umask; the setuid, setgid
    and sticky bits that Go hands on to the system call are not
    represented. *)
Definition openat (w : World) (name : string) (flag perm : Z)
  : result File * node :=
  let fail e := (Failure (PathError "open" name e), root w) in
  match resolve w name true with
  | Found p =>
      match lookup (root w) p with
      | Some (Regular pm _ _) =>
          if (implb (wantsRead flag) (canRead pm)) && (implb (wantsWrite flag) (canWrite pm))
          then (Ok (mkFile name p flag),
                if hasFlag flag O_TRUNC && wantsWrite flag
                then modify p (fun _ => Regular pm (now w) "") (root w)
                else root w)
          else fail EACCES
      | Some (Directory pm _ _) =>
          if wantsWrite flag || hasFlag flag O_CREATE then fail EISDIR
          else if canRead pm then (Ok (mkFile name p flag), root w)
          else fail EACCES
      | _ => fail ENOENT
      end
  | Missing parent c =>
      if hasFlag flag O_CREATE then
        match lookup (root w) parent with
        | Some (Directory pm _ _) =>
            if canWrite pm
            then (Ok (mkFile name (parent ++ [c]) flag),
                  modify parent
                    (addEntry (now w) c
                 (Regular (Z.ldiff (Z.land perm ModePerm) (umask w)) (now w) ""))
                    (root w))
            else fail EACCES
        | _ => fail ENOENT
        end
      else fail ENOENT
  | Link _ _ _ => fail ELOOP
  | Failed e => fail e
  end.

(** [os.OpenFile]. *)
Definition OpenFile (name : string) (flag perm : Z) (w : World)
  : result File * World :=
  let w := record (CallOpenFile name flag perm) w in
  let '(f, r) := openat w name flag perm in
  (f, withRoot r w).

(** [os.Open] is [OpenFile(name, O_RDONLY, 0)]; it changes nothing and
    is kept out of the record of calls. *)
Definition Open (w : World) (name : string) : result File :=
  fst (openat w name O_RDONLY 0).

(** [os.Create] is [OpenFile(name, O_RDWR|O_CREATE|O_TRUNC, 0666)]. *)
Definition Create (name : string) (w : World) : result File * World :=
  OpenFile name (Z.lor O_RDWR (Z.lor O_CREATE O_TRUNC)) 438 w.

(** [f.Write]: every write of the package goes to a file opened for
    appending or just truncated, so the bytes land at the end. *)
Definition Write (f : File) (b : string) (w : World)
  : (Z * option error) * World :=
  let w := record (CallWrite (fileName f) b) w in
  if negb (wantsWrite (fileFlag f))
  then ((0%Z, Some (PathError "write" (fileName f) EBADF)), w)
  else
    match lookup (root w) (filePath f) with
    | Some (Regular pm _ d) =>
        ((Z.of_nat (String.length b), None),
         withRoot (modify (filePath f) (fun _ => Regular pm (now w) (d ++ b)) (root w)) w)
    | _ => ((0%Z, Some (PathError "write" (fileName f) EBADF)), w)
    end.

(** [f.Sync] and [f.Close]. *)
Definition Sync (f : File) (w : World) : option error * World :=
  (None, record (CallSync (fileName f)) w).
Definition Close (f : File) : option error := None.

(** *** Directories *)

(** An [fs.DirEntry]: its type comes with the enumeration, its
    [Info()] is an [lstat] made when asked for. The entry remembers the
    name its directory was opened with, [entryDir]; [entryParent] is the
    place in the tree that name led to. *)
Record DirEntry := mkDirEntry
  { entryDir : string; entryParent : list string; entryName : string;
    entryType : Z }.

Definition entryIsDir (d : DirEntry) : bool := hasFlag (entryType d) ModeDir.

(** [entry.Info()]: [lstat(parent + "/" + name)]. Looking the name up
    needs search permission on the directory, which reading its entries
    did not need; a final symbolic link is not followed. *)
Definition entryInfo (w : World) (d : DirEntry) : result FileInfo :=
  let name := (entryDir d ++ "/" ++ entryName d)%string in
  match lookup (root w) (entryParent d) with
  | Some (Directory pm _ es) =>
      if negb (canSearch pm) then Failure (PathError "lstat" name EACCES)
      else
        match lookup_entry (entryName d) es with
        | Some n => Ok (infoOf (entryName d) n)
        | None => Failure (PathError "lstat" name ENOENT)
        end
  | Some _ => Failure (PathError "lstat" name ENOTDIR)
  | None => Failure (PathError "lstat" name ENOENT)
  end.

(** [f.ReadDir(-1)]: all entries, in directory order. *)
Definition FileReadDir (w : World) (f : File) : result (list DirEntry) :=
  match lookup (root w) (filePath f) with
  | Some (Directory _ _ es) =>
      Ok (map (fun kn => mkDirEntry (fileName f) (filePath f) (fst kn) (typeOf (snd kn)))
              es)
  | Some _ => Failure (PathError "readdirent" (fileName f) ENOTDIR)
  | None => Failure (PathError "readdirent" (fileName f) ENOENT)
  end.

(** [os.ReadDir]: the entries sorted by file name. *)
Definition ReadDir (w : World) (name : string) : result (list DirEntry) :=
  match Open w name with
  | Failure err => Failure err
  | Ok f =>
      match FileReadDir w f with
      | Failure err => Failure err
      | Ok dirs => Ok (sort.Slice (fun a b => entryName a <? entryName b) dirs)
      end
  end.

(** [os.Mkdir]. The tree keeps the nine permission bits of a node: of
    the mode asked for, the setuid, setgid and sticky bits that Go hands
    on to the system call are not represented. *)
Definition Mkdir (name : string) (perm : Z) (w : World) : option error * World :=
  let w := record (CallMkdir name perm) w in
  let fail e := (Some (PathError "mkdir" name e), w) in
  match resolve w name false with
  | Found _ => fail EEXIST
  | Missing parent c =>
      match lookup (root w) parent with
      | Some (Directory pm _ _) =>
          if canWrite pm
          then (None,
                withRoot (modify parent
                            (addEntry (now w) c
                               (Directory (Z.ldiff (Z.land perm ModePerm) (umask w)) (now w) []))
                            (root w)) w)
          else fail EACCES
      | _ => fail ENOENT
      end
  | Link _ _ _ => fail ELOOP
  | Failed e => fail e
  end.

(** The parent that [os.MkdirAll] recurses on: trailing separators go,
    then the last element, then the separator before it. *)
Definition parentOf (path : string) : string :=
  let isSep c := Ascii.eqb c filepath.Separator in
  let fix dropWhile (p : ascii -> bool) (l : list ascii) : list ascii :=
    match l with
    | [] => []
    | c :: l' => if p c then dropWhile p l' else l
    end in
  let r := dropWhile (fun c => negb (isSep c))
             (dropWhile isSep (rev (list_ascii_of_string path))) in
  string_of_list_ascii (rev (tl r)).

(** [os.MkdirAll]: nothing to do for a directory, an error for any other
    existing file, otherwise the parent first and then [Mkdir]. The
    recursion is on a shorter path each time. *)
Fixpoint MkdirAllRec (n : nat) (path : string) (perm : Z) (w : World)
  : option error * World :=
  match Stat w path with
  | Ok dir =>
      if IsDir dir then (None, w)
      else (Some (PathError "mkdir" path ENOTDIR), w)
  | Failure _ =>
      let parent := parentOf path in
      let '(err, w1) :=
        match n with
        | S k => if (0 <? String.length parent)%nat
                 then MkdirAllRec k parent perm w else (None, w)
        | O => (None, w)
        end in
      match err with
      | Some e => (Some e, w1)
      | None =>
          let '(err, w2) := Mkdir path perm w1 in
          match err with
          | None => (None, w2)
          | Some e =>
              match Lstat w2 path with
              | Ok dir => if IsDir dir then (None, w2) else (Some e, w2)
              | Failure _ => (Some e, w2)
              end
          end
      end
  end.

Definition MkdirAll (path : string) (perm : Z) (w : World) : option error * World :=
  MkdirAllRec (String.length path) path perm w.

(** [os.Chmod]. *)
Definition Chmod (name : string) (mode : Z) (w : World) : option error * World :=
  let w := record (CallChmod name mode) w in
  let fail e := (Some (PathError "chmod" name e), w) in
  let setPerm n :=
    match n with
    | Regular _ mt d => Regular (Z.land mode ModePerm) mt d
    | Directory _ mt es => Directory (Z.land mode ModePerm) mt es
    | Symlink _ _ => n
    end in
  match resolve w name true with
  | Found p => (None, withRoot (modify p setPerm (root w)) w)
  | Missing _ _ => fail ENOENT
  | Link _ _ _ => fail ELOOP
  | Failed e => fail e
  end.

(** *** Whole files *)

(** [os.ReadFile]: the file is opened for reading and read to its end. *)
Definition ReadFile (w : World) (name : string) : result string :=
  match Open w name with
  | Failure err => Failure err
  | Ok f =>
      match lookup (root w) (filePath f) with
      | Some (Regular _ _ d) => Ok d
      | Some (Directory _ _ _) => Failure (PathError "read" name EISDIR)
      | _ => Failure (PathError "read" name EBADF)
      end
  end.

(** [os.WriteFile]: [OpenFile(name, O_WRONLY|O_CREATE|O_TRUNC, perm)], one
    write of the data, and the close, whose error counts when the write
    had none. *)
Definition WriteFile (name : string) (data : string) (perm : Z) (w : World)
  : option error * World :=
  let '(f, w) := OpenFile name (Z.lor O_WRONLY (Z.lor O_CREATE O_TRUNC)) perm w in
  match f with
  | Failure err => (Some err, w)
  | Ok f =>
      let '((_, err), w) := Write f data w in
      match Close f, err with
      | Some err1, None => (Some err1, w)
      | _, _ => (err, w)
      end
  end.

End os.

Module io.

(** [io.Copy(dst, src)]: everything [src] holds is read and written to
    [dst]; an empty source reaches end of file before any write. Between
    two files the copy is the destination's [ReadFrom], one
    [copy_file_range] call, which refuses a directory as its source. *)
Definition Copy (dst src : os.File) (w : os.World) : (Z * option error) * os.World :=
  match os.lookup (os.root w) (os.filePath src) with
  | Some (os.Regular _ _ d) =>
      if d =? "" then ((0%Z, None), w) else os.Write dst d w
  | Some (os.Directory _ _ _) =>
      ((0%Z, Some (PathSyscallError "write" (os.fileName dst) "copy_file_range" EISDIR)),
       w)
  | _ => ((0%Z, Some (PathError "read" (os.fileName src) EBADF)), w)
  end.

End io.


(* ================================================================== *)
(** ** Package GMSFS *)

Import os(World).
Open Scope string_scope.

(** The error of a Go [(value, error)] pair. *)
Definition errOf {A : Type} (r : result A) : option error :=
  match r with
  | Ok _ => None
  | Failure err => Some err
  end.

(** FileInfo stores comprehensive metadata about a file or directory. *)
#[warnings="-register-all"]
Inductive FileInfo : Type := mkFileInfo
  { Exists : bool;
    Size : Z;
    Mode : Z;
    LastModified : time.Time;
    IsDir : bool;
    Contents : list FileInfo;
    Name : string }.

(** The zero [time.Time] and the zero [FileInfo{}]. *)
Definition zeroTime : time.Time := time.mkTime 1 1 1 0 0 0.
Definition zeroFileInfo : FileInfo := mkFileInfo false 0 0 zeroTime false [] "".

Definition timeFlat : string := "20060102_1504".

Definition CRLF : string :=
  String (ascii_of_nat 13) (String (ascii_of_nat 10) EmptyString).

Definition debugMarker : string := "GMSFS.Debug".

(** The name of the log file [errorPrinter] appends to. *)
Definition logName (w : World) : string :=
  "GMSFS." ++ time.Format (os.now w) timeFlat ++ ".log".

(** The stack hint [errorPrinter] builds from [runtime.Caller(2)]. *)
Definition stackHint (w : World) : string :=
  match os.frame w with
  | Some fn =>
      " (2):" ++ os.FuncName fn ++ " file: " ++ os.FuncFile fn
        ++ " line: " ++ strconv.Itoa (os.FuncLine fn)
  | None => ""
  end.

(** [Append], with the error printer it reports a failed write to. *)
Definition AppendWith (errorPrinter : string -> string -> World -> World)
           (name content : string) (w : World) : option error * World :=
  let '(file, w) :=
    os.OpenFile name (Z.lor os.O_APPEND (Z.lor os.O_WRONLY os.O_CREATE)) 420 w in
  match file with
  | Failure err => (Some err, w)
  | Ok file =>
      (* defer file.Close() *)
      let '((_, err), w) := os.Write file content w in
      match err with
      | Some e => (Some e, errorPrinter ("Append: " ++ Error e) name w)
      | None => (None, w)
      end
  end.

(** [errorPrinter] and [Append] call each other in the source; [depth]
    bounds the nesting of those calls. *)
Fixpoint errorPrinterRec (depth : nat) (log object : string) (w : World) : World :=
  match depth with
  | O => w
  | S k =>
      let err := errOf (os.Stat w debugMarker) in
      if (match err with Some _ => true | None => false end) && os.IsNotExist err
      then w
      else
        let stack := stackHint w in
        snd (AppendWith (errorPrinterRec k) (logName w)
               (log ++ " stacktrace: " ++ stack ++ CRLF) w)
  end.

(** In this model a write to a file that was opened for appending never
    fails, so the nested call is never made and depth one is every depth
    ([errorPrinterRec_depth], [errorPrinter_eq]). *)
Definition errorPrinter : string -> string -> World -> World := errorPrinterRec 1.

Definition Append : string -> string -> World -> option error * World :=
  AppendWith errorPrinter.

Definition AppendStringToFile (name content : string) (w : World)
  : option error * World :=
  Append name content w.

Definition cleanPath (path : string) : string :=
  let path := filepath.Clean path in
  match strings.SplitN2 ":" path with
  | [_; after] => after
  | _ => path
  end.

Definition FileExists (w : World) (name : string) : bool :=
  let err := errOf (os.Stat w name) in
  if os.IsNotExist err then false
  else match err with
       | None => true
       | Some _ => false
       end.

Definition MkdirAll (path : string) (perm : Z) (w : World) : option error * World :=
  let path := cleanPath path in
  if Bool.eqb (FileExists w path) true then (None, w)
  else
    let '(err, w) := os.MkdirAll path perm w in
    match err with
    | Some e => (Some e, w)
    | None => (None, w)
    end.

Definition Stat (w : World) (name : string) : FileInfo * option error :=
  match os.Stat w name with
  | Failure err => (zeroFileInfo, Some err)
  | Ok stat =>
      let dirNameOnly := filepath.Base name in
      (mkFileInfo true (os.Size stat) (os.Mode stat) (os.ModTime stat)
                  (os.IsDir stat) [] dirNameOnly,
       None)
  end.

(** The conversion loop of [ReadDir]. *)
Fixpoint readDirLoop (w : World) (dirs : list os.DirEntry) (fileInfos : list FileInfo)
  : list FileInfo * option error :=
  match dirs with
  | [] => (fileInfos, None)
  | entry :: rest =>
      match os.entryInfo w entry with
      | Failure err => ([], Some err)
      | Ok entryStat =>
          let fileInfo :=
            mkFileInfo true (os.Size entryStat) (os.Mode entryStat)
                       (os.ModTime entryStat) (os.IsDir entryStat) []
                       (os.Name entryStat) in
          readDirLoop w rest (fileInfos ++ [fileInfo])%list
      end
  end.

Definition entryLess (a b : os.DirEntry) : bool :=
  os.entryName a <? os.entryName b.

Definition ReadDir (w : World) (dirName : string) : list FileInfo * option error :=
  match os.Open w dirName with
  | Failure err => ([], Some err)
  | Ok f =>
      (* defer f.Close() *)
      match os.FileReadDir w f with
      | Failure err => ([], Some err)
      | Ok dirs =>
          let dirs := sort.Slice entryLess dirs in
          readDirLoop w dirs []
      end
  end.

Definition CopyFile (src dst : string) (w : World) : option error * World :=
  let src := cleanPath src in
  let dst := cleanPath dst in
  match os.Open w src with
  | Failure err =>
      (Some err, errorPrinter ("CopyFile (os.Open): " ++ Error err) src w)
  | Ok in_ =>
      (* defer in.Close() *)
      let '(out, w) := os.Create dst w in
      match out with
      | Failure err =>
          (Some err, errorPrinter ("CopyFile (os.Create): " ++ Error err) dst w)
      | Ok out =>
          (* the deferred close of out replaces the error when it fails *)
          let closing (r : option error * World) :=
            match os.Close out with
            | Some e => (Some e, snd r)
            | None => r
            end in
          closing
            (let '((_, err), w) := io.Copy out in_ w in
             match err with
             | Some e => (Some e, errorPrinter ("CopyFile (io.Copy): " ++ Error e) "" w)
             | None =>
                 let '(err, w) := os.Sync out w in
                 match err with
                 | Some e =>
                     (Some e, errorPrinter ("CopyFile (out.Sync): " ++ Error e) "" w)
                 | None =>
                     match os.Stat w src with
                     | Failure e =>
                         (Some e, errorPrinter ("CopyFile (os.Stat): " ++ Error e) "" w)
                     | Ok si =>
                         let '(err, w) := os.Chmod dst (os.Mode si) w in
                         match err with
                         | Some e =>
                             (Some e,
                              errorPrinter ("CopyFile (os.Chmod): " ++ Error e) "" w)
                         | None => (None, w)
                         end
                     end
                 end
             end)
      end
  end.

(** The loop of [CopyDir] over the sorted entries of the source;
    [copyDir] is the recursive call. *)
Fixpoint copyLoop (copyDir : string -> string -> World -> option (option error * World))
         (src dst : string) (entries : list os.DirEntry) (w : World)
  : option (option error * World) :=
  match entries with
  | [] => Some (None, w)
  | entry :: rest =>
      let srcPath := filepath.Join [src; os.entryName entry] in
      let dstPath := filepath.Join [dst; os.entryName entry] in
      if os.entryIsDir entry then
        match copyDir srcPath dstPath w with
        | None => None
        | Some (Some e, w) =>
            let w := errorPrinter ("CopyDir (CopyDir-1): " ++ Error e) srcPath w in
            let w := errorPrinter ("CopyDir (CopyDir-2): " ++ Error e) dstPath w in
            Some (Some e, w)
        | Some (None, w) => copyLoop copyDir src dst rest w
        end
      else if os.hasFlag (os.entryType entry) os.ModeSymlink
      then copyLoop copyDir src dst rest w        (* skip symlinks *)
      else
        match CopyFile srcPath dstPath w with
        | (Some e, w) =>
            let w := errorPrinter ("CopyDir (CopyFile-1): " ++ Error e) srcPath w in
            let w := errorPrinter ("CopyDir (CopyFile-2): " ++ Error e) dstPath w in
            Some (Some e, w)
        | (None, w) => copyLoop copyDir src dst rest w
        end
  end.

(** [CopyDir] calls itself on every subdirectory; a destination inside the
    source makes that unbounded, so the recursion carries [fuel] and
    [None] means it ran out. *)
Fixpoint CopyDir (fuel : nat) (src dst : string) (w : World)
  : option (option error * World) :=
  match fuel with
  | O => None
  | S k =>
      let src := cleanPath src in
      let dst := cleanPath dst in
      match os.Stat w src with
      | Failure err =>
          Some (Some err, errorPrinter ("CopyDir (os.Stat): " ++ Error err) src w)
      | Ok si =>
          if negb (os.IsDir si)
          then Some (Some (fmt.Errorf "source is not a directory"), w)
          else if negb (os.IsNotExist (errOf (os.Stat w dst)))
          then Some (Some (fmt.Errorf "destination already exists"),
                     errorPrinter "CopyDir: File already exist" dst w)
          else
            let '(err, w) := os.MkdirAll dst (os.Mode si) w in
            match err with
            | Some e =>
                Some (Some e, errorPrinter ("CopyDir (os.MkdirAll): " ++ Error e) dst w)
            | None =>
                match os.ReadDir w src with
                | Failure e =>
                    Some (Some e,
                          errorPrinter ("CopyDir (os.ReadDir): " ++ Error e) src w)
                | Ok entries => copyLoop (CopyDir k) src dst entries w
                end
            end
      end
  end.

(** The formatting loop of [ListFS]. *)
Definition listLoop (objs : list FileInfo) (sysSlices : list string) : list string :=
  fold_left
    (fun sysSlices fi =>
       if IsDir fi then (sysSlices ++ [("*" ++ Name fi)%string])%list
       else (sysSlices ++ [Name fi])%list)
    objs sysSlices.

Definition ListFS (path : string) (w : World) : list string * World :=
  let sysSlices : list string := [] in
  let '(fileInfo, err) := Stat w path in
  match err with
  | Some e => (sysSlices, errorPrinter ("ListFS (Stat): " ++ Error e) path w)
  | None =>
      if negb (IsDir fileInfo) then (sysSlices, w)
      else
        let '(objs, err) := ReadDir w path in
        match err with
        | None => (listLoop objs sysSlices, w)
        | Some e => (sysSlices, errorPrinter ("ListFS: 9" ++ Error e) "" w)
        end
  end.

(** The first loop of [RecurseFS]: every listed name is stat'ed again
    through its joined path; a failure is reported and the name skipped. *)
Fixpoint statLoop (path : string) (temp : list FileInfo) (files : list FileInfo)
         (w : World) : list FileInfo * World :=
  match temp with
  | [] => (files, w)
  | name :: rest =>
      let '(fileInfo, err) := Stat w (filepath.Join [path; Name name]) in
      match err with
      | Some e =>
          statLoop path rest files
            (errorPrinter ("RecureseFS (Stat): " ++ Error e)
               (filepath.Join [path; Name name]) w)
      | None => statLoop path rest (files ++ [fileInfo])%list w
      end
  end.

(** The second loop of [RecurseFS] over the files that were stat'ed;
    [recurseFS] is the recursive call. *)
Fixpoint emitLoop (recurseFS : string -> World -> option (list string * World))
         (path : string) (files : list FileInfo) (sysSlices : list string) (w : World)
  : option (list string * World) :=
  match files with
  | [] => Some (sysSlices, w)
  | f :: rest =>
      let fullPath := path ++ "/" ++ Name f in
      if IsDir f then
        let sysSlices := (sysSlices ++ [("*" ++ fullPath)%string])%list in
        match recurseFS fullPath w with
        | None => None
        | Some (childSlices, w) =>
            emitLoop recurseFS path rest (sysSlices ++ childSlices)%list w
        end
      else emitLoop recurseFS path rest (sysSlices ++ [fullPath])%list w
  end.

(** [RecurseFS] has no cycle detection: a symbolic link back to an
    ancestor is walked again and again. The recursion carries [fuel] and
    [None] means it ran out. *)
Fixpoint RecurseFS (fuel : nat) (path : string) (w : World)
  : option (list string * World) :=
  match fuel with
  | O => None
  | S k =>
      let '(stat, err) := Stat w path in
      match err with
      | Some _ => Some ([], w)
      | None =>
          let '(temp, err) := ReadDir w path in
          match err with
          | Some _ => Some ([], w)
          | None =>
              let '(files, w) :=
                if IsDir stat then statLoop path temp [] w else ([], w) in
              emitLoop (RecurseFS k) path files [] w
          end
      end
  end.


(* ------------------------------------------------------------------ *)
(** *** The remaining operations of the package *)

Definition Open (name : string) (w : World) : result os.File * World :=
  let name := cleanPath name in
  match os.Open w name with
  | Failure err => (Failure err, errorPrinter ("Open: " ++ Error err) name w)
  | Ok file => (Ok file, w)
  end.

Definition Create (name : string) (w : World) : result os.File * World :=
  let name := cleanPath name in
  let '(file, w) := os.Create name w in
  match file with
  | Failure err => (Failure err, errorPrinter ("Create: " ++ Error err) name w)
  | Ok file => (Ok file, w)
  end.

Definition ReadFile (name : string) (w : World) : (string * option error) * World :=
  match os.ReadFile w name with
  | Failure err => (("", Some err), errorPrinter ("ReadFile: " ++ Error err) name w)
  | Ok content => ((content, None), w)
  end.

Definition Mkdir (name : string) (perm : Z) (w : World) : option error * World :=
  let name := cleanPath name in
  let '(err, w) := os.Mkdir name perm w in
  match err with
  | Some e => (Some e, errorPrinter ("Mkdir: " ++ Error e) name w)
  | None => (None, w)
  end.

Definition WriteFile (name content : string) (perm : Z) (w : World)
  : option error * World :=
  let name := cleanPath name in
  let '(err, w) := os.WriteFile name content perm w in
  match err with
  | Some e => (Some e, w)
  | None => (None, w)
  end.

Definition FileSize (name : string) (w : World) : (Z * option error) * World :=
  match os.Stat w name with
  | Failure err => ((0%Z, Some err), errorPrinter ("FileSize: " ++ Error err) name w)
  | Ok stat => ((os.Size stat, None), w)
  end.

Definition FileSizeZeroOnError (w : World) (name : string) : Z :=
  match os.Stat w name with
  | Failure _ => 0%Z
  | Ok stat => os.Size stat
  end.

(** [Delete], [Remove] and [Rename] forward to primitives that take
    entries out of the tree; they are embedded over any behaviour of
    those primitives. *)
Section Removal.
Variable osRemove : string -> World -> option error * World.            (* os.Remove *)
Variable osRename : string -> string -> World -> option error * World.  (* os.Rename *)

Definition Delete (name : string) (w : World) : option error * World :=
  let '(err, w) := osRemove name w in
  match err with
  | Some e => (Some e, errorPrinter ("Delete: " ++ Error e) name w)
  | None => (None, w)
  end.

Definition Remove (name : string) (w : World) : option error * World :=
  let '(err, w) := osRemove name w in
  match err with
  | Some e => (Some e, errorPrinter ("Remove: " ++ Error e) name w)
  | None => (None, w)
  end.

Definition Rename (oldName newName : string) (w : World) : option error * World :=
  if oldName =? newName then (None, w)
  else
    let '(err, w) := osRename oldName newName w in
    match err with
    | Some e =>
        let w := errorPrinter ("Rename: " ++ Error e) oldName w in
        let w := errorPrinter ("Rename: " ++ Error e) newName w in
        (Some e, w)
    | None => (None, w)
    end.
End Removal.

(** [FindFilesInDir] and [CopyDirFilesGlob] match names against shell
    patterns; they are embedded over any behaviour of [filepath.Match]
    and [filepath.Glob]. *)
Section Patterns.
Variable filepathMatch : string -> string -> bool * option error.       (* filepath.Match *)
Variable filepathGlob : World -> string -> list string * option error.  (* filepath.Glob *)

(** The loop of [FindFilesInDir]. *)
Fixpoint findLoop (dir pattern : string) (entries : list os.DirEntry)
         (matches : list string) : list string * option error :=
  match entries with
  | [] => (matches, None)
  | entry :: rest =>
      let '(matched, err) := filepathMatch pattern (os.entryName entry) in
      match err with
      | Some e => ([], Some e)
      | None =>
          if matched
          then findLoop dir pattern rest
                 (matches ++ [filepath.Join [dir; os.entryName entry]])%list
          else findLoop dir pattern rest matches
      end
  end.

Definition FindFilesInDir (w : World) (dir pattern : string)
  : list string * option error :=
  match os.ReadDir w dir with
  | Failure err => ([], Some err)
  | Ok entries => findLoop dir pattern entries []
  end.

Definition Glob (w : World) (pattern : string) : list string * option error :=
  let '(matches, err) := filepathGlob w pattern in
  match err with
  | Some e => ([], Some e)
  | None => (matches, None)
  end.

(** The loop of [CopyDirFilesGlob]. *)
Fixpoint globCopyLoop (dst : string) (matches : list string) (w : World)
  : option error * World :=
  match matches with
  | [] => (None, w)
  | item :: rest =>
      let itemBaseName := filepath.Base item in
      let '(err, w) := CopyFile item (filepath.Join [dst; itemBaseName]) w in
      match err with
      | Some e =>
          let w := errorPrinter ("CopyDirFilesGlob (CopyFile-1): " ++ Error e) item w in
          let w := errorPrinter ("CopyDirFilesGlob (CopyFile-2): " ++ Error e)
                     (filepath.Join [dst; itemBaseName]) w in
          (Some e, w)
      | None => globCopyLoop dst rest w
      end
  end.

Definition CopyDirFilesGlob (src dst fileMatch : string) (w : World)
  : option error * World :=
  let src := cleanPath src in
  let dst := cleanPath dst in
  let '(srcInfo, err) := Stat w src in
  match err with
  | Some e =>
      (Some (fmt.Errorf "source is not a directory or does not exist"),
       errorPrinter ("CopyDirFilesGlob: " ++ Error e) src w)
  | None =>
      if negb (IsDir srcInfo)
      then (Some (fmt.Errorf "source is not a directory or does not exist"), w)
      else
        let '(err, w) :=
          if negb (FileExists w dst) then MkdirAll dst (Mode srcInfo) w
          else (None, w) in
        match err with
        | Some e =>
            (Some e, errorPrinter ("CopyDirFilesGlob (MkdirAll): " ++ Error e) dst w)
        | None =>
            let '(matches, err) := Glob w (src ++ "/" ++ fileMatch) in
            match err with
            | Some e =>
                (Some e,
                 errorPrinter ("CopyDirFilesGlob (Glob): " ++ Error e)
                   (src ++ "/" ++ fileMatch) w)
            | None => globCopyLoop dst matches w
            end
        end
  end.
End Patterns.


(* ================================================================== *)
(** * Vocabulary of the properties *)

(** ** Order *)

(** Ascending, and strictly ascending, in the byte order of the keys. *)
Definition ascending {A : Type} (key : A -> string) : list A -> Prop :=
  StronglySorted (fun a b => (key a <=? key b) = true).
Definition strictlyAscending {A : Type} (key : A -> string) : list A -> Prop :=
  StronglySorted (fun a b => (key a <? key b) = true).

(** ** The error log *)

(** The flags [Append] opens its file with. *)
Definition appendFlags : Z := Z.lor os.O_APPEND (Z.lor os.O_WRONLY os.O_CREATE).

(** The bytes of the regular file at [p]. *)
Definition contentAt (r : os.node) (p : list string) : option string :=
  match os.lookup r p with
  | Some (os.Regular _ _ d) => Some d
  | _ => None
  end.

(** The debug marker is reported absent by [os.Stat]. *)
Definition markerAbsent (w : World) : bool :=
  os.IsNotExist (errOf (os.Stat w debugMarker)).

(** The line [errorPrinter] appends for the text [log]. *)
Definition logLine (log : string) (w : World) : string :=
  log ++ " stacktrace: " ++ stackHint w ++ CRLF.

(** The system calls of a log write. *)
Definition isLogCall (w : World) (c : os.call) : Prop :=
  c = os.CallOpenFile (logName w) appendFlags 420
  \/ exists b, c = os.CallWrite (logName w) b.

(** From [w] to [w'] nothing but log writes was asked of the system. *)
Definition onlyLogged (w w' : World) : Prop :=
  exists new, os.calls w' = (new ++ os.calls w)%list /\ Forall (isLogCall w) new.

(** ** A small world for the examples *)

Definition noon : time.Time := time.mkTime 2024 3 7 12 0 0.

Definition demoTree : os.node :=
  os.Directory 493 noon
    [("a", os.Directory 493 noon
             [("f.txt", os.Regular 420 noon "0123456789");
              ("b", os.Directory 493 noon [("g.txt", os.Regular 420 noon "g")])]);
     ("home", os.Directory 493 noon
                [("GMSFS.Debug", os.Regular 420 noon "");
                 ("x", os.Regular 420 noon "hello");
                 ("C:d", os.Directory 493 noon [])]);
     ("t", os.Directory 493 noon
             [("b", os.Symlink noon "/nowhere");
              ("c.txt", os.Regular 420 noon "c")]);
     ("locked", os.Directory 0 noon [("s", os.Regular 420 noon "s")])].

(** The demo tree seen from working directory [dir]; the debug marker is
    in [/home]. *)
Definition demoAt (dir : list string) : World :=
  os.mkWorld demoTree dir noon 18
             (Some (os.mkFunc "main.main" "/src/main.go" 12)) [].

Definition demo : World := demoAt ["home"].
Definition quiet : World := demoAt ["a"].

(** A world whose directory [/r] may be read but not searched (mode
    0444): its entries can be enumerated and none of them looked up. No
    debug marker is in sight. *)
Definition sealedTree : os.node :=
  os.Directory 493 noon
    [("r", os.Directory 292 noon [("k", os.Regular 420 noon "k")])].

Definition sealed : World :=
  os.mkWorld sealedTree [] noon 18
             (Some (os.mkFunc "main.main" "/src/main.go" 12)) [].

(** ** Listings *)

(** The record [ReadDir] builds from what [Info()] returns. *)
Definition fromInfo (st : os.FileInfo) : FileInfo :=
  mkFileInfo true (os.Size st) (os.Mode st) (os.ModTime st) (os.IsDir st) []
             (os.Name st).

(** The record of one directory entry. *)
Definition childInfo (kn : string * os.node) : FileInfo :=
  fromInfo (os.infoOf (fst kn) (snd kn)).

(** [dirName] opens, and what it opens is a directory that the system
    enumerates as [es]. *)
Definition opensDir (w : World) (dirName : string) (es : list (string * os.node)) : Prop :=
  exists f pm mt,
    os.Open w dirName = Ok f
    /\ os.lookup (os.root w) (os.filePath f) = Some (os.Directory pm mt es).

(** [dirName] can be listed: it opens as a directory that the system
    enumerates as [es] (read permission) and in which each entry can be
    looked up (search permission). *)
Definition listable (w : World) (dirName : string) (es : list (string * os.node)) : Prop :=
  exists f pm mt,
    os.Open w dirName = Ok f
    /\ os.lookup (os.root w) (os.filePath f) = Some (os.Directory pm mt es)
    /\ os.canSearch pm = true.

(** The order [ReadDir] sorts the entries in. *)
Definition byName (a b : string * os.node) : bool := fst a <? fst b.

(** The name [ListFS] gives an entry. *)
Definition listedName (fi : FileInfo) : string :=
  if IsDir fi then "*" ++ Name fi else Name fi.

(** What [IsDir] reports for a node. *)
Definition isDirectory (n : os.node) : bool :=
  match n with
  | os.Directory _ _ _ => true
  | _ => false
  end.

(** ** Paths of plain names *)

(** A name that is not empty, not dot and not dot-dot. *)
Definition plain (c : string) : bool :=
  negb ((c =? "") || (c =? ".") || (c =? "..")).

Definition notSymlink (n : os.node) : bool :=
  match n with
  | os.Symlink _ _ => false
  | _ => true
  end.

(** From the directory at [cur] the names [comps] lead down through
    searchable directories, meeting no symbolic link. *)
Inductive descends (r : os.node) : list string -> list string -> Prop :=
| descends_nil cur : descends r cur []
| descends_cons cur c rest pm mt es n :
    os.lookup r cur = Some (os.Directory pm mt es) ->
    os.canSearch pm = true ->
    plain c = true ->
    os.lookup_entry c es = Some n ->
    notSymlink n = true ->
    descends r (cur ++ [c]) rest ->
    descends r cur (c :: rest).

(** ** Recursive listing *)


(** The entry [x] of a listing names something under [path]: it is
    [path], a separator and more, with or without the star of a
    directory. *)
Definition below (path x : string) : Prop :=
  exists rest, x = path ++ "/" ++ rest \/ x = "*" ++ path ++ "/" ++ rest.



(** ** Trees that only grow *)

(** Two nodes of the same kind: regular files, directories of equal
    permissions, or links to the same target. *)
Definition alike (n n' : os.node) : Prop :=
  match n, n' with
  | os.Regular _ _ _, os.Regular _ _ _ => True
  | os.Directory pm _ _, os.Directory pm' _ _ => pm = pm'
  | os.Symlink _ t, os.Symlink _ t' => t = t'
  | _, _ => False
  end.

(** Every node of [r] is still there in [r'], with its kind: files may
    have changed content, directories may have gained entries. *)
Definition grows (r r' : os.node) : Prop :=
  forall p n, os.lookup r p = Some n ->
              exists n', os.lookup r' p = Some n' /\ alike n n'.

(** The permission bits of the node at [p]. *)
Definition permAt (r : os.node) (p : list string) : option Z :=
  match os.lookup r p with
  | Some (os.Regular pm _ _) => Some pm
  | Some (os.Directory pm _ _) => Some pm
  | _ => None
  end.


(** From [w] to [w'] the tree has grown, every regular file other than
    the one at [p] is as it was, and the working directory, the clock, the
    umask and the call stack have not moved. *)
Definition touchesOnly (p : list string) (w w' : World) : Prop :=
  os.cwd w' = os.cwd w /\ os.now w' = os.now w /\ os.umask w' = os.umask w
  /\ os.frame w' = os.frame w
  /\ grows (os.root w) (os.root w')
  /\ forall q pm mt d,
       os.lookup (os.root w) q = Some (os.Regular pm mt d) -> q <> p ->
       os.lookup (os.root w') q = Some (os.Regular pm mt d).

(** From [w] to [w'] the tree has grown and every regular file is as it
    was; the working directory has not moved. *)
Definition keepsFiles (w w' : World) : Prop :=
  os.cwd w' = os.cwd w
  /\ grows (os.root w) (os.root w')
  /\ forall q pm mt d,
       os.lookup (os.root w) q = Some (os.Regular pm mt d) ->
       os.lookup (os.root w') q = Some (os.Regular pm mt d).

(** ** Names *)



(** ** Links followed *)








(* ================================================================== *)
(** * Properties *)

(** ** Byte order on strings *)

Lemma ascii_compare_refl (a : ascii) : Ascii.compare a a = Eq.
Proof. unfold Ascii.compare. apply N.compare_refl. Qed.

Lemma ascii_compare_lt_trans (a b c : ascii) :
  Ascii.compare a b = Lt -> Ascii.compare b c = Lt -> Ascii.compare a c = Lt.
Proof.
  unfold Ascii.compare. rewrite !N.compare_lt_iff. apply N.lt_trans.
Qed.

Lemma string_compare_lt_trans (s1 s2 s3 : string) :
  String.compare s1 s2 = Lt -> String.compare s2 s3 = Lt -> String.compare s1 s3 = Lt.
Proof.
  revert s2 s3.
  induction s1 as [|a s1 IH]; intros [|b s2] [|c s3]; simpl; try congruence.
  destruct (Ascii.compare a b) eqn:Hab; try discriminate.
  - apply Ascii.compare_eq_iff in Hab. subst b.
    destruct (Ascii.compare a c); try congruence. apply IH.
  - intros _.
    destruct (Ascii.compare b c) eqn:Hbc; try discriminate.
    + apply Ascii.compare_eq_iff in Hbc. subst c. now rewrite Hab.
    + intros _. now rewrite (ascii_compare_lt_trans a b c).
Qed.

Lemma string_compare_refl (s : string) : String.compare s s = Eq.
Proof.
  induction s as [|a s IH]; simpl; [reflexivity|].
  now rewrite ascii_compare_refl.
Qed.

Lemma ltb_trans (x y z : string) :
  (x <? y) = true -> (y <? z) = true -> (x <? z) = true.
Proof.
  unfold String.ltb. intros Hxy Hyz.
  destruct (String.compare x y) eqn:E1; try discriminate.
  destruct (String.compare y z) eqn:E2; try discriminate.
  now rewrite (string_compare_lt_trans x y z).
Qed.

Lemma ltb_irrefl (x : string) : (x <? x) = false.
Proof. unfold String.ltb. now rewrite string_compare_refl. Qed.

Lemma ltb_asym (x y : string) : (x <? y) = true -> (y <? x) = false.
Proof.
  intros H. destruct (y <? x) eqn:E; [|reflexivity].
  rewrite <- (ltb_irrefl x). symmetry. now apply ltb_trans with y.
Qed.

Lemma not_ltb_leb (x y : string) : (x <? y) = false -> (y <=? x) = true.
Proof.
  unfold String.ltb, String.leb. rewrite (String.compare_antisym y x).
  destruct (String.compare x y); simpl; congruence.
Qed.

Lemma ltb_leb (x y : string) : (x <? y) = true -> (x <=? y) = true.
Proof.
  unfold String.ltb, String.leb. destruct (String.compare x y); congruence.
Qed.

Lemma leb_trans (x y z : string) :
  (x <=? y) = true -> (y <=? z) = true -> (x <=? z) = true.
Proof.
  unfold String.leb. intros Hxy Hyz.
  destruct (String.compare x y) eqn:E1; try discriminate.
  - apply String.compare_eq_iff in E1. now subst y.
  - destruct (String.compare y z) eqn:E2; try discriminate.
    + apply String.compare_eq_iff in E2. subst z. now rewrite E1.
    + now rewrite (string_compare_lt_trans x y z).
Qed.

Lemma leb_neq_ltb (x y : string) : (x <=? y) = true -> x <> y -> (x <? y) = true.
Proof.
  unfold String.leb, String.ltb. intros H Hne.
  destruct (String.compare x y) eqn:E; try congruence.
  apply String.compare_eq_iff in E. contradiction.
Qed.

(** ** Sorting by a string key *)

Section SortByKey.
Context {A : Type} (key : A -> string).

Let less (a b : A) : bool := key a <? key b.

Lemma insert_perm (x : A) (l : list A) :
  Permutation (sort.insert less x l) (x :: l).
Proof.
  induction l as [|y l IH]; simpl; [reflexivity|].
  destruct (less x y); [reflexivity|].
  rewrite IH. apply perm_swap.
Qed.

Lemma insert_ascending (x : A) (l : list A) :
  ascending key l -> ascending key (sort.insert less x l).
Proof.
  unfold ascending.
  induction l as [|y l IH]; simpl; intros Hs.
  - constructor; constructor.
  - apply StronglySorted_inv in Hs. destruct Hs as [Hs Hy].
    destruct (less x y) eqn:E; unfold less in E.
    + constructor; [now constructor|].
      constructor; [now apply ltb_leb|].
      eapply Forall_impl; [|exact Hy]. simpl. intros b Hb.
      eapply leb_trans; [apply ltb_leb; exact E|exact Hb].
    + constructor; [now apply IH|].
      eapply Permutation_Forall; [symmetry; apply insert_perm|].
      constructor; [now apply not_ltb_leb|exact Hy].
Qed.

Lemma fold_insert_perm (l acc : list A) :
  Permutation (fold_left (fun sorted e => sort.insert less e sorted) l acc) (acc ++ l).
Proof.
  revert acc. induction l as [|x l IH]; intros acc; simpl.
  - now rewrite app_nil_r.
  - rewrite IH, insert_perm. apply Permutation_cons_app. reflexivity.
Qed.

Lemma fold_insert_ascending (l acc : list A) :
  ascending key acc ->
  ascending key (fold_left (fun sorted e => sort.insert less e sorted) l acc).
Proof.
  revert acc. induction l as [|x l IH]; intros acc Hacc; simpl; [exact Hacc|].
  apply IH. now apply insert_ascending.
Qed.

Lemma Slice_perm (l : list A) : Permutation (sort.Slice less l) l.
Proof. unfold sort.Slice. now rewrite fold_insert_perm. Qed.

Lemma Slice_ascending (l : list A) : ascending key (sort.Slice less l).
Proof. apply fold_insert_ascending. constructor. Qed.

Lemma ascending_strict (l : list A) :
  ascending key l -> NoDup (map key l) -> strictlyAscending key l.
Proof.
  unfold ascending, strictlyAscending.
  induction l as [|a l IH]; intros Hs Hnd; [constructor|].
  apply StronglySorted_inv in Hs. destruct Hs as [Hs Ha].
  simpl in Hnd. apply NoDup_cons_iff in Hnd. destruct Hnd as [Hnin Hnd].
  constructor; [now apply IH|].
  rewrite Forall_forall in Ha |- *. intros b Hb.
  apply leb_neq_ltb; [now apply Ha|].
  intros Heq. apply Hnin. rewrite Heq. now apply in_map.
Qed.

Lemma Slice_strict (l : list A) :
  NoDup (map key l) -> strictlyAscending key (sort.Slice less l).
Proof.
  intros Hnd. apply ascending_strict; [apply Slice_ascending|].
  eapply Permutation_NoDup; [|exact Hnd].
  apply Permutation_map. symmetry. apply Slice_perm.
Qed.

(** A list has one strictly ascending arrangement only: whatever sort
    the library runs, the result is the same. *)
Lemma sorted_perm_unique (l1 l2 : list A) :
  strictlyAscending key l1 -> strictlyAscending key l2 -> Permutation l1 l2 -> l1 = l2.
Proof.
  unfold strictlyAscending.
  revert l2. induction l1 as [|a l1 IH]; intros l2 H1 H2 HP.
  - apply Permutation_nil in HP. now subst.
  - destruct l2 as [|b l2].
    + symmetry in HP. apply Permutation_nil in HP. discriminate.
    + apply StronglySorted_inv in H1. destruct H1 as [H1 Ha].
      apply StronglySorted_inv in H2. destruct H2 as [H2 Hb].
      rewrite Forall_forall in Ha, Hb.
      assert (Hab : a = b).
      { assert (Ia : In a (b :: l2)) by (eapply Permutation_in; [exact HP|now left]).
        assert (Ib : In b (a :: l1))
          by (eapply Permutation_in; [symmetry; exact HP|now left]).
        destruct Ia as [Ia|Ia]; [now symmetry|].
        destruct Ib as [Ib|Ib]; [exact Ib|].
        apply Hb in Ia. apply Ha in Ib.
        apply ltb_asym in Ia. congruence. }
      subst b. f_equal. apply IH; auto.
      now apply Permutation_cons_inv in HP.
Qed.

Lemma Slice_order_independent (l1 l2 : list A) :
  NoDup (map key l1) -> Permutation l1 l2 ->
  sort.Slice less l1 = sort.Slice less l2.
Proof.
  intros Hnd HP. apply sorted_perm_unique.
  - now apply Slice_strict.
  - apply Slice_strict. eapply Permutation_NoDup; [|exact Hnd].
    now apply Permutation_map.
  - rewrite !Slice_perm. exact HP.
Qed.

End SortByKey.

(** ** The directory tree *)

Lemma lookup_app (n : os.node) (p q : list string) :
  os.lookup n (p ++ q) =
  match os.lookup n p with
  | Some m => os.lookup m q
  | None => None
  end.
Proof.
  revert n. induction p as [|c p IH]; intros n; simpl; [reflexivity|].
  destruct n as [| pm mt es |]; try reflexivity.
  destruct (os.lookup_entry c es); [apply IH|reflexivity].
Qed.

Lemma lookup_entry_modified (c : string) (g : os.node -> os.node)
      (es : list (string * os.node)) :
  os.lookup_entry c
    (map (fun kn => if fst kn =? c then (fst kn, g (snd kn)) else kn) es)
  = option_map g (os.lookup_entry c es).
Proof.
  induction es as [|[k n] es IH]; simpl; [reflexivity|].
  destruct (k =? c) eqn:E; simpl; rewrite E; [reflexivity|exact IH].
Qed.

Lemma lookup_modify (p : list string) (f : os.node -> os.node) (n : os.node) :
  os.lookup (os.modify p f n) p = option_map f (os.lookup n p).
Proof.
  revert n. induction p as [|c p IH]; intros n; simpl; [reflexivity|].
  destruct n as [| pm mt es |]; simpl; try reflexivity.
  rewrite lookup_entry_modified.
  destruct (os.lookup_entry c es) as [m|]; simpl; [apply IH|reflexivity].
Qed.

Lemma lookup_entry_snoc (c : string) (new : os.node) (es : list (string * os.node)) :
  os.lookup_entry c es = None ->
  os.lookup_entry c (es ++ [(c, new)]) = Some new.
Proof.
  induction es as [|[k n] es IH]; simpl.
  - now rewrite String.eqb_refl.
  - destruct (k =? c); [discriminate|exact IH].
Qed.

(** A new entry of an existing directory is found where it was put. *)
Lemma lookup_added (r : os.node) (parent : list string) (c : string)
      (t : time.Time) (new : os.node) pm mt es :
  os.lookup r parent = Some (os.Directory pm mt es) ->
  os.lookup_entry c es = None ->
  os.lookup (os.modify parent (os.addEntry t c new) r) (parent ++ [c]) = Some new.
Proof.
  intros Hp Hc. rewrite lookup_app, lookup_modify, Hp. simpl.
  now rewrite (lookup_entry_snoc c new es Hc).
Qed.

(** ** Path resolution *)

Lemma walk_Missing (r : os.node) (follow : bool) (comps : list string) :
  forall cur parent c,
    os.walk r cur comps follow = os.Missing parent c ->
    exists pm mt es,
      os.lookup r parent = Some (os.Directory pm mt es)
      /\ os.lookup_entry c es = None.
Proof.
  induction comps as [|c0 rest IH]; intros cur parent c; simpl; [discriminate|].
  destruct (os.lookup r cur) as [[| pm mt es |]|] eqn:Hl; try discriminate.
  destruct (c0 =? ""); [apply IH|].
  destruct (negb (os.canSearch pm)); [discriminate|].
  destruct (c0 =? "."); [apply IH|].
  destruct (c0 =? ".."); [apply IH|].
  destruct (os.lookup_entry c0 es) as [[| |]|] eqn:He.
  - apply IH.
  - apply IH.
  - destruct rest, follow; discriminate.
  - destruct rest; [|discriminate].
    intros H. inversion H; subst. eauto.
Qed.

Lemma resolveFrom_Missing (r : os.node) (follow : bool) (budget : nat) :
  forall cur comps parent c,
    os.resolveFrom budget r cur comps follow = os.Missing parent c ->
    exists pm mt es,
      os.lookup r parent = Some (os.Directory pm mt es)
      /\ os.lookup_entry c es = None.
Proof.
  induction budget as [|k IH]; intros cur comps parent c; simpl;
    destruct (os.walk r cur comps follow) eqn:Hw; try discriminate;
    try (intros H; rewrite H in Hw; eapply walk_Missing; exact Hw).
  destruct (target =? ""); [discriminate|]. apply IH.
Qed.

Lemma resolve_Missing (w : World) (name : string) (follow : bool) parent c :
  os.resolve w name follow = os.Missing parent c ->
  exists pm mt es,
    os.lookup (os.root w) parent = Some (os.Directory pm mt es)
    /\ os.lookup_entry c es = None.
Proof.
  unfold os.resolve. destruct (name =? ""); [discriminate|].
  apply resolveFrom_Missing.
Qed.

Lemma resolveFrom_not_Link (r : os.node) (follow : bool) (budget : nat) :
  forall cur comps cur' t rest,
    os.resolveFrom budget r cur comps follow <> os.Link cur' t rest.
Proof.
  induction budget as [|k IH]; intros cur comps cur' t rest; simpl;
    destruct (os.walk r cur comps follow) eqn:Hw; try discriminate.
  destruct (target =? ""); [discriminate|]. apply IH.
Qed.

(** ** Opening and writing *)

Lemma openat_fails_root (w : World) (name : string) (flag perm : Z) err r :
  os.openat w name flag perm = (Failure err, r) -> r = os.root w.
Proof.
  unfold os.openat.
  destruct (os.resolve w name true) as [p | parent c | |];
    try (intros H; inversion H; reflexivity).
  - destruct (os.lookup (os.root w) p) as [[pm mt d | pm mt es | ]|];
      try (intros H; inversion H; reflexivity).
    + destruct (_ && _); intros H; inversion H; reflexivity.
    + destruct (_ || _); [intros H; inversion H; reflexivity|].
      destruct (os.canRead pm); intros H; inversion H; reflexivity.
  - destruct (os.hasFlag flag os.O_CREATE); [|intros H; inversion H; reflexivity].
    destruct (os.lookup (os.root w) parent) as [[| pm mt es | ]|];
      try (intros H; inversion H; reflexivity).
    destruct (os.canWrite pm); intros H; inversion H; reflexivity.
Qed.

(** A file opened for writing without truncation is a regular file of
    the tree the open leaves behind. *)
Lemma openat_writable (w : World) (name : string) (flag perm : Z) f r :
  os.wantsWrite flag = true ->
  os.hasFlag flag os.O_TRUNC = false ->
  os.openat w name flag perm = (Ok f, r) ->
  os.fileName f = name /\ os.fileFlag f = flag
  /\ exists pm mt d, os.lookup r (os.filePath f) = Some (os.Regular pm mt d).
Proof.
  intros Hw Ht. unfold os.openat. rewrite Hw, Ht. simpl.
  destruct (os.resolve w name true) as [p | parent c | |] eqn:Hr; try discriminate.
  - destruct (os.lookup (os.root w) p) as [[pm mt d | pm mt es | ]|] eqn:Hl;
      try discriminate.
    destruct (_ && _); [|discriminate].
    intros H. inversion H; subst. simpl. eauto 6.
  - destruct (os.hasFlag flag os.O_CREATE); [|discriminate].
    destruct (resolve_Missing _ _ _ _ _ Hr) as (pm & mt & es & Hp & Hc).
    rewrite Hp. destruct (os.canWrite pm); [|discriminate].
    intros H. inversion H; subst. simpl.
    repeat split; try reflexivity.
    do 3 eexists. eapply lookup_added; eassumption.
Qed.

Lemma Write_regular (f : os.File) (b : string) (w : World) pm mt d :
  os.wantsWrite (os.fileFlag f) = true ->
  os.lookup (os.root w) (os.filePath f) = Some (os.Regular pm mt d) ->
  os.Write f b w =
  ((Z.of_nat (String.length b), None),
   os.withRoot
     (os.modify (os.filePath f) (fun _ => os.Regular pm (os.now w) (d ++ b)) (os.root w))
     (os.record (os.CallWrite (os.fileName f) b) w)).
Proof.
  intros Hw Hl. unfold os.Write. rewrite Hw. simpl. now rewrite Hl.
Qed.

(** What [Append] does, whatever error printer it was given. *)
Lemma AppendWith_spec (ep : string -> string -> World -> World)
      (name content : string) (w : World) :
  let w0 := os.record (os.CallOpenFile name appendFlags 420) w in
  match os.openat w0 name appendFlags 420 with
  | (Failure err, _) => AppendWith ep name content w = (Some err, w0)
  | (Ok f, r) =>
      exists pm mt old,
        os.lookup r (os.filePath f) = Some (os.Regular pm mt old)
        /\ AppendWith ep name content w =
           (None,
            os.withRoot
              (os.modify (os.filePath f)
                 (fun _ => os.Regular pm (os.now w) (old ++ content)) r)
              (os.record (os.CallWrite name content) w0))
  end.
Proof.
  intros w0. unfold AppendWith, os.OpenFile. fold appendFlags. fold w0.
  destruct (os.openat w0 name appendFlags 420) as [[f|err] r] eqn:Ho.
  - destruct (openat_writable w0 name appendFlags 420 f r eq_refl eq_refl Ho)
      as (Hn & Hf & pm & mt & old & Hl).
    exists pm, mt, old. split; [exact Hl|].
    rewrite (Write_regular f content (os.withRoot r w0) pm mt old);
      [|now rewrite Hf|exact Hl].
    now rewrite Hn.
  - apply openat_fails_root in Ho. subst r.
    destruct w; reflexivity.
Qed.

Lemma AppendWith_any (ep1 ep2 : string -> string -> World -> World)
      (name content : string) (w : World) :
  AppendWith ep1 name content w = AppendWith ep2 name content w.
Proof.
  pose proof (AppendWith_spec ep1 name content w) as H1.
  pose proof (AppendWith_spec ep2 name content w) as H2.
  cbv zeta in H1, H2.
  destruct (os.openat _ name appendFlags 420) as [[f|err] r].
  - destruct H1 as (pm & mt & old & Hl & E1).
    destruct H2 as (pm' & mt' & old' & Hl' & E2).
    rewrite E1, E2. rewrite Hl in Hl'. now inversion Hl'.
  - now rewrite H1, H2.
Qed.

(** ** The error log *)

Lemma marker_test (w : World) :
  (match errOf (os.Stat w debugMarker) with Some _ => true | None => false end)
    && os.IsNotExist (errOf (os.Stat w debugMarker))
  = markerAbsent w.
Proof.
  unfold markerAbsent. now destruct (errOf (os.Stat w debugMarker)).
Qed.

(** The equation the source gives for [errorPrinter]. *)
Lemma errorPrinter_eq (log object : string) (w : World) :
  errorPrinter log object w =
  if markerAbsent w then w
  else snd (AppendStringToFile (logName w) (logLine log w) w).
Proof.
  unfold errorPrinter at 1. simpl. rewrite marker_test.
  destruct (markerAbsent w); [reflexivity|].
  unfold AppendStringToFile, Append, logLine.
  now rewrite (AppendWith_any (errorPrinterRec 0) errorPrinter).
Qed.

Lemma errorPrinterRec_depth (k : nat) (log object : string) (w : World) :
  errorPrinterRec (S k) log object w = errorPrinter log object w.
Proof.
  unfold errorPrinter. simpl. rewrite marker_test.
  destruct (markerAbsent w); [reflexivity|].
  now rewrite (AppendWith_any (errorPrinterRec k) (fun _ _ w => w)).
Qed.

Lemma errorPrinter_absent (log object : string) (w : World) :
  markerAbsent w = true -> errorPrinter log object w = w.
Proof. intros H. now rewrite errorPrinter_eq, H. Qed.

Lemma onlyLogged_refl (w : World) : onlyLogged w w.
Proof. exists []. split; [reflexivity|constructor]. Qed.

Lemma Append_log_onlyLogged (content : string) (w : World) :
  onlyLogged w (snd (Append (logName w) content w)).
Proof.
  unfold Append.
  pose proof (AppendWith_spec errorPrinter (logName w) content w) as H.
  cbv zeta in H.
  destruct (os.openat _ (logName w) appendFlags 420) as [[f|err] r].
  - destruct H as (pm & mt & old & _ & E). rewrite E. simpl.
    exists [os.CallWrite (logName w) content;
            os.CallOpenFile (logName w) appendFlags 420].
    split; [reflexivity|].
    constructor; [right; now exists content|].
    constructor; [now left|constructor].
  - rewrite H. simpl.
    exists [os.CallOpenFile (logName w) appendFlags 420].
    split; [reflexivity|].
    constructor; [now left|constructor].
Qed.

Lemma errorPrinter_onlyLogged (log object : string) (w : World) :
  onlyLogged w (errorPrinter log object w).
Proof.
  rewrite errorPrinter_eq.
  destruct (markerAbsent w); [apply onlyLogged_refl|].
  apply Append_log_onlyLogged.
Qed.

(** ** errorPrinter *)

(** C3 (as amended). A failure handed to [errorPrinter] is logged
    according to the debug marker: when [os.Stat] reports the marker
    absent nothing at all is done; otherwise the dated log file is opened
    for appending and, if that succeeds, exactly one write adds the line
    made of the caller's text (operation label and error text), the word
    stacktrace, the stack hint and CR LF to the end of what the file held.
    A failed open is ignored. *)
Theorem errorPrinter_appends_one_line (log object : string) (w : World) :
  let w' := errorPrinter log object w in
  let w0 := os.record (os.CallOpenFile (logName w) appendFlags 420) w in
  if markerAbsent w then w' = w
  else
    match os.openat w0 (logName w) appendFlags 420 with
    | (Failure _, _) => w' = w0
    | (Ok f, r) =>
        os.calls w' = os.CallWrite (logName w) (logLine log w) :: os.calls w0
        /\ exists old,
            contentAt r (os.filePath f) = Some old
            /\ contentAt (os.root w') (os.filePath f) = Some (old ++ logLine log w)
    end.
Proof.
  cbv zeta. rewrite errorPrinter_eq.
  destruct (markerAbsent w); [reflexivity|].
  unfold AppendStringToFile, Append.
  pose proof (AppendWith_spec errorPrinter (logName w) (logLine log w) w) as H.
  cbv zeta in H.
  destruct (os.openat _ (logName w) appendFlags 420) as [[f|err] r].
  - destruct H as (pm & mt & old & Hl & E). rewrite E. simpl.
    split; [reflexivity|].
    exists old. unfold contentAt. rewrite Hl, lookup_modify, Hl. now split.
  - now rewrite H.
Qed.

Lemma errorPrinter_appends_one_line_witness :
  markerAbsent demo = false
  /\ os.calls (errorPrinter "Delete: remove /p: no such file or directory" "/p" demo)
     = [os.CallWrite (logName demo)
          (logLine "Delete: remove /p: no such file or directory" demo);
        os.CallOpenFile (logName demo) appendFlags 420]
  /\ contentAt (os.root (errorPrinter "Delete: remove /p: no such file or directory"
                           "/p" demo))
               ["home"; "GMSFS.20240307_1200.log"]
     = Some (logLine "Delete: remove /p: no such file or directory" demo)
  /\ errorPrinter "Delete: remove /p: no such file or directory" "/p" quiet = quiet.
Proof.
  split; [vm_compute; reflexivity|].
  pose proof (errorPrinter_appends_one_line
                "Delete: remove /p: no such file or directory" "/p" demo) as Hd.
  pose proof (errorPrinter_appends_one_line
                "Delete: remove /p: no such file or directory" "/p" quiet) as Hq.
  cbv zeta in Hd, Hq.
  change (markerAbsent demo) with false in Hd.
  change (markerAbsent quiet) with true in Hq.
  change (os.openat _ (logName demo) appendFlags 420)
    with (Ok (os.mkFile (logName demo) ["home"; "GMSFS.20240307_1200.log"] appendFlags),
          os.modify ["home"]
            (os.addEntry noon "GMSFS.20240307_1200.log" (os.Regular 420 noon ""))
            demoTree) in Hd.
  cbv iota in Hd, Hq. destruct Hd as (Hc & old & Ho & Hn).
  split; [exact Hc|]. split; [|exact Hq].
  assert (old = "") by (vm_compute in Ho; congruence). subst old.
  exact Hn.
Defined.

(** C3, as stated, fails: with the debug marker present, [MkdirAll] on a
    path below a regular file fails and leaves the world as it was: no
    log file, no system call recorded. *)
Lemma MkdirAll_fails_without_logging :
  FileExists demo debugMarker = true
  /\ MkdirAll "/a/f.txt/sub" 493 demo
     = (Some (PathError "mkdir" "/a/f.txt" ENOTDIR), demo).
Proof. split; vm_compute; reflexivity. Qed.

(** ** FileExists *)

(** C4. [FileExists] answers true exactly when [os.Stat] succeeds; every
    failure of [os.Stat], not-found or any other, gives false. *)
Theorem FileExists_iff_stat_succeeds (w : World) (name : string) :
  (FileExists w name = true <-> exists fi, os.Stat w name = Ok fi)
  /\ (forall err, os.Stat w name = Failure err ->
      os.IsNotExist (Some err) = true -> FileExists w name = false)
  /\ (forall err, os.Stat w name = Failure err ->
      os.IsNotExist (Some err) = false -> FileExists w name = false).
Proof.
  unfold FileExists.
  destruct (os.Stat w name) as [fi|err] eqn:Hs; cbn [errOf].
  - split; [split; eauto|]. split; discriminate.
  - assert (Hf : (if os.IsNotExist (Some err) then false else false) = false)
      by (destruct (os.IsNotExist (Some err)); reflexivity).
    rewrite Hf. split.
    + split; [discriminate|]. intros [fi Hfi]. discriminate.
    + split; reflexivity.
Qed.

Lemma FileExists_iff_stat_succeeds_witness :
  FileExists demo "/a/f.txt" = true
  /\ FileExists demo "/nope" = false
  /\ FileExists demo "/locked/s" = false.
Proof.
  destruct (FileExists_iff_stat_succeeds demo "/a/f.txt") as ([_ Hy] & _).
  destruct (FileExists_iff_stat_succeeds demo "/nope") as (_ & Hn & _).
  destruct (FileExists_iff_stat_succeeds demo "/locked/s") as (_ & _ & Hp).
  split; [apply Hy; eexists; vm_compute; reflexivity|].
  split.
  - apply (Hn (PathError "stat" "/nope" ENOENT)); vm_compute; reflexivity.
  - apply (Hp (PathError "stat" "/locked/s" EACCES)); vm_compute; reflexivity.
Defined.

(** Both kinds of failure occur: a name that is not there, and a file
    that is there but below a directory that cannot be searched. *)
Example FileExists_conflates :
  os.Stat demo "/nope" = Failure (PathError "stat" "/nope" ENOENT)
  /\ FileExists demo "/nope" = false
  /\ os.Stat demo "/locked/s" = Failure (PathError "stat" "/locked/s" EACCES)
  /\ os.lookup demoTree ["locked"; "s"] = Some (os.Regular 420 noon "s")
  /\ FileExists demo "/locked/s" = false.
Proof. repeat split; vm_compute; reflexivity. Qed.

(** ** MkdirAll *)

(** C9 (as amended). When [FileExists] reports true for the cleaned
    path, be it a directory or a regular file, [MkdirAll] returns nil and
    leaves the world untouched: no mkdir is asked of the system. *)
Theorem MkdirAll_existing_is_noop (path : string) (perm : Z) (w : World) :
  FileExists w (cleanPath path) = true ->
  MkdirAll path perm w = (None, w)
  /\ os.calls (snd (MkdirAll path perm w)) = os.calls w.
Proof.
  intros H. unfold MkdirAll. rewrite H. simpl. split; reflexivity.
Qed.

Lemma MkdirAll_existing_is_noop_witness :
  FileExists demo (cleanPath "/a/f.txt") = true
  /\ os.lookup demoTree ["a"; "f.txt"] = Some (os.Regular 420 noon "0123456789")
  /\ MkdirAll "/a/f.txt" 493 demo = (None, demo).
Proof.
  split; [vm_compute; reflexivity|].
  split; [vm_compute; reflexivity|].
  apply (MkdirAll_existing_is_noop "/a/f.txt" 493 demo). vm_compute; reflexivity.
Defined.

(** C9, as stated, fails: [FileExists] reports true for the path [C:d],
    a directory of that name being there, yet [MkdirAll] strips the text
    before the colon and makes the directory [d]. *)
Lemma MkdirAll_colon_path_makes_directory :
  FileExists demo "C:d" = true
  /\ cleanPath "C:d" = "d"
  /\ fst (MkdirAll "C:d" 493 demo) = None
  /\ os.calls (snd (MkdirAll "C:d" 493 demo)) = [os.CallMkdir "d" 493]
  /\ os.lookup demoTree ["home"; "d"] = None
  /\ os.lookup (os.root (snd (MkdirAll "C:d" 493 demo))) ["home"; "d"]
     = Some (os.Directory 493 noon []).
Proof. repeat split; vm_compute; reflexivity. Qed.

(** ** Stat *)

(** C10. The record [Stat] returns has [Exists] set exactly when no
    error is returned: a failing [os.Stat] gives the zero record with the
    error, a successful one a record with [Exists] and the base name of the
    path. *)
Theorem Stat_exists_iff_no_error (w : World) (name : string) :
  let (fi, err) := Stat w name in
  (Exists fi = true <-> err = None)
  /\ (forall e, os.Stat w name = Failure e ->
      fi = zeroFileInfo /\ Exists fi = false /\ err = Some e)
  /\ (forall st, os.Stat w name = Ok st ->
      Exists fi = true /\ Name fi = filepath.Base name /\ err = None).
Proof.
  unfold Stat.
  destruct (os.Stat w name) as [st|e]; simpl.
  - split; [split; reflexivity|]. split; [discriminate|]. now intros.
  - split; [split; discriminate|]. split; [|discriminate].
    intros e' He. inversion He. now subst.
Qed.

Lemma Stat_exists_iff_no_error_witness :
  Name (fst (Stat demo "/a/b/")) = "b"
  /\ Exists (fst (Stat demo "/a/b/")) = true
  /\ Stat demo "/nope" = (zeroFileInfo, Some (PathError "stat" "/nope" ENOENT)).
Proof.
  pose proof (Stat_exists_iff_no_error demo "/a/b/") as Hb.
  pose proof (Stat_exists_iff_no_error demo "/nope") as Hn.
  destruct (Stat demo "/a/b/") as [fb eb].
  destruct (Stat demo "/nope") as [fn en].
  destruct Hb as (_ & _ & Hb). destruct Hn as (_ & Hn & _).
  destruct (Hb (os.infoOf "b" (os.Directory 493 noon [("g.txt", os.Regular 420 noon "g")])))
    as (He & Hname & _); [vm_compute; reflexivity|].
  destruct (Hn (PathError "stat" "/nope" ENOENT)) as (Hz & _ & Herr);
    [vm_compute; reflexivity|].
  simpl. split; [exact Hname|]. split; [exact He|]. now rewrite Hz, Herr.
Defined.

(** ** CopyFile and CopyDir *)

(** A name [os.Stat] reports as not existing cannot be opened either. *)
Lemma Open_not_exist (w : World) (name : string) :
  os.IsNotExist (errOf (os.Stat w name)) = true ->
  os.Open w name = Failure (PathError "open" name ENOENT).
Proof.
  unfold os.Stat, os.statWith, os.Open, os.openat.
  destruct (os.resolve w name true) as [p | parent c | cur t rest | e]; simpl.
  - destruct (os.lookup (os.root w) p); simpl; [discriminate|reflexivity].
  - reflexivity.
  - discriminate.
  - destruct e; simpl; try discriminate. reflexivity.
Qed.

(** C6 (as amended). When the cleaned source path does not exist,
    [CopyFile] fails with the not-found error of the open, and the
    destination is never created: the only calls made are those of the
    log write, and none at all when the debug marker is absent. *)
Theorem CopyFile_missing_source (src dst : string) (w : World) :
  os.IsNotExist (errOf (os.Stat w (cleanPath src))) = true ->
  fst (CopyFile src dst w) = Some (PathError "open" (cleanPath src) ENOENT)
  /\ os.IsNotExist (fst (CopyFile src dst w)) = true
  /\ onlyLogged w (snd (CopyFile src dst w))
  /\ (markerAbsent w = true -> snd (CopyFile src dst w) = w).
Proof.
  intros H. unfold CopyFile. rewrite (Open_not_exist w (cleanPath src) H). simpl.
  repeat split.
  - apply errorPrinter_onlyLogged.
  - apply errorPrinter_absent.
Qed.

Lemma CopyFile_missing_source_witness :
  os.IsNotExist (errOf (os.Stat quiet (cleanPath "nope"))) = true
  /\ fst (CopyFile "nope" "out" quiet) = Some (PathError "open" "nope" ENOENT)
  /\ snd (CopyFile "nope" "out" quiet) = quiet.
Proof.
  split; [vm_compute; reflexivity|].
  destruct (CopyFile_missing_source "nope" "out" quiet) as (He & _ & _ & Hw).
  - vm_compute; reflexivity.
  - split; [exact He|]. apply Hw. vm_compute; reflexivity.
Defined.

(** C6, as stated, fails: no file named [C:x] exists, yet [CopyFile]
    from [C:x] succeeds, because the text before the colon is stripped
    and [x] is copied; the destination is created. *)
Lemma CopyFile_colon_source_is_copied :
  FileExists demo "C:x" = false
  /\ os.IsNotExist (errOf (os.Stat demo "C:x")) = true
  /\ cleanPath "C:x" = "x"
  /\ fst (CopyFile "C:x" "out" demo) = None
  /\ contentAt demoTree ["home"; "out"] = None
  /\ contentAt (os.root (snd (CopyFile "C:x" "out" demo))) ["home"; "out"]
     = Some "hello".
Proof. repeat split; vm_compute; reflexivity. Qed.

(** C5 (as amended). When the cleaned source is a directory and
    [os.Stat] does not report the cleaned destination as absent,
    [CopyDir] fails with "destination already exists" before any mkdir,
    create or copy: the only calls made are those of the log write of
    [errorPrinter], and none at all when the debug marker is absent. *)
Theorem CopyDir_existing_destination (fuel : nat) (src dst : string)
        (w : World) (si : os.FileInfo) :
  os.Stat w (cleanPath src) = Ok si ->
  os.IsDir si = true ->
  os.IsNotExist (errOf (os.Stat w (cleanPath dst))) = false ->
  exists w',
    CopyDir (S fuel) src dst w
    = Some (Some (fmt.Errorf "destination already exists"), w')
    /\ onlyLogged w w'
    /\ (markerAbsent w = true -> w' = w).
Proof.
  intros Hs Hd He. simpl. rewrite Hs, Hd, He. simpl.
  eexists. split; [reflexivity|]. split.
  - apply errorPrinter_onlyLogged.
  - apply errorPrinter_absent.
Qed.

Lemma CopyDir_existing_destination_witness :
  os.IsNotExist (errOf (os.Stat quiet (cleanPath "/t"))) = false
  /\ CopyDir 1 "/a" "/t" quiet
     = Some (Some (errorString "destination already exists"), quiet).
Proof.
  split; [vm_compute; reflexivity|].
  destruct (CopyDir_existing_destination 0 "/a" "/t" quiet
              (os.infoOf "a" (os.Directory 493 noon
                 [("f.txt", os.Regular 420 noon "0123456789");
                  ("b", os.Directory 493 noon [("g.txt", os.Regular 420 noon "g")])])))
    as (w' & Hc & _ & Hw).
  - vm_compute; reflexivity.
  - reflexivity.
  - vm_compute; reflexivity.
  - rewrite Hc. rewrite (Hw eq_refl). reflexivity.
Defined.

(** C5, as stated, fails twice over. With the debug marker present the
    failing [CopyDir] creates the log file and writes a line to it; and
    for the existing destination [C:d] the text before the colon is
    stripped, [d] is not there, and the copy goes ahead. *)
Lemma CopyDir_existing_destination_mutates :
  (FileExists demo "/t" = true
   /\ option_map fst (CopyDir 3 "/a" "/t" demo)
      = Some (Some (errorString "destination already exists"))
   /\ contentAt demoTree ["home"; "GMSFS.20240307_1200.log"] = None
   /\ option_map (fun r => contentAt (os.root (snd r)) ["home"; "GMSFS.20240307_1200.log"])
        (CopyDir 3 "/a" "/t" demo)
      = Some (Some (logLine "CopyDir: File already exist" demo)))
  /\ (FileExists demo "C:d" = true
      /\ option_map fst (CopyDir 3 "/a" "C:d" demo) = Some None
      /\ option_map (fun r => contentAt (os.root (snd r)) ["home"; "d"; "f.txt"])
           (CopyDir 3 "/a" "C:d" demo)
         = Some (Some "0123456789")).
Proof. repeat split; vm_compute; reflexivity. Qed.

(** ** ReadDir and ListFS *)

Lemma insert_map {A B : Type} (f : A -> B) (lessA : A -> A -> bool)
      (lessB : B -> B -> bool) :
  (forall a b, lessB (f a) (f b) = lessA a b) ->
  forall x l, sort.insert lessB (f x) (map f l) = map f (sort.insert lessA x l).
Proof.
  intros Hless x l. induction l as [|y l IH]; simpl; [reflexivity|].
  rewrite Hless. destruct (lessA x y); simpl; [reflexivity|now rewrite IH].
Qed.

Lemma Slice_map {A B : Type} (f : A -> B) (lessA : A -> A -> bool)
      (lessB : B -> B -> bool) :
  (forall a b, lessB (f a) (f b) = lessA a b) ->
  forall l, sort.Slice lessB (map f l) = map f (sort.Slice lessA l).
Proof.
  intros Hless l. unfold sort.Slice.
  change (@nil B) with (map f []). generalize (@nil A).
  induction l as [|x l IH]; intros acc; simpl; [reflexivity|].
  rewrite (insert_map f lessA lessB Hless). apply IH.
Qed.

Lemma lookup_entry_In (k : string) (n : os.node) (es : list (string * os.node)) :
  NoDup (map fst es) -> In (k, n) es -> os.lookup_entry k es = Some n.
Proof.
  induction es as [|[k' n'] es IH]; simpl; intros Hnd Hin; [contradiction|].
  apply NoDup_cons_iff in Hnd. destruct Hnd as [Hnin Hnd].
  destruct Hin as [Heq|Hin].
  - inversion Heq; subst. now rewrite String.eqb_refl.
  - destruct (k' =? k) eqn:E.
    + apply String.eqb_eq in E. subst k'. exfalso. apply Hnin.
      change k with (fst (k, n)). now apply in_map.
    + now apply IH.
Qed.

Lemma readDirLoop_entries (w : World) (dir : string) (p : list string) pm mt
      (es : list (string * os.node)) :
  os.lookup (os.root w) p = Some (os.Directory pm mt es) ->
  os.canSearch pm = true ->
  forall l acc,
    (forall kn, In kn l -> os.lookup_entry (fst kn) es = Some (snd kn)) ->
    readDirLoop w
      (map (fun kn => os.mkDirEntry dir p (fst kn) (os.typeOf (snd kn))) l) acc
    = ((acc ++ map childInfo l)%list, None).
Proof.
  intros Hp Hs l. induction l as [|[k n] l IH]; intros acc Hl; simpl.
  - now rewrite app_nil_r.
  - unfold os.entryInfo. simpl. rewrite Hp, Hs. simpl.
    pose proof (Hl (k, n) (or_introl eq_refl)) as Hk. simpl in Hk.
    rewrite Hk. simpl.
    rewrite IH by (intros kn Hin; apply Hl; now right).
    now rewrite <- app_assoc.
Qed.

(** What [ReadDir] returns for a directory that can be listed. *)
Lemma ReadDir_listable (w : World) (dirName : string) (es : list (string * os.node)) :
  listable w dirName es -> NoDup (map fst es) ->
  ReadDir w dirName = (map childInfo (sort.Slice byName es), None).
Proof.
  intros (f & pm & mt & Ho & Hl & Hs) Hnd.
  unfold ReadDir, os.FileReadDir. rewrite Ho, Hl.
  rewrite (Slice_map
             (fun kn => os.mkDirEntry (os.fileName f) (os.filePath f) (fst kn)
                          (os.typeOf (snd kn)))
             byName entryLess) by reflexivity.
  rewrite (readDirLoop_entries w (os.fileName f) (os.filePath f) pm mt es Hl Hs);
    [reflexivity|].
  intros [k n] Hin. simpl. apply lookup_entry_In; [exact Hnd|].
  eapply Permutation_in; [apply (Slice_perm fst)|exact Hin].
Qed.

Lemma listable_opensDir (w : World) (dirName : string) (es : list (string * os.node)) :
  listable w dirName es -> opensDir w dirName es.
Proof. intros (f & pm & mt & Ho & Hl & _). now exists f, pm, mt. Qed.

(** In a directory without search permission the first [Info()] fails,
    and with it the whole listing. *)
Lemma readDirLoop_unsearchable (w : World) (d : os.DirEntry) pm mt es
      (rest : list os.DirEntry) (acc : list FileInfo) :
  os.lookup (os.root w) (os.entryParent d) = Some (os.Directory pm mt es) ->
  os.canSearch pm = false ->
  readDirLoop w (d :: rest) acc
  = ([], Some (PathError "lstat" (os.entryDir d ++ "/" ++ os.entryName d) EACCES)).
Proof.
  intros Hl Hs. simpl. unfold os.entryInfo. now rewrite Hl, Hs.
Qed.

Lemma infoOf_IsDir (name : string) (n : os.node) :
  os.IsDir (os.infoOf name n) = isDirectory n.
Proof. now destruct n. Qed.

Lemma infoOf_Name (name : string) (n : os.node) :
  os.Name (os.infoOf name n) = name.
Proof. now destruct n. Qed.

Arguments os.infoOf : simpl never.

Lemma opensDir_Stat (w : World) (dirName : string) (es : list (string * os.node)) :
  opensDir w dirName es ->
  exists st, os.Stat w dirName = Ok st /\ os.IsDir st = true.
Proof.
  intros (f & pm & mt & Ho & Hl). revert Ho.
  unfold os.Open, os.openat, os.Stat, os.statWith.
  destruct (os.resolve w dirName true) as [p | parent c | cur t rest | e]; simpl;
    try (intros Ho; discriminate Ho).
  destruct (os.lookup (os.root w) p) as [[pm' mt' d | pm' mt' es' |]|] eqn:Hp;
    simpl; try (intros Ho; discriminate Ho).
  - destruct (os.canRead pm'); simpl; intros Ho; [|discriminate Ho].
    inversion Ho; subst f. simpl in Hl. congruence.
  - intros _. eexists. split; [reflexivity|apply infoOf_IsDir].
Qed.

Lemma listLoop_map (objs : list FileInfo) (acc : list string) :
  listLoop objs acc = (acc ++ map listedName objs)%list.
Proof.
  unfold listLoop. revert acc.
  induction objs as [|fi objs IH]; intros acc; simpl; [now rewrite app_nil_r|].
  rewrite IH. unfold listedName at 2.
  destruct (IsDir fi); now rewrite <- app_assoc.
Qed.






Lemma demo_lists_a :
  listable demo "/a"
    [("f.txt", os.Regular 420 noon "0123456789");
     ("b", os.Directory 493 noon [("g.txt", os.Regular 420 noon "g")])].
Proof.
  exists (os.mkFile "/a" ["a"] os.O_RDONLY), 493%Z, noon.
  split; [|split]; vm_compute; reflexivity.
Qed.


Lemma os_Open_fileName (w : World) (name : string) (f : os.File) :
  os.Open w name = Ok f -> os.fileName f = name.
Proof.
  unfold os.Open, os.openat.
  destruct (os.resolve w name true) as [p | | |]; try discriminate.
  destruct (os.lookup (os.root w) p) as [[pm mt d | pm mt es |]|]; try discriminate.
  - destruct (_ && _); [|discriminate]. intros H. now inversion H.
  - destruct (os.wantsWrite os.O_RDONLY || os.hasFlag os.O_RDONLY os.O_CREATE);
      [discriminate|].
    destruct (os.canRead pm); [|discriminate]. intros H. now inversion H.
Qed.

(** A directory that opens but cannot be searched: unless it is empty,
    [ReadDir] fails at the first [Info()], on the least of the names, and
    returns no record at all. *)
Lemma ReadDir_unsearchable (w : World) (dirName : string) (f : os.File) pm mt
      (es : list (string * os.node)) :
  os.Open w dirName = Ok f ->
  os.lookup (os.root w) (os.filePath f) = Some (os.Directory pm mt es) ->
  os.canSearch pm = false ->
  es <> [] ->
  exists k,
    In k (map fst es)
    /\ ReadDir w dirName = ([], Some (PathError "lstat" (dirName ++ "/" ++ k) EACCES)).
Proof.
  intros Ho Hl Hs Hne.
  unfold ReadDir, os.FileReadDir. rewrite Ho, Hl.
  rewrite (os_Open_fileName _ _ _ Ho).
  rewrite (Slice_map
             (fun kn => os.mkDirEntry dirName (os.filePath f) (fst kn)
                          (os.typeOf (snd kn)))
             byName entryLess) by reflexivity.
  pose proof (Slice_perm fst es) as HP. fold byName in HP.
  destruct (sort.Slice byName es) as [|[k n] rest] eqn:E.
  - apply Permutation_nil in HP. contradiction.
  - exists k. split.
    + change k with (fst (k, n)). apply in_map.
      eapply Permutation_in; [exact HP|now left].
    + cbn [map]. now rewrite (readDirLoop_unsearchable w _ pm mt es).
Qed.

(** C7 (as amended). For a path that exists and is not a directory
    [ListFS] returns the empty list, and no error; for a directory that
    can be listed (it opens for reading and its entries can be looked
    up) it returns one name per immediate child, in ascending order of
    the names, a subdirectory's name behind a star and every other name
    as it is, and the world is left as it was. For a directory that
    opens but cannot be searched and is not empty it returns the empty
    list, and the error of the listing goes to the log only. *)
Theorem ListFS_lists_names (w : World) (path : string) :
  (forall fi, Stat w path = (fi, None) -> IsDir fi = false ->
     ListFS path w = ([], w))
  /\ (forall es, listable w path es -> NoDup (map fst es) ->
        ListFS path w
        = (map (fun kn => if isDirectory (snd kn) then "*" ++ fst kn else fst kn)
               (sort.Slice byName es), w)
        /\ length (fst (ListFS path w)) = length es)
  /\ (forall f pm mt es,
        os.Open w path = Ok f ->
        os.lookup (os.root w) (os.filePath f) = Some (os.Directory pm mt es) ->
        os.canSearch pm = false ->
        es <> [] ->
        fst (ListFS path w) = []
        /\ onlyLogged w (snd (ListFS path w))
        /\ (markerAbsent w = true -> snd (ListFS path w) = w)).
Proof.
  split; [|split].
  - intros fi Hs Hd. unfold ListFS. now rewrite Hs, Hd.
  - intros es Ho Hnd.
    assert (E : ListFS path w
                = (map (fun kn => if isDirectory (snd kn) then "*" ++ fst kn else fst kn)
                       (sort.Slice byName es), w)).
    { destruct (opensDir_Stat w path es (listable_opensDir _ _ _ Ho)) as (st & Hs & Hd).
      unfold ListFS, Stat. rewrite Hs. cbn [IsDir]. rewrite Hd. cbn [negb].
      rewrite (ReadDir_listable w path es Ho Hnd), listLoop_map. simpl.
      rewrite map_map. f_equal. apply map_ext. intros [k n].
      unfold listedName, childInfo, fromInfo. simpl.
      now rewrite infoOf_IsDir, infoOf_Name. }
    split; [exact E|].
    rewrite E. simpl. rewrite length_map.
    apply Permutation_length, (Slice_perm fst).
  - intros f pm mt es Ho Hl Hs Hne.
    assert (Hod : opensDir w path es) by (now exists f, pm, mt).
    destruct (opensDir_Stat w path es Hod) as (st & Hst & Hd).
    destruct (ReadDir_unsearchable w path f pm mt es Ho Hl Hs Hne) as (k & _ & Hr).
    unfold ListFS, Stat. rewrite Hst. cbn [IsDir]. rewrite Hd. cbn [negb].
    rewrite Hr. cbn [fst snd].
    split; [reflexivity|]. split; [apply errorPrinter_onlyLogged|].
    apply errorPrinter_absent.
Qed.

Lemma ListFS_lists_names_witness :
  ListFS "/a/f.txt" demo = ([], demo)
  /\ ListFS "/a" demo = (["*b"; "f.txt"], demo)
  /\ ListFS "/r" sealed = ([], sealed).
Proof.
  destruct (ListFS_lists_names demo "/a/f.txt") as [Hfile _].
  destruct (ListFS_lists_names demo "/a") as (_ & Hdir & _).
  destruct (ListFS_lists_names sealed "/r") as (_ & _ & Hsealed).
  split; [|split].
  - apply (Hfile (fst (Stat demo "/a/f.txt"))); vm_compute; reflexivity.
  - destruct (Hdir _ demo_lists_a) as [E _].
    + repeat constructor; simpl; intuition discriminate.
    + rewrite E. vm_compute. reflexivity.
  - destruct (Hsealed (os.mkFile "/r" ["r"] os.O_RDONLY) 292%Z noon
                [("k", os.Regular 420 noon "k")]) as (Hf & _ & Hw);
      [vm_compute; reflexivity|vm_compute; reflexivity|vm_compute; reflexivity
      |discriminate|].
    specialize (Hw eq_refl).
    destruct (ListFS "/r" sealed) as [l w']. simpl in Hf, Hw. now subst.
Defined.

(** C7, as stated, fails: the directory [/r] of the sealed world is
    readable, it opens and reading its entries gives the name of its one
    child, and [ListFS] names no child at all, because [ReadDir] cannot
    stat the entry. *)
Lemma ListFS_readable_directory_unlisted :
  os.Open sealed "/r" = Ok (os.mkFile "/r" ["r"] os.O_RDONLY)
  /\ os.FileReadDir sealed (os.mkFile "/r" ["r"] os.O_RDONLY)
     = Ok [os.mkDirEntry "/r" ["r"] "k" 0]
  /\ ReadDir sealed "/r" = ([], Some (PathError "lstat" "/r/k" EACCES))
  /\ ListFS "/r" sealed = ([], sealed).
Proof. repeat split; vm_compute; reflexivity. Qed.

(** ** Walking a path of plain names *)

Lemma walk_descends (r : os.node) (follow : bool) (cur comps : list string) :
  descends r cur comps -> os.walk r cur comps follow = os.Found (cur ++ comps).
Proof.
  induction 1 as [cur | cur c rest pm mt es n Hl Hs Hp He Hn Hd IH]; simpl.
  - now rewrite app_nil_r.
  - rewrite Hl, Hs. unfold plain in Hp.
    destruct (c =? ""); [discriminate|].
    destruct (c =? "."); [discriminate|].
    destruct (c =? ".."); [discriminate|]. simpl.
    rewrite He. rewrite <- app_assoc in IH. simpl in IH.
    destruct n; try exact IH. discriminate.
Qed.

(** An absolute path of plain names resolves to those names. *)
Lemma resolve_rooted (w : World) (name : string) (comps : list string)
      (follow : bool) pm mt es :
  (name =? "") = false ->
  strings.Split "/" name = "" :: comps ->
  os.root w = os.Directory pm mt es ->
  descends (os.root w) [] comps ->
  os.resolve w name follow = os.Found comps.
Proof.
  intros Hne Hsplit Hroot Hd. unfold os.resolve. rewrite Hne.
  destruct name as [|c name]; [discriminate|].
  assert (Hr : filepath.rooted (String c name) = true).
  { simpl in Hsplit |- *. unfold filepath.Separator.
    destruct (Ascii.eqb c "/") eqn:E; [reflexivity|].
    destruct (strings.Split "/" name); discriminate Hsplit. }
  rewrite Hr, Hsplit. unfold os.maxSymlinks. simpl.
  rewrite Hroot. simpl. rewrite <- Hroot.
  now rewrite (walk_descends _ follow [] comps Hd).
Qed.

Lemma Stat_found (w : World) (name : string) (p : list string) (n : os.node) :
  os.resolve w name true = os.Found p ->
  os.lookup (os.root w) p = Some n ->
  Stat w name
  = (mkFileInfo true (os.Size (os.infoOf (filepath.Base name) n))
                (os.Mode (os.infoOf (filepath.Base name) n))
                (os.ModTime (os.infoOf (filepath.Base name) n))
                (isDirectory n) [] (filepath.Base name), None).
Proof.
  intros Hr Hl. unfold Stat, os.Stat, os.statWith. rewrite Hr, Hl.
  now rewrite infoOf_IsDir.
Qed.

Lemma opensDir_found (w : World) (name : string) (p : list string) pm mt es :
  os.resolve w name true = os.Found p ->
  os.lookup (os.root w) p = Some (os.Directory pm mt es) ->
  os.canRead pm = true ->
  opensDir w name es.
Proof.
  intros Hr Hl Hc. exists (os.mkFile name p os.O_RDONLY), pm, mt.
  split; [|exact Hl].
  unfold os.Open, os.openat. rewrite Hr, Hl. simpl. now rewrite Hc.
Qed.

Lemma listable_found (w : World) (name : string) (p : list string) pm mt es :
  os.resolve w name true = os.Found p ->
  os.lookup (os.root w) p = Some (os.Directory pm mt es) ->
  os.canSearch pm = true ->
  os.canRead pm = true ->
  listable w name es.
Proof.
  intros Hr Hl Hs Hc. exists (os.mkFile name p os.O_RDONLY), pm, mt.
  split; [|split; [exact Hl|exact Hs]].
  unfold os.Open, os.openat. rewrite Hr, Hl. simpl. now rewrite Hc.
Qed.

(** ** RecurseFS on the example of the specification *)

Lemma RecurseFS_unfold (k : nat) (path : string) (w : World) :
  RecurseFS (S k) path w =
  let '(stat, err) := Stat w path in
  match err with
  | Some _ => Some ([], w)
  | None =>
      let '(temp, err) := ReadDir w path in
      match err with
      | Some _ => Some ([], w)
      | None =>
          let '(files, w) :=
            if IsDir stat then statLoop path temp [] w else ([], w) in
          emitLoop (RecurseFS k) path files [] w
      end
  end.
Proof. reflexivity. Qed.

Section ExampleTree.

(** A world whose root holds a directory [a] with the regular file
    [f.txt] and the directory [b], itself holding the regular file
    [g.txt]; the directories can be searched and read. Everything else
    is arbitrary: the rest of the root, the order in which [a] is
    enumerated, permissions, times and contents of the files, the
    working directory, the debug marker. *)
Variables (w : World) (pr pa pb pf pg : Z) (tr ta tb tf tg : time.Time)
          (df dg : string) (res esA : list (string * os.node)).

Let nodeB : os.node := os.Directory pb tb [("g.txt", os.Regular pg tg dg)].
Let nodeF : os.node := os.Regular pf tf df.

Hypothesis Hroot : os.root w = os.Directory pr tr res.
Hypothesis Hpr : os.canSearch pr = true.
Hypothesis Ha : os.lookup_entry "a" res = Some (os.Directory pa ta esA).
Hypothesis Hpa : os.canSearch pa = true /\ os.canRead pa = true.
Hypothesis HesA : Permutation esA [("f.txt", nodeF); ("b", nodeB)].
Hypothesis Hpb : os.canSearch pb = true /\ os.canRead pb = true.

Lemma example_NoDup : NoDup (map fst esA).
Proof.
  eapply Permutation_NoDup; [apply Permutation_map; symmetry; exact HesA|].
  repeat constructor; simpl; intuition discriminate.
Qed.

Lemma example_entry (k : string) (n : os.node) :
  In (k, n) [("f.txt", nodeF); ("b", nodeB)] -> os.lookup_entry k esA = Some n.
Proof.
  intros Hin. apply lookup_entry_In; [apply example_NoDup|].
  eapply Permutation_in; [symmetry; exact HesA|exact Hin].
Qed.

Lemma example_lookup_a : os.lookup (os.root w) ["a"] = Some (os.Directory pa ta esA).
Proof. rewrite Hroot. simpl. now rewrite Ha. Qed.

Lemma example_lookup_b : os.lookup (os.root w) ["a"; "b"] = Some nodeB.
Proof.
  change ["a"; "b"] with (["a"] ++ ["b"])%list.
  rewrite lookup_app, example_lookup_a. simpl.
  rewrite (example_entry "b" nodeB); [reflexivity|simpl; auto].
Qed.

Lemma example_lookup_f : os.lookup (os.root w) ["a"; "f.txt"] = Some nodeF.
Proof.
  change ["a"; "f.txt"] with (["a"] ++ ["f.txt"])%list.
  rewrite lookup_app, example_lookup_a. simpl.
  rewrite (example_entry "f.txt" nodeF); [reflexivity|simpl; auto].
Qed.

Lemma example_lookup_g :
  os.lookup (os.root w) ["a"; "b"; "g.txt"] = Some (os.Regular pg tg dg).
Proof.
  change ["a"; "b"; "g.txt"] with (["a"; "b"] ++ ["g.txt"])%list.
  now rewrite lookup_app, example_lookup_b.
Qed.

Lemma example_descends_a : descends (os.root w) [] ["a"].
Proof.
  eapply descends_cons; try reflexivity; try eassumption.
  - rewrite Hroot. reflexivity.
  - reflexivity.
  - constructor.
Qed.

Lemma example_descends_b (rest : list string) :
  descends (os.root w) ["a"; "b"] rest -> descends (os.root w) [] ("a" :: "b" :: rest).
Proof.
  intros Hd.
  eapply descends_cons; try reflexivity; try eassumption.
  - rewrite Hroot. reflexivity.
  - reflexivity.
  - eapply descends_cons; try reflexivity.
    + apply example_lookup_a.
    + apply Hpa.
    + apply (example_entry "b" nodeB). simpl; auto.
    + reflexivity.
    + exact Hd.
Qed.

Lemma example_descends_f : descends (os.root w) [] ["a"; "f.txt"].
Proof.
  eapply descends_cons; try reflexivity; try eassumption.
  - rewrite Hroot. reflexivity.
  - reflexivity.
  - eapply descends_cons; try reflexivity.
    + apply example_lookup_a.
    + apply Hpa.
    + apply (example_entry "f.txt" nodeF). simpl; auto.
    + reflexivity.
    + constructor.
Qed.

Lemma example_descends_g : descends (os.root w) [] ["a"; "b"; "g.txt"].
Proof.
  apply example_descends_b.
  eapply descends_cons; try reflexivity.
  - apply example_lookup_b.
  - apply Hpb.
  - reflexivity.
  - reflexivity.
  - constructor.
Qed.

Lemma example_resolve (name : string) (comps : list string) :
  (name =? "") = false ->
  strings.Split "/" name = "" :: comps ->
  descends (os.root w) [] comps ->
  os.resolve w name true = os.Found comps.
Proof. intros Hne Hs Hd. eapply resolve_rooted; eauto. Qed.

Lemma example_sorted : sort.Slice byName esA = [("b", nodeB); ("f.txt", nodeF)].
Proof.
  unfold byName.
  rewrite (Slice_order_independent fst esA _ example_NoDup HesA).
  reflexivity.
Qed.

Lemma example_ReadDir_a :
  ReadDir w "/a" = ([childInfo ("b", nodeB); childInfo ("f.txt", nodeF)], None).
Proof.
  rewrite (ReadDir_listable w "/a" esA).
  - now rewrite example_sorted.
  - eapply listable_found; [|apply example_lookup_a|apply Hpa|apply Hpa].
    apply example_resolve; [reflexivity|reflexivity|apply example_descends_a].
  - apply example_NoDup.
Qed.

Lemma example_ReadDir_b :
  ReadDir w "/a/b" = ([childInfo ("g.txt", os.Regular pg tg dg)], None).
Proof.
  rewrite (ReadDir_listable w "/a/b" [("g.txt", os.Regular pg tg dg)]).
  - reflexivity.
  - eapply listable_found; [|apply example_lookup_b|apply Hpb|apply Hpb].
    apply example_resolve; [reflexivity|reflexivity|].
    apply example_descends_b. constructor.
  - repeat constructor. simpl. intuition.
Qed.

(** C2. In such a world [RecurseFS("/a")] returns exactly the
    directory [b] behind a star, then its file, then the file of [a],
    whatever fuel of at least two levels the recursion is given; the
    world is left as it was. *)
Theorem RecurseFS_example (k : nat) :
  RecurseFS (S (S k)) "/a" w
  = Some (["*/a/b"; "/a/b/g.txt"; "/a/f.txt"], w).
Proof.
  rewrite RecurseFS_unfold.
  rewrite (Stat_found w "/a" ["a"] _
             (example_resolve "/a" ["a"] eq_refl eq_refl example_descends_a)
             example_lookup_a).
  cbn [isDirectory IsDir]. rewrite example_ReadDir_a.
  cbn [statLoop childInfo fromInfo Name fst snd]. rewrite !infoOf_Name.
  change (filepath.Join ["/a"; "b"]) with "/a/b".
  change (filepath.Join ["/a"; "f.txt"]) with "/a/f.txt".
  rewrite (Stat_found w "/a/b" ["a"; "b"] _
             (example_resolve "/a/b" ["a"; "b"] eq_refl eq_refl
                (example_descends_b [] (descends_nil _ _)))
             example_lookup_b).
  rewrite (Stat_found w "/a/f.txt" ["a"; "f.txt"] _
             (example_resolve "/a/f.txt" ["a"; "f.txt"] eq_refl eq_refl
                example_descends_f)
             example_lookup_f).
  cbn [app emitLoop IsDir Name isDirectory nodeB nodeF].
  change (filepath.Base "/a/b") with "b".
  change (filepath.Base "/a/f.txt") with "f.txt".
  change ("/a" ++ "/" ++ "b") with "/a/b".
  change ("/a" ++ "/" ++ "f.txt") with "/a/f.txt".
  rewrite RecurseFS_unfold.
  rewrite (Stat_found w "/a/b" ["a"; "b"] _
             (example_resolve "/a/b" ["a"; "b"] eq_refl eq_refl
                (example_descends_b [] (descends_nil _ _)))
             example_lookup_b).
  cbn [isDirectory IsDir nodeB]. rewrite example_ReadDir_b.
  cbn [statLoop childInfo fromInfo Name fst snd]. rewrite !infoOf_Name.
  change (filepath.Join ["/a/b"; "g.txt"]) with "/a/b/g.txt".
  rewrite (Stat_found w "/a/b/g.txt" ["a"; "b"; "g.txt"] _
             (example_resolve "/a/b/g.txt" ["a"; "b"; "g.txt"] eq_refl eq_refl
                example_descends_g)
             example_lookup_g).
  cbn [app emitLoop IsDir Name isDirectory].
  change (filepath.Base "/a/b/g.txt") with "g.txt".
  reflexivity.
Qed.

End ExampleTree.

Lemma RecurseFS_example_witness :
  RecurseFS 2 "/a" demo = Some (["*/a/b"; "/a/b/g.txt"; "/a/f.txt"], demo)
  /\ RecurseFS 7 "/a" quiet = Some (["*/a/b"; "/a/b/g.txt"; "/a/f.txt"], quiet).
Proof.
  split.
  - apply (RecurseFS_example demo 493 493 493 420 420 noon noon noon noon noon
             "0123456789" "g" _ _ eq_refl eq_refl eq_refl (conj eq_refl eq_refl)
             (Permutation_refl _) (conj eq_refl eq_refl) 0).
  - apply (RecurseFS_example quiet 493 493 493 420 420 noon noon noon noon noon
             "0123456789" "g" _ _ eq_refl eq_refl eq_refl (conj eq_refl eq_refl)
             (Permutation_refl _) (conj eq_refl eq_refl) 5).
Defined.

(** ** RecurseFS when something fails *)




(** ** The path given to errorPrinter *)

(** [errorPrinter] never reads its second argument: the path a caller
    hands over reaches the log only where the caller's text already
    names it. *)
Theorem errorPrinter_ignores_object (log object object' : string) (w : World) :
  errorPrinter log object w = errorPrinter log object' w.
Proof. now rewrite !errorPrinter_eq. Qed.

(** The line [CopyDir] logs for an existing destination does not name
    the destination. *)
Example CopyDir_log_line_without_path :
  logLine "CopyDir: File already exist" demo
  = "CopyDir: File already exist stacktrace:  (2):main.main file: /src/main.go line: 12"
      ++ CRLF
  /\ strings.Contains (logLine "CopyDir: File already exist" demo) "/t" = false.
Proof. split; vm_compute; reflexivity. Qed.

(* ================================================================== *)
(** * Further properties of the package *)

(** ** Resolution in a tree that has grown *)

Lemma alike_refl (n : os.node) : alike n n.
Proof. now destruct n. Qed.

Lemma alike_trans (a b c : os.node) : alike a b -> alike b c -> alike a c.
Proof. destruct a, b, c; simpl; intuition congruence. Qed.

Lemma grows_refl (r : os.node) : grows r r.
Proof. intros p n H. exists n. split; [exact H|apply alike_refl]. Qed.

Lemma grows_trans (a b c : os.node) : grows a b -> grows b c -> grows a c.
Proof.
  intros Hab Hbc p n H.
  destruct (Hab p n H) as (n1 & H1 & A1).
  destruct (Hbc p n1 H1) as (n2 & H2 & A2).
  exists n2. split; [exact H2|]. eapply alike_trans; eassumption.
Qed.

Lemma lookup_entry_other (c k : string) (g : os.node -> os.node)
      (es : list (string * os.node)) :
  (c =? k) = false ->
  os.lookup_entry k
    (map (fun kn => if fst kn =? c then (fst kn, g (snd kn)) else kn) es)
  = os.lookup_entry k es.
Proof.
  intros Hne. induction es as [|[k' n] es IH]; simpl; [reflexivity|].
  destruct (k' =? c) eqn:E; simpl.
  - apply String.eqb_eq in E. subst k'. rewrite Hne. exact IH.
  - destruct (k' =? k); [reflexivity|exact IH].
Qed.

(** Changing the node at [p] into one that has all it had keeps the
    whole tree growing. *)
Lemma grows_modify (f : os.node -> os.node) (p : list string) :
  forall r n0,
    os.lookup r p = Some n0 -> grows n0 (f n0) -> grows r (os.modify p f r).
Proof.
  induction p as [|c p IH]; intros r n0 Hl Hf; simpl in *.
  - inversion Hl; subst. exact Hf.
  - destruct r as [| pm mt es |]; try discriminate.
    destruct (os.lookup_entry c es) as [m|] eqn:Hc; [|discriminate].
    intros q n Hq. destruct q as [|k q]; simpl in *.
    + inversion Hq; subst. eexists. split; [reflexivity|reflexivity].
    + destruct (c =? k) eqn:E.
      * apply String.eqb_eq in E. subst k. rewrite lookup_entry_modified, Hc.
        rewrite Hc in Hq. simpl. exact (IH m n0 Hl Hf q n Hq).
      * rewrite (lookup_entry_other c k _ es E).
        destruct (os.lookup_entry k es) as [m'|]; [|discriminate].
        exists n. split; [exact Hq|apply alike_refl].
Qed.

Lemma lookup_entry_app (k : string) (es extra : list (string * os.node)) (n : os.node) :
  os.lookup_entry k es = Some n -> os.lookup_entry k (es ++ extra) = Some n.
Proof.
  induction es as [|[k' n'] es IH]; simpl; [discriminate|].
  destruct (k' =? k); [auto|exact IH].
Qed.

Lemma grows_addEntry (t : time.Time) (c : string) (new n0 : os.node) :
  grows n0 (os.addEntry t c new n0).
Proof.
  destruct n0 as [| pm mt es |]; try apply grows_refl.
  intros q n Hq. destruct q as [|k q]; simpl in *.
  - inversion Hq; subst. eexists. split; reflexivity.
  - destruct (os.lookup_entry k es) as [m|] eqn:Hk; [|discriminate].
    rewrite (lookup_entry_app k es _ m Hk).
    exists n. split; [exact Hq|apply alike_refl].
Qed.

Lemma grows_regular (pm pm' : Z) (mt mt' : time.Time) (d d' : string) :
  grows (os.Regular pm mt d) (os.Regular pm' mt' d').
Proof.
  intros q n Hq. destruct q as [|k q]; simpl in *; [|discriminate].
  inversion Hq; subst. eexists. split; reflexivity.
Qed.

Lemma lookup_child (r : os.node) (cur : list string) (c : string) pm mt es :
  os.lookup r cur = Some (os.Directory pm mt es) ->
  os.lookup r (cur ++ [c]) = os.lookup_entry c es.
Proof.
  intros H. rewrite lookup_app, H. simpl.
  now destruct (os.lookup_entry c es).
Qed.

(** What a walk found or was sent on by, it finds again in a tree that
    has grown. *)
Lemma walk_grows (r r' : os.node) (follow : bool) :
  grows r r' ->
  forall comps cur,
    match os.walk r cur comps follow with
    | os.Found p => os.walk r' cur comps follow = os.Found p
    | os.Link a t rest => os.walk r' cur comps follow = os.Link a t rest
    | _ => True
    end.
Proof.
  intros Hg comps. induction comps as [|c rest IH]; intros cur; simpl; [reflexivity|].
  destruct (os.lookup r cur) as [[| pm mt es |]|] eqn:Hl; try exact I.
  destruct (Hg cur _ Hl) as (n' & Hl' & A).
  destruct n' as [| pm' mt' es' |]; simpl in A; try contradiction. subst pm'.
  rewrite Hl'.
  destruct (c =? ""); [apply IH|].
  destruct (negb (os.canSearch pm)); [exact I|].
  destruct (c =? "."); [apply IH|].
  destruct (c =? ".."); [apply IH|].
  destruct (os.lookup_entry c es) as [m|] eqn:Hc.
  - assert (Hm : os.lookup r (cur ++ [c]) = Some m)
      by (rewrite (lookup_child r cur c pm mt es Hl); exact Hc).
    destruct (Hg _ _ Hm) as (m' & Hm' & Am).
    rewrite (lookup_child r' cur c pm mt' es' Hl') in Hm'. rewrite Hm'.
    destruct m, m'; simpl in Am; try contradiction; try apply IH.
    subst. destruct rest, follow; reflexivity.
  - destruct rest; exact I.
Qed.

Lemma resolveFrom_grows (r r' : os.node) (follow : bool) (p : list string) :
  grows r r' ->
  forall budget cur comps,
    os.resolveFrom budget r cur comps follow = os.Found p ->
    os.resolveFrom budget r' cur comps follow = os.Found p.
Proof.
  intros Hg budget. induction budget as [|k IH]; intros cur comps; simpl;
    pose proof (walk_grows r r' follow Hg comps cur) as Hw;
    destruct (os.walk r cur comps follow) eqn:E; try discriminate;
    rewrite Hw; auto.
  destruct (target =? ""); [discriminate|]. apply IH.
Qed.

(** A name that resolved resolves to the same place once the tree has
    grown. *)
Lemma resolve_grows (w w' : World) (name : string) (follow : bool) (p : list string) :
  grows (os.root w) (os.root w') ->
  os.cwd w' = os.cwd w ->
  os.resolve w name follow = os.Found p ->
  os.resolve w' name follow = os.Found p.
Proof.
  intros Hg Hc. unfold os.resolve. rewrite Hc.
  destruct (name =? ""); [discriminate|]. now apply resolveFrom_grows.
Qed.

(** A name whose last element was missing resolves to the new entry
    once that entry has been made. *)
Lemma walk_created (r : os.node) (follow : bool) (parent : list string) (c : string)
      (t : time.Time) (new : os.node) pm mt es :
  os.lookup r parent = Some (os.Directory pm mt es) ->
  notSymlink new = true ->
  forall comps cur,
    os.walk r cur comps follow = os.Missing parent c ->
    os.walk (os.modify parent (os.addEntry t c new) r) cur comps follow
    = os.Found (parent ++ [c]).
Proof.
  intros Hp Hnew.
  set (r' := os.modify parent (os.addEntry t c new) r).
  assert (Hg : grows r r')
    by (eapply grows_modify; [exact Hp|apply grows_addEntry]).
  assert (Hp' : os.lookup r' parent = Some (os.Directory pm t (es ++ [(c, new)])))
    by (unfold r'; rewrite lookup_modify, Hp; reflexivity).
  intros comps. induction comps as [|c0 rest IH]; intros cur; simpl; [discriminate|].
  destruct (os.lookup r cur) as [[| pm0 mt0 es0 |]|] eqn:Hl; try discriminate.
  destruct (Hg cur _ Hl) as (n' & Hl' & A).
  destruct n' as [| pm' mt' es' |]; simpl in A; try contradiction. subst pm'.
  rewrite Hl'.
  destruct (c0 =? ""); [apply IH|].
  destruct (negb (os.canSearch pm0)); [discriminate|].
  destruct (c0 =? "."); [apply IH|].
  destruct (c0 =? ".."); [apply IH|].
  destruct (os.lookup_entry c0 es0) as [m|] eqn:Hc.
  - assert (Hm : os.lookup r (cur ++ [c0]) = Some m)
      by (rewrite (lookup_child r cur c0 pm0 mt0 es0 Hl); exact Hc).
    destruct (Hg _ _ Hm) as (m' & Hm' & Am).
    rewrite (lookup_child r' cur c0 pm0 mt' es' Hl') in Hm'. rewrite Hm'.
    destruct m, m'; simpl in Am; try contradiction; try apply IH.
    destruct rest, follow; discriminate.
  - destruct rest; [|discriminate].
    intros H. inversion H; subst cur c0.
    rewrite Hp in Hl. inversion Hl; subst pm0 mt0 es0.
    rewrite Hp' in Hl'. inversion Hl'; subst es'.
    rewrite (lookup_entry_snoc c new es Hc).
    destruct new; try reflexivity. discriminate.
Qed.

Lemma resolveFrom_created (r : os.node) (follow : bool) (parent : list string)
      (c : string) (t : time.Time) (new : os.node) pm mt es :
  os.lookup r parent = Some (os.Directory pm mt es) ->
  notSymlink new = true ->
  forall budget cur comps,
    os.resolveFrom budget r cur comps follow = os.Missing parent c ->
    os.resolveFrom budget (os.modify parent (os.addEntry t c new) r) cur comps follow
    = os.Found (parent ++ [c]).
Proof.
  intros Hp Hnew.
  assert (Hg : grows r (os.modify parent (os.addEntry t c new) r))
    by (eapply grows_modify; [exact Hp|apply grows_addEntry]).
  intros budget. induction budget as [|k IH]; intros cur comps; simpl;
    pose proof (walk_grows _ _ follow Hg comps cur) as Hw;
    pose proof (walk_created r follow parent c t new pm mt es Hp Hnew comps cur) as Hc;
    destruct (os.walk r cur comps follow) eqn:E; try discriminate.
  - intros H. rewrite Hc by exact H. reflexivity.
  - intros H. rewrite Hc by exact H. reflexivity.
  - rewrite Hw. destruct (target =? ""); [discriminate|]. apply IH.
Qed.

(** With or without following a last link, a missing last element is
    missing. *)
Lemma walk_Missing_follow (r : os.node) (parent : list string) (c : string) :
  forall comps cur,
    os.walk r cur comps false = os.Missing parent c ->
    os.walk r cur comps true = os.Missing parent c.
Proof.
  intros comps. induction comps as [|c0 rest IH]; intros cur; simpl; [discriminate|].
  destruct (os.lookup r cur) as [[| pm0 mt0 es0 |]|]; try discriminate.
  destruct (c0 =? ""); [apply IH|].
  destruct (negb (os.canSearch pm0)); [discriminate|].
  destruct (c0 =? "."); [apply IH|].
  destruct (c0 =? ".."); [apply IH|].
  destruct (os.lookup_entry c0 es0) as [[| |]|]; try apply IH; auto.
  destruct rest; discriminate.
Qed.

Lemma walk_Link_follow (r : os.node) (a : list string) (t : string) (rest' : list string) :
  forall comps cur,
    os.walk r cur comps false = os.Link a t rest' ->
    os.walk r cur comps true = os.Link a t rest'.
Proof.
  intros comps. induction comps as [|c0 rest IH]; intros cur; simpl; [discriminate|].
  destruct (os.lookup r cur) as [[| pm0 mt0 es0 |]|]; try discriminate.
  destruct (c0 =? ""); [apply IH|].
  destruct (negb (os.canSearch pm0)); [discriminate|].
  destruct (c0 =? "."); [apply IH|].
  destruct (c0 =? ".."); [apply IH|].
  destruct (os.lookup_entry c0 es0) as [[| |]|]; try apply IH.
  - destruct rest; [discriminate|auto].
  - destruct rest; discriminate.
Qed.

Lemma resolveFrom_Missing_follow (r : os.node) (parent : list string) (c : string) :
  forall budget cur comps,
    os.resolveFrom budget r cur comps false = os.Missing parent c ->
    os.resolveFrom budget r cur comps true = os.Missing parent c.
Proof.
  intros budget. induction budget as [|k IH]; intros cur comps; simpl;
    pose proof (walk_Missing_follow r parent c comps cur) as Hm;
    destruct (os.walk r cur comps false) eqn:E; try discriminate.
  - intros H. rewrite Hm by exact H. reflexivity.
  - intros H. rewrite Hm by exact H. reflexivity.
  - rewrite (walk_Link_follow r _ _ _ comps cur E).
    destruct (target =? ""); [discriminate|]. apply IH.
Qed.

(** A walk that ends at a directory does so whether or not a last link
    would be followed. *)
Lemma walk_Found_follow (r : os.node) (p : list string) pm mt es :
  os.lookup r p = Some (os.Directory pm mt es) ->
  forall comps cur,
    os.walk r cur comps false = os.Found p ->
    os.walk r cur comps true = os.Found p.
Proof.
  intros Hp comps. induction comps as [|c0 rest IH]; intros cur; simpl; [auto|].
  destruct (os.lookup r cur) as [[| pm0 mt0 es0 |]|] eqn:Hl; try discriminate.
  destruct (c0 =? ""); [apply IH|].
  destruct (negb (os.canSearch pm0)); [discriminate|].
  destruct (c0 =? "."); [apply IH|].
  destruct (c0 =? ".."); [apply IH|].
  destruct (os.lookup_entry c0 es0) as [[| |]|] eqn:Hc; try apply IH.
  - destruct rest; [|discriminate].
    intros H. inversion H; subst p.
    rewrite (lookup_child r cur c0 pm0 mt0 es0 Hl), Hc in Hp. discriminate.
  - destruct rest; discriminate.
Qed.

Lemma resolveFrom_Found_follow (r : os.node) (p : list string) pm mt es :
  os.lookup r p = Some (os.Directory pm mt es) ->
  forall budget cur comps,
    os.resolveFrom budget r cur comps false = os.Found p ->
    os.resolveFrom budget r cur comps true = os.Found p.
Proof.
  intros Hp budget. induction budget as [|k IH]; intros cur comps; simpl;
    pose proof (walk_Found_follow r p pm mt es Hp comps cur) as Hf;
    destruct (os.walk r cur comps false) eqn:E; try discriminate.
  - intros H. rewrite Hf by exact H. reflexivity.
  - intros H. rewrite Hf by exact H. reflexivity.
  - rewrite (walk_Link_follow r _ _ _ comps cur E).
    destruct (target =? ""); [discriminate|]. apply IH.
Qed.

Lemma resolve_created (w w' : World) (name : string) (follow : bool)
      (parent : list string) (c : string) (t : time.Time) (new : os.node) :
  os.resolve w name follow = os.Missing parent c ->
  notSymlink new = true ->
  os.root w' = os.modify parent (os.addEntry t c new) (os.root w) ->
  os.cwd w' = os.cwd w ->
  os.resolve w' name follow = os.Found (parent ++ [c]).
Proof.
  intros Hr Hnew Hroot Hcwd.
  destruct (resolve_Missing _ _ _ _ _ Hr) as (pm & mt & es & Hp & _).
  revert Hr. unfold os.resolve. rewrite Hcwd, Hroot.
  destruct (name =? ""); [discriminate|].
  now apply (resolveFrom_created _ follow parent c t new pm mt es Hp Hnew).
Qed.

(** ** What the primitives leave alone *)

Lemma lookup_modify_other (f : os.node -> os.node) (p : list string) :
  forall r q pm0 mt0 d0 pm mt d,
    os.lookup r p = Some (os.Regular pm0 mt0 d0) ->
    os.lookup r q = Some (os.Regular pm mt d) ->
    q <> p ->
    os.lookup (os.modify p f r) q = Some (os.Regular pm mt d).
Proof.
  induction p as [|c p IH]; intros r q pm0 mt0 d0 pm mt d Hp Hq Hne; simpl in *.
  - inversion Hp; subst r. destruct q; [contradiction|discriminate].
  - destruct r as [| pmr mtr es |]; try discriminate.
    destruct q as [|k q]; [discriminate|]. simpl in *.
    destruct (os.lookup_entry c es) as [m|] eqn:Hc; [|discriminate].
    destruct (c =? k) eqn:E.
    + apply String.eqb_eq in E. subst k. rewrite lookup_entry_modified, Hc.
      rewrite Hc in Hq. simpl. eapply IH; eauto. congruence.
    + now rewrite (lookup_entry_other c k _ es E).
Qed.

Lemma lookup_modify_addEntry (t : time.Time) (c : string) (new : os.node)
      (parent : list string) :
  forall r q pm mt d,
    os.lookup r q = Some (os.Regular pm mt d) ->
    os.lookup (os.modify parent (os.addEntry t c new) r) q = Some (os.Regular pm mt d).
Proof.
  induction parent as [|c0 p IH]; intros r q pm mt d Hq; simpl.
  - destruct r as [| pmr mtr es |]; simpl; try exact Hq.
    destruct q as [|k q]; [discriminate|]. simpl in *.
    destruct (os.lookup_entry k es) as [m|] eqn:Hk; [|discriminate].
    now rewrite (lookup_entry_app k es _ m Hk).
  - destruct r as [| pmr mtr es |]; try exact Hq.
    destruct q as [|k q]; [discriminate|]. simpl in *.
    destruct (c0 =? k) eqn:E.
    + apply String.eqb_eq in E. subst k. rewrite lookup_entry_modified.
      destruct (os.lookup_entry c0 es) as [m|]; [|discriminate]. simpl.
      now apply IH.
    + now rewrite (lookup_entry_other c0 k _ es E).
Qed.

Lemma touchesOnly_refl (p : list string) (w : World) : touchesOnly p w w.
Proof.
  unfold touchesOnly.
  split; [reflexivity|]. split; [reflexivity|]. split; [reflexivity|].
  split; [reflexivity|]. split; [apply grows_refl|auto].
Qed.

Lemma touchesOnly_trans (p : list string) (a b c : World) :
  touchesOnly p a b -> touchesOnly p b c -> touchesOnly p a c.
Proof.
  intros (A1 & A2 & A3 & A4 & A5 & A6) (B1 & B2 & B3 & B4 & B5 & B6).
  unfold touchesOnly.
  split; [congruence|]. split; [congruence|]. split; [congruence|].
  split; [congruence|]. split.
  - eapply grows_trans; eassumption.
  - intros q pm mt d Hq Hne. apply B6; [|exact Hne]. now apply A6.
Qed.

Lemma touchesOnly_record (p : list string) (c : os.call) (w : World) :
  touchesOnly p w (os.record c w).
Proof.
  unfold touchesOnly. simpl.
  split; [reflexivity|]. split; [reflexivity|]. split; [reflexivity|].
  split; [reflexivity|]. split; [apply grows_refl|auto].
Qed.

(** Only the tree and the working directory decide how a name
    resolves. *)
Lemma resolve_ext (w w' : World) (name : string) (follow : bool) :
  os.root w' = os.root w -> os.cwd w' = os.cwd w ->
  os.resolve w' name follow = os.resolve w name follow.
Proof. intros Hr Hc. unfold os.resolve. now rewrite Hr, Hc. Qed.

Lemma resolve_touchesOnly (q : list string) (w w' : World) (name : string)
      (follow : bool) (p : list string) :
  touchesOnly q w w' ->
  os.resolve w name follow = os.Found p ->
  os.resolve w' name follow = os.Found p.
Proof.
  intros (Hc & _ & _ & _ & Hg & _). now apply resolve_grows.
Qed.

(** A successful open for writing: the handle names a regular file of
    the new tree, which the name now resolves to; the file is the one
    that was there, emptied if the open truncates, or a new empty one. *)
Lemma OpenFile_write (name : string) (flag perm : Z) (w w1 : World) (f : os.File) :
  os.wantsWrite flag = true ->
  os.OpenFile name flag perm w = (Ok f, w1) ->
  os.fileName f = name /\ os.fileFlag f = flag
  /\ os.calls w1 = os.CallOpenFile name flag perm :: os.calls w
  /\ touchesOnly (os.filePath f) w w1
  /\ os.resolve w1 name true = os.Found (os.filePath f)
  /\ exists pm mt d,
      os.lookup (os.root w1) (os.filePath f) = Some (os.Regular pm mt d)
      /\ ((exists mt0 d0,
             os.resolve w name true = os.Found (os.filePath f)
             /\ os.lookup (os.root w) (os.filePath f) = Some (os.Regular pm mt0 d0)
             /\ d = (if os.hasFlag flag os.O_TRUNC then "" else d0))
          \/ (exists parent c,
                os.resolve w name true = os.Missing parent c
                /\ os.filePath f = (parent ++ [c])%list
                /\ pm = Z.ldiff (Z.land perm os.ModePerm) (os.umask w)
                /\ d = "")).
Proof.
  intros Hw. unfold os.OpenFile.
  set (w0 := os.record (os.CallOpenFile name flag perm) w).
  assert (Hres : os.resolve w0 name true = os.resolve w name true) by reflexivity.
  destruct (os.openat w0 name flag perm) as [res r] eqn:Ho.
  intros H. inversion H; subst res w1. clear H.
  revert Ho. unfold os.openat. rewrite Hw, Hres.
  destruct (os.resolve w name true) as [p | parent c | |] eqn:Hr; try discriminate.
  - change (os.root w0) with (os.root w).
    destruct (os.lookup (os.root w) p) as [[pm mt d | pm mt es | ]|] eqn:Hl;
      try discriminate.
    destruct (_ && _); [|discriminate].
    rewrite andb_true_r. intros Ho. inversion Ho; subst f r. clear Ho. simpl.
    assert (Ht : touchesOnly p w
                   (os.withRoot
                      (if os.hasFlag flag os.O_TRUNC
                       then os.modify p (fun _ => os.Regular pm (os.now w0) "") (os.root w)
                       else os.root w) w0)).
    { unfold touchesOnly. simpl.
      split; [reflexivity|]. split; [reflexivity|].
      split; [reflexivity|]. split; [reflexivity|]. split.
      - destruct (os.hasFlag flag os.O_TRUNC); [|apply grows_refl].
        eapply grows_modify; [exact Hl|apply grows_regular].
      - intros q pm' mt' d' Hq Hne.
        destruct (os.hasFlag flag os.O_TRUNC); [|exact Hq].
        eapply lookup_modify_other; eauto. }
    split; [reflexivity|]. split; [reflexivity|]. split; [reflexivity|].
    split; [exact Ht|].
    split; [eapply resolve_touchesOnly; [exact Ht|exact Hr]|].
    destruct (os.hasFlag flag os.O_TRUNC).
    + exists pm, (os.now w), "". split; [now rewrite lookup_modify, Hl|].
      left. exists mt, d. auto.
    + exists pm, mt, d. split; [exact Hl|]. left. exists mt, d. auto.
  - destruct (os.hasFlag flag os.O_CREATE); [|discriminate].
    change (os.root w0) with (os.root w).
    destruct (resolve_Missing _ _ _ _ _ Hr) as (pm & mt & es & Hp & Hc).
    rewrite Hp. destruct (os.canWrite pm); [|discriminate].
    intros Ho. inversion Ho; subst f r. clear Ho. simpl.
    split; [reflexivity|]. split; [reflexivity|]. split; [reflexivity|].
    split.
    { unfold touchesOnly. simpl.
      split; [reflexivity|]. split; [reflexivity|].
      split; [reflexivity|]. split; [reflexivity|]. split.
      - eapply grows_modify; [exact Hp|apply grows_addEntry].
      - intros q pm' mt' d' Hq _. now apply lookup_modify_addEntry. }
    split.
    { eapply resolve_created; [exact Hr| |simpl; reflexivity|reflexivity];
        reflexivity. }
    do 3 eexists. split; [eapply lookup_added; eassumption|].
    right. exists parent, c. auto.
Qed.

Lemma Write_spec (f : os.File) (b : string) (w : World) pm mt d :
  os.wantsWrite (os.fileFlag f) = true ->
  os.lookup (os.root w) (os.filePath f) = Some (os.Regular pm mt d) ->
  exists w1,
    os.Write f b w = ((Z.of_nat (String.length b), None), w1)
    /\ os.calls w1 = os.CallWrite (os.fileName f) b :: os.calls w
    /\ touchesOnly (os.filePath f) w w1
    /\ os.lookup (os.root w1) (os.filePath f) = Some (os.Regular pm (os.now w) (d ++ b)).
Proof.
  intros Hw Hl. eexists. split; [now apply (Write_regular f b w pm mt d)|].
  split; [reflexivity|]. split.
  - unfold touchesOnly. simpl.
    split; [reflexivity|]. split; [reflexivity|].
    split; [reflexivity|]. split; [reflexivity|]. split.
    + eapply grows_modify; [exact Hl|apply grows_regular].
    + intros q pm' mt' d' Hq Hne. eapply lookup_modify_other; eauto.
  - simpl. now rewrite lookup_modify, Hl.
Qed.

Lemma ReadFile_at (w : World) (name : string) (p : list string) pm mt d :
  os.resolve w name true = os.Found p ->
  os.lookup (os.root w) p = Some (os.Regular pm mt d) ->
  os.ReadFile w name
  = if os.canRead pm then Ok d else Failure (PathError "open" name EACCES).
Proof.
  intros Hr Hl. unfold os.ReadFile, os.Open, os.openat. rewrite Hr, Hl.
  change (os.wantsRead os.O_RDONLY) with true.
  change (os.wantsWrite os.O_RDONLY) with false.
  simpl. destruct (os.canRead pm); simpl; [now rewrite Hl|reflexivity].
Qed.

Lemma ReadFile_inv (w : World) (name : string) (d : string) :
  os.ReadFile w name = Ok d ->
  exists p pm mt,
    os.resolve w name true = os.Found p
    /\ os.lookup (os.root w) p = Some (os.Regular pm mt d)
    /\ os.canRead pm = true.
Proof.
  unfold os.ReadFile, os.Open, os.openat.
  destruct (os.resolve w name true) as [p | parent c | |]; simpl; try discriminate.
  destruct (os.lookup (os.root w) p) as [[pm mt d0 | pm mt es | ]|] eqn:Hl;
    simpl; try discriminate.
  - change (os.wantsRead os.O_RDONLY) with true.
    change (os.wantsWrite os.O_RDONLY) with false. simpl.
    destruct (os.canRead pm) eqn:Hc; simpl; [|discriminate].
    rewrite Hl. intros H. inversion H; subst. eauto 6.
  - destruct (os.canRead pm); simpl; [|discriminate]. rewrite Hl. discriminate.
Qed.

Lemma Stat_at (w : World) (name : string) (p : list string) (n : os.node) :
  os.resolve w name true = os.Found p ->
  os.lookup (os.root w) p = Some n ->
  os.Stat w name = Ok (os.infoOf (filepath.Base name) n).
Proof.
  intros Hr Hl. unfold os.Stat, os.statWith. now rewrite Hr, Hl.
Qed.

Lemma FileExists_at (w : World) (name : string) (st : os.FileInfo) :
  os.Stat w name = Ok st -> FileExists w name = true.
Proof. intros H. unfold FileExists. now rewrite H. Qed.

Lemma ReadFile_ok (name : string) (w : World) (d : string) :
  fst (ReadFile name w) = (d, None) <-> os.ReadFile w name = Ok d.
Proof.
  unfold ReadFile. destruct (os.ReadFile w name) as [c|err]; simpl.
  - split; intros H; inversion H; reflexivity.
  - split; discriminate.
Qed.

Lemma infoOf_Size_regular (name : string) pm mt d :
  os.Size (os.infoOf name (os.Regular pm mt d)) = Z.of_nat (String.length d).
Proof. reflexivity. Qed.

(** ** Append, WriteFile and ReadFile *)

(** What a successful [Append] leaves behind: the name resolves to a
    regular file holding what it held, or nothing if it was made by the
    call, followed by the content. *)
Lemma Append_result (name content : string) (w w1 : World) :
  Append name content w = (None, w1) ->
  exists p pm mt d,
    os.resolve w1 name true = os.Found p
    /\ os.lookup (os.root w1) p = Some (os.Regular pm mt (d ++ content))
    /\ ((exists mt0, os.resolve w name true = os.Found p
                     /\ os.lookup (os.root w) p = Some (os.Regular pm mt0 d))
        \/ (d = "" /\ exists parent c, os.resolve w name true = os.Missing parent c)).
Proof.
  unfold Append, AppendWith. fold appendFlags.
  destruct (os.OpenFile name appendFlags 420 w) as [[f|err] w0] eqn:Ho;
    [|discriminate].
  destruct (OpenFile_write name appendFlags 420 w w0 f eq_refl Ho)
    as (Hn & Hf & _ & Ht & Hr & pm & mt & d & Hl & Hcase).
  destruct (Write_spec f content w0 pm mt d) as (w2 & Hw & _ & Ht2 & Hl2);
    [now rewrite Hf|exact Hl|].
  rewrite Hw. intros H. inversion H; subst w1. clear H.
  exists (os.filePath f), pm, (os.now w0), d.
  split; [eapply resolve_touchesOnly; [exact Ht2|exact Hr]|].
  split; [exact Hl2|].
  destruct Hcase as [(mt0 & d0 & Hr0 & Hl0 & Hd)|(parent & c & Hr0 & _ & _ & Hd)].
  - left. exists mt0. change (os.hasFlag appendFlags os.O_TRUNC) with false in Hd.
    cbv iota in Hd. subst d0. auto.
  - right. split; [exact Hd|]. eauto.
Qed.

(** [Append] adds to what [ReadFile] reads: after a successful append to
    a file that could be read, [ReadFile] returns the old content followed
    by the new. *)
Theorem Append_extends_what_ReadFile_reads (name content old : string) (w w1 : World) :
  fst (ReadFile name w) = (old, None) ->
  Append name content w = (None, w1) ->
  ReadFile name w1 = ((old ++ content, None), w1).
Proof.
  intros Hread Happ. apply ReadFile_ok in Hread.
  destruct (ReadFile_inv w name old Hread) as (p & pm & mt & Hr & Hl & Hc).
  destruct (Append_result name content w w1 Happ)
    as (p1 & pm1 & mt1 & d & Hr1 & Hl1 & [(mt0 & Hr0 & Hl0)|(_ & parent & c & Hr0)]).
  - rewrite Hr in Hr0. inversion Hr0; subst p1.
    rewrite Hl in Hl0. inversion Hl0; subst pm1 d.
    unfold ReadFile. rewrite (ReadFile_at w1 name p pm mt1 _ Hr1 Hl1), Hc.
    reflexivity.
  - rewrite Hr in Hr0. discriminate.
Qed.

Lemma Append_extends_what_ReadFile_reads_witness :
  fst (ReadFile "x" demo) = ("hello", None)
  /\ fst (ReadFile "x" (snd (Append "x" ", world" demo))) = ("hello, world", None).
Proof.
  split; [vm_compute; reflexivity|].
  rewrite (Append_extends_what_ReadFile_reads "x" ", world" "hello" demo
             (snd (Append "x" ", world" demo))); [reflexivity| |];
    vm_compute; reflexivity.
Defined.

(** [Append] to a name that does not exist makes the file: after a
    successful append the name exists, its size is that of the content,
    and what can be read from it is the content. *)
Theorem Append_makes_missing_file (name content : string) (w w1 : World) :
  os.IsNotExist (errOf (os.Stat w name)) = true ->
  Append name content w = (None, w1) ->
  FileExists w1 name = true
  /\ FileSizeZeroOnError w1 name = Z.of_nat (String.length content)
  /\ forall data, fst (ReadFile name w1) = (data, None) -> data = content.
Proof.
  intros Hne Happ.
  destruct (Append_result name content w w1 Happ)
    as (p & pm & mt & d & Hr1 & Hl1 & [(mt0 & Hr0 & Hl0)|(Hd & _)]).
  - rewrite (Stat_at w name p _ Hr0 Hl0) in Hne. discriminate.
  - subst d. simpl in Hl1.
    pose proof (Stat_at w1 name p _ Hr1 Hl1) as Hs.
    split; [eapply FileExists_at; exact Hs|].
    split; [unfold FileSizeZeroOnError; rewrite Hs; apply infoOf_Size_regular|].
    intros data Hd. apply ReadFile_ok in Hd.
    rewrite (ReadFile_at w1 name p pm mt content Hr1 Hl1) in Hd.
    destruct (os.canRead pm); [|discriminate]. now inversion Hd.
Qed.

Lemma Append_makes_missing_file_witness :
  FileExists demo "notes.txt" = false
  /\ FileExists (snd (Append "notes.txt" "abc" demo)) "notes.txt" = true
  /\ fst (ReadFile "notes.txt" (snd (Append "notes.txt" "abc" demo))) = ("abc", None).
Proof.
  split; [vm_compute; reflexivity|].
  destruct (Append_makes_missing_file "notes.txt" "abc" demo
              (snd (Append "notes.txt" "abc" demo))) as (He & _ & _);
    [vm_compute; reflexivity|vm_compute; reflexivity|].
  split; [exact He|vm_compute; reflexivity].
Defined.

(** What a successful [os.WriteFile] leaves behind. *)
Lemma os_WriteFile_result (name data : string) (perm : Z) (w w1 : World) :
  os.WriteFile name data perm w = (None, w1) ->
  exists p pm mt,
    os.resolve w1 name true = os.Found p
    /\ os.lookup (os.root w1) p = Some (os.Regular pm mt data)
    /\ touchesOnly p w w1
    /\ ((exists mt0 d0,
           os.resolve w name true = os.Found p
           /\ os.lookup (os.root w) p = Some (os.Regular pm mt0 d0))
        \/ (exists parent c,
              os.resolve w name true = os.Missing parent c
              /\ pm = Z.ldiff (Z.land perm os.ModePerm) (os.umask w))).
Proof.
  unfold os.WriteFile.
  destruct (os.OpenFile name _ perm w) as [[f|err] w0] eqn:Ho; [|discriminate].
  destruct (OpenFile_write name (Z.lor os.O_WRONLY (Z.lor os.O_CREATE os.O_TRUNC))
              perm w w0 f eq_refl Ho)
    as (Hn & Hf & _ & Ht & Hr & pm & mt & d & Hl & Hcase).
  assert (Hd : d = "").
  { destruct Hcase as [(mt0 & d0 & _ & _ & Hd)|(parent & c & _ & _ & _ & Hd)];
      exact Hd. }
  subst d.
  destruct (Write_spec f data w0 pm mt "") as (w2 & Hw & _ & Ht2 & Hl2);
    [now rewrite Hf|exact Hl|].
  rewrite Hw. simpl. intros H. inversion H; subst w1. clear H.
  exists (os.filePath f), pm, (os.now w0).
  split; [eapply resolve_touchesOnly; [exact Ht2|exact Hr]|].
  split; [exact Hl2|].
  split; [eapply touchesOnly_trans; eassumption|].
  destruct Hcase as [(mt0 & d0 & Hr0 & Hl0 & _)|(parent & c & Hr0 & _ & Hpm & _)].
  - left. eauto.
  - right. eauto.
Qed.

(** [WriteFile] replaces the content of the cleaned name: after a
    successful write the cleaned name exists, its size is that of the
    content, and what can be read from it is the content and nothing of
    what the file held before. *)
Theorem WriteFile_then_ReadFile (name content : string) (perm : Z) (w w1 : World) :
  WriteFile name content perm w = (None, w1) ->
  FileExists w1 (cleanPath name) = true
  /\ FileSizeZeroOnError w1 (cleanPath name) = Z.of_nat (String.length content)
  /\ forall data, fst (ReadFile (cleanPath name) w1) = (data, None) -> data = content.
Proof.
  unfold WriteFile.
  destruct (os.WriteFile (cleanPath name) content perm w) as [[e|] w2] eqn:Hw;
    [discriminate|].
  intros H. inversion H; subst w2. clear H.
  destruct (os_WriteFile_result _ _ _ _ _ Hw) as (p & pm & mt & Hr & Hl & _).
  pose proof (Stat_at w1 _ p _ Hr Hl) as Hs.
  split; [eapply FileExists_at; exact Hs|].
  split; [unfold FileSizeZeroOnError; rewrite Hs; apply infoOf_Size_regular|].
  intros data Hd. apply ReadFile_ok in Hd.
  rewrite (ReadFile_at w1 _ p pm mt content Hr Hl) in Hd.
  destruct (os.canRead pm); [|discriminate]. now inversion Hd.
Qed.

Lemma WriteFile_then_ReadFile_witness :
  fst (ReadFile "x" demo) = ("hello", None)
  /\ fst (WriteFile "./x" "bye" 420 demo) = None
  /\ fst (ReadFile "x" (snd (WriteFile "./x" "bye" 420 demo))) = ("bye", None)
  /\ FileSizeZeroOnError (snd (WriteFile "./x" "bye" 420 demo)) "x" = 3%Z.
Proof.
  split; [vm_compute; reflexivity|].
  split; [vm_compute; reflexivity|].
  split; [vm_compute; reflexivity|].
  destruct (WriteFile_then_ReadFile "./x" "bye" 420 demo
              (snd (WriteFile "./x" "bye" 420 demo))) as (_ & Hs & _);
    [vm_compute; reflexivity|exact Hs].
Defined.

(** [FileSize] and what [ReadFile] reads: for a file that [ReadFile]
    reads, [FileSize] is the number of bytes read, without error and
    without a log line; and whatever the name, [FileSizeZeroOnError] is
    the number [FileSize] returns, zero when the stat fails as for a file
    that is empty. *)
Theorem FileSize_counts_what_ReadFile_reads (name : string) (w : World) :
  (forall data, fst (ReadFile name w) = (data, None) ->
     FileSize name w = ((Z.of_nat (String.length data), None), w))
  /\ FileSizeZeroOnError w name = fst (fst (FileSize name w))
  /\ (forall err, os.Stat w name = Failure err ->
        FileSizeZeroOnError w name = 0%Z /\ snd (fst (FileSize name w)) = Some err).
Proof.
  split; [|split].
  - intros data Hd. apply ReadFile_ok in Hd.
    destruct (ReadFile_inv w name data Hd) as (p & pm & mt & Hr & Hl & _).
    unfold FileSize. rewrite (Stat_at w name p _ Hr Hl).
    now rewrite infoOf_Size_regular.
  - unfold FileSizeZeroOnError, FileSize. now destruct (os.Stat w name).
  - intros err He. unfold FileSizeZeroOnError, FileSize. now rewrite He.
Qed.

Lemma FileSize_counts_what_ReadFile_reads_witness :
  fst (ReadFile "/a/f.txt" demo) = ("0123456789", None)
  /\ FileSize "/a/f.txt" demo = ((10%Z, None), demo)
  /\ FileSizeZeroOnError demo "/nope" = 0%Z
  /\ FileSizeZeroOnError demo "GMSFS.Debug" = 0%Z.
Proof.
  destruct (FileSize_counts_what_ReadFile_reads "/a/f.txt" demo) as (H1 & _).
  destruct (FileSize_counts_what_ReadFile_reads "/nope" demo) as (_ & _ & H3).
  split; [vm_compute; reflexivity|].
  split; [apply (H1 "0123456789"); vm_compute; reflexivity|].
  split; [|vm_compute; reflexivity].
  apply (H3 (PathError "stat" "/nope" ENOENT)). vm_compute; reflexivity.
Defined.

(** ** CopyFile when it succeeds *)

Lemma Open_inv (w : World) (name : string) (f : os.File) :
  os.Open w name = Ok f ->
  os.fileName f = name
  /\ os.resolve w name true = os.Found (os.filePath f)
  /\ ((exists pm mt d,
         os.lookup (os.root w) (os.filePath f) = Some (os.Regular pm mt d)
         /\ os.canRead pm = true)
      \/ (exists pm mt es,
            os.lookup (os.root w) (os.filePath f) = Some (os.Directory pm mt es))).
Proof.
  unfold os.Open, os.openat.
  destruct (os.resolve w name true) as [p | parent c | |]; simpl; try discriminate.
  destruct (os.lookup (os.root w) p) as [[pm mt d | pm mt es | ]|] eqn:Hl;
    simpl; try discriminate.
  - change (os.wantsRead os.O_RDONLY) with true.
    change (os.wantsWrite os.O_RDONLY) with false. simpl.
    destruct (os.canRead pm) eqn:Hc; simpl; [|discriminate].
    intros H. inversion H; subst f. simpl.
    split; [reflexivity|]. split; [reflexivity|]. left. eauto.
  - destruct (os.canRead pm); simpl; [|discriminate].
    intros H. inversion H; subst f. simpl.
    split; [reflexivity|]. split; [reflexivity|]. right. eauto.
Qed.

Lemma Chmod_spec (name : string) (mode : Z) (w : World) (p : list string) pm mt d :
  os.resolve w name true = os.Found p ->
  os.lookup (os.root w) p = Some (os.Regular pm mt d) ->
  exists w1,
    os.Chmod name mode w = (None, w1)
    /\ touchesOnly p w w1
    /\ os.lookup (os.root w1) p = Some (os.Regular (Z.land mode os.ModePerm) mt d).
Proof.
  intros Hr Hl. unfold os.Chmod.
  change (os.resolve (os.record (os.CallChmod name mode) w) name true)
    with (os.resolve w name true).
  rewrite Hr. eexists. split; [reflexivity|]. split.
  - unfold touchesOnly. simpl.
    split; [reflexivity|]. split; [reflexivity|].
    split; [reflexivity|]. split; [reflexivity|]. split.
    + eapply grows_modify; [exact Hl|apply grows_regular].
    + intros q pm' mt' d' Hq Hne. eapply lookup_modify_other; eauto.
  - simpl. now rewrite lookup_modify, Hl.
Qed.

Lemma Copy_spec (dst src : os.File) (w : World) pms mts data pm mt :
  os.lookup (os.root w) (os.filePath src) = Some (os.Regular pms mts data) ->
  os.wantsWrite (os.fileFlag dst) = true ->
  os.lookup (os.root w) (os.filePath dst) = Some (os.Regular pm mt "") ->
  exists n w1 mt',
    io.Copy dst src w = ((n, None), w1)
    /\ touchesOnly (os.filePath dst) w w1
    /\ os.lookup (os.root w1) (os.filePath dst) = Some (os.Regular pm mt' data).
Proof.
  intros Hs Hw Hd. unfold io.Copy. rewrite Hs.
  destruct (data =? "") eqn:E.
  - apply String.eqb_eq in E. subst data.
    exists 0%Z, w, mt. split; [reflexivity|]. split; [apply touchesOnly_refl|exact Hd].
  - destruct (Write_spec dst data w pm mt "" Hw Hd) as (w1 & Hwr & _ & Ht & Hl).
    exists (Z.of_nat (String.length data)), w1, (os.now w). auto.
Qed.

Lemma canRead_land (pm : Z) :
  os.canRead (Z.land (Z.land pm os.ModePerm) os.ModePerm) = os.canRead pm.
Proof.
  unfold os.canRead. rewrite !Z.land_spec.
  change (Z.testbit os.ModePerm 8) with true. now rewrite !andb_true_r.
Qed.

Lemma infoOf_Mode_regular (name : string) pm mt d :
  os.Mode (os.infoOf name (os.Regular pm mt d)) = Z.land pm os.ModePerm.
Proof. reflexivity. Qed.

(** Where a successful [CopyFile] leaves the two files: [ps] is the
    source, a readable regular file, and [pd] the destination, which now
    carries the permission bits of the source and holds what the source
    held when it was read, after the destination was emptied. *)
Lemma CopyFile_result (src dst : string) (w w1 : World) :
  CopyFile src dst w = (None, w1) ->
  exists ps pd pms mts data mt',
    os.resolve w (cleanPath src) true = os.Found ps
    /\ os.lookup (os.root w) ps = Some (os.Regular pms mts data)
    /\ os.canRead pms = true
    /\ os.resolve w1 (cleanPath src) true = os.Found ps
    /\ os.resolve w1 (cleanPath dst) true = os.Found pd
    /\ (os.resolve w (cleanPath dst) true = os.Found pd
        \/ ((exists parent c, os.resolve w (cleanPath dst) true = os.Missing parent c)
            /\ os.lookup (os.root w) pd = None))
    /\ (ps = pd ->
        os.lookup (os.root w1) pd
        = Some (os.Regular (Z.land (Z.land pms os.ModePerm) os.ModePerm) mt' ""))
    /\ (ps <> pd ->
        os.lookup (os.root w1) pd
        = Some (os.Regular (Z.land (Z.land pms os.ModePerm) os.ModePerm) mt' data)
        /\ os.lookup (os.root w1) ps = Some (os.Regular pms mts data))
    /\ touchesOnly pd w w1.
Proof.
  unfold CopyFile.
  set (src' := cleanPath src). set (dst' := cleanPath dst).
  destruct (os.Open w src') as [fin|e] eqn:Hopen; [|discriminate].
  destruct (Open_inv w src' fin Hopen) as (_ & Hrs & Hsrc).
  set (ps := os.filePath fin) in *.
  destruct (os.Create dst' w) as [[fout|e] wa] eqn:Hcreate; [|discriminate].
  unfold os.Create in Hcreate.
  destruct (OpenFile_write dst' (Z.lor os.O_RDWR (Z.lor os.O_CREATE os.O_TRUNC))
              438 w wa fout eq_refl Hcreate)
    as (_ & Hflag & _ & Hta & Hrd & pmd & mtd & d & Hld & Hcase).
  set (pd := os.filePath fout) in *.
  assert (Hd : d = "").
  { destruct Hcase as [(mt0 & d0 & _ & _ & Hd)|(parent & c & _ & _ & _ & Hd)];
      exact Hd. }
  subst d. change (os.Close fout) with (@None error). cbv iota beta.
  assert (Hwas : os.resolve w dst' true = os.Found pd
                 \/ ((exists parent c, os.resolve w dst' true = os.Missing parent c)
                     /\ os.lookup (os.root w) pd = None)).
  { destruct Hcase as [(mt0 & d0 & Hr0 & _)|(parent & c & Hr0 & Hp & _)];
      [now left|right].
    split; [eauto|].
    destruct (resolve_Missing _ _ _ _ _ Hr0) as (pm & mt & es & Hpar & Hc).
    fold pd in Hp. rewrite Hp, (lookup_child _ parent c pm mt es Hpar). exact Hc. }
  destruct Hsrc as [(pms & mts & data & Hls & Hcr)|(pm & mt & es & Hls)].
  2:{ (* the source is a directory: the copy cannot read it *)
      destruct Hta as (_ & _ & _ & _ & Hg & _).
      destruct (Hg ps _ Hls) as (n' & Hl' & A).
      destruct n' as [| pm' mt' es' |]; simpl in A; try contradiction.
      unfold io.Copy. fold ps. rewrite Hl'. discriminate. }
  (* the source as the copy reads it *)
  assert (Hread : exists data1,
             os.lookup (os.root wa) ps = Some (os.Regular pms (if list_eq_dec string_dec ps pd then mtd else mts) data1)
             /\ (ps = pd -> data1 = "") /\ (ps <> pd -> data1 = data)).
  { destruct (list_eq_dec string_dec ps pd) as [E|E].
    - assert (pmd = pms).
      { destruct Hcase as [(mt0 & d0 & _ & Hl0 & _)|(parent & c & Hr0 & Hp & _)].
        - fold pd in Hl0. rewrite <- E, Hls in Hl0. congruence.
        - destruct Hwas as [Hw|[_ Hw]].
          + rewrite Hr0 in Hw. discriminate.
          + rewrite <- E, Hls in Hw. discriminate. }
      subst pmd. exists "". rewrite E. split; [exact Hld|]. split; [auto|contradiction].
    - exists data. split; [|split; [contradiction|auto]].
      destruct Hta as (_ & _ & _ & _ & _ & Hk). now apply Hk. }
  destruct Hread as (data1 & Hls1 & Hsame & Hdiff).
  destruct (Copy_spec fout fin wa _ _ data1 pmd mtd Hls1) as (n & wb & mtb & Hcopy & Htb & Hlb);
    [now rewrite Hflag|exact Hld|].
  rewrite Hcopy. cbv iota beta.
  unfold os.Sync. cbv iota beta.
  set (wc := os.record (os.CallSync (os.fileName fout)) wb).
  assert (Htc : touchesOnly pd w wc).
  { eapply touchesOnly_trans; [exact Hta|].
    eapply touchesOnly_trans; [exact Htb|apply touchesOnly_record]. }
  assert (Hrs_c : os.resolve wc src' true = os.Found ps)
    by (eapply resolve_touchesOnly; [exact Htc|exact Hrs]).
  assert (Hrd_c : os.resolve wc dst' true = os.Found pd).
  { eapply resolve_touchesOnly; [|exact Hrd].
    eapply touchesOnly_trans; [exact Htb|apply touchesOnly_record]. }
  assert (Hlc : os.lookup (os.root wc) pd = Some (os.Regular pmd mtb data1)) by exact Hlb.
  assert (Hsrc_c : exists mtc dc,
             os.lookup (os.root wc) ps = Some (os.Regular pms mtc dc)
             /\ (ps <> pd -> mtc = mts /\ dc = data)).
  { destruct (list_eq_dec string_dec ps pd) as [E|E].
    - assert (pmd = pms).
      { rewrite E, Hld in Hls1. congruence. }
      subst pmd. exists mtb, data1. rewrite E. split; [exact Hlc|contradiction].
    - exists mts, data. split; [|auto].
      destruct Htc as (_ & _ & _ & _ & _ & Hk). now apply Hk. }
  destruct Hsrc_c as (mtc & dc & Hls_c & Hsrc_diff).
  rewrite (Stat_at wc src' ps _ Hrs_c Hls_c). cbv iota beta.
  rewrite infoOf_Mode_regular.
  destruct (Chmod_spec dst' (Z.land pms os.ModePerm) wc pd pmd mtb data1 Hrd_c Hlc)
    as (wd & Hchmod & Htd & Hldd).
  rewrite Hchmod. cbv iota beta. intros H. inversion H; subst w1. clear H.
  exists ps, pd, pms, mts, data, mtb.
  split; [exact Hrs|]. split; [exact Hls|]. split; [exact Hcr|].
  split; [eapply resolve_touchesOnly; [exact Htd|exact Hrs_c]|].
  split; [eapply resolve_touchesOnly; [exact Htd|exact Hrd_c]|].
  split; [exact Hwas|].
  split; [|split].
  - intros E. rewrite (Hsame E) in Hldd. exact Hldd.
  - intros E. rewrite (Hdiff E) in Hldd. split; [exact Hldd|].
    destruct (Hsrc_diff E) as (-> & ->).
    destruct Htd as (_ & _ & _ & _ & _ & Hk). now apply Hk.
  - eapply touchesOnly_trans; [exact Htc|exact Htd].
Qed.

Lemma land_ModePerm_twice (x : Z) :
  Z.land (Z.land x os.ModePerm) os.ModePerm = Z.land x os.ModePerm.
Proof. now rewrite <- Z.land_assoc, Z.land_diag. Qed.

(** When [CopyFile] reports success and source and destination are not
    the same file, the destination can be read and holds the bytes of the
    source, the source is as it was, and the mode [Stat] reports for the
    destination is the mode of the source. *)
Theorem CopyFile_copies_content_and_mode (src dst : string) (w w1 : World) :
  CopyFile src dst w = (None, w1) ->
  (forall p, os.resolve w (cleanPath src) true = os.Found p ->
             os.resolve w (cleanPath dst) true <> os.Found p) ->
  exists data,
    fst (ReadFile (cleanPath src) w) = (data, None)
    /\ fst (ReadFile (cleanPath dst) w1) = (data, None)
    /\ fst (ReadFile (cleanPath src) w1) = (data, None)
    /\ snd (Stat w1 (cleanPath dst)) = None
    /\ Mode (fst (Stat w1 (cleanPath dst))) = Mode (fst (Stat w (cleanPath src)))
    /\ Size (fst (Stat w1 (cleanPath dst))) = Size (fst (Stat w (cleanPath src))).
Proof.
  intros Hcopy Hdiff.
  destruct (CopyFile_result src dst w w1 Hcopy)
    as (ps & pd & pms & mts & data & mt' & Hrs & Hls & Hcr & Hrs1 & Hrd1 & Hwas & _ & Hne & _).
  assert (E : ps <> pd).
  { intros E. subst pd. destruct Hwas as [Hw|[_ Hw]].
    - exact (Hdiff ps Hrs Hw).
    - rewrite Hls in Hw. discriminate. }
  destruct (Hne E) as (Hld1 & Hls1).
  exists data.
  split; [apply ReadFile_ok; now rewrite (ReadFile_at w _ ps pms mts data Hrs Hls), Hcr|].
  split.
  { apply ReadFile_ok. rewrite (ReadFile_at w1 _ pd _ mt' data Hrd1 Hld1).
    now rewrite canRead_land, Hcr. }
  split; [apply ReadFile_ok; now rewrite (ReadFile_at w1 _ ps pms mts data Hrs1 Hls1), Hcr|].
  unfold Stat.
  rewrite (Stat_at w1 _ pd _ Hrd1 Hld1), (Stat_at w _ ps _ Hrs Hls). simpl.
  split; [reflexivity|].
  split; [now rewrite !land_ModePerm_twice|reflexivity].
Qed.

Lemma CopyFile_copies_content_and_mode_witness :
  fst (CopyFile "/a/./f.txt" "copy" demo) = None
  /\ fst (ReadFile "copy" (snd (CopyFile "/a/./f.txt" "copy" demo)))
     = ("0123456789", None)
  /\ Mode (fst (Stat (snd (CopyFile "/a/./f.txt" "copy" demo)) "copy")) = 420%Z.
Proof.
  split; [vm_compute; reflexivity|].
  destruct (CopyFile_copies_content_and_mode "/a/./f.txt" "copy" demo
              (snd (CopyFile "/a/./f.txt" "copy" demo)))
    as (data & H0 & H1 & _ & _ & Hm & _).
  - vm_compute; reflexivity.
  - intros p Hp. vm_compute. discriminate.
  - split.
    + change (cleanPath "copy") with "copy" in H1. rewrite H1.
      rewrite <- H0. vm_compute. reflexivity.
    + change (cleanPath "copy") with "copy" in Hm. rewrite Hm.
      vm_compute. reflexivity.
Defined.

(** Copying a file onto itself empties it: when source and destination
    resolve to the same file and [CopyFile] reports success, the file has
    been truncated before it was read, and nothing is left of it. *)
Theorem CopyFile_onto_itself_empties (src dst : string) (w w1 : World)
        (p : list string) :
  CopyFile src dst w = (None, w1) ->
  os.resolve w (cleanPath src) true = os.Found p ->
  os.resolve w (cleanPath dst) true = os.Found p ->
  fst (ReadFile (cleanPath src) w1) = ("", None)
  /\ FileSizeZeroOnError w1 (cleanPath src) = 0%Z.
Proof.
  intros Hcopy Hsrc Hdst.
  destruct (CopyFile_result src dst w w1 Hcopy)
    as (ps & pd & pms & mts & data & mt' & Hrs & Hls & Hcr & Hrs1 & Hrd1 & Hwas & Hsame & _).
  rewrite Hsrc in Hrs. inversion Hrs; subst ps. clear Hrs.
  assert (E : p = pd).
  { destruct Hwas as [Hw|[(parent & c & Hw) _]]; rewrite Hdst in Hw;
      [now inversion Hw|discriminate]. }
  subst pd. specialize (Hsame eq_refl).
  split.
  - apply ReadFile_ok. rewrite (ReadFile_at w1 _ p _ mt' "" Hrs1 Hsame).
    now rewrite canRead_land, Hcr.
  - unfold FileSizeZeroOnError. now rewrite (Stat_at w1 _ p _ Hrs1 Hsame).
Qed.

Lemma CopyFile_onto_itself_empties_witness :
  fst (ReadFile "x" demo) = ("hello", None)
  /\ fst (CopyFile "x" "./x" demo) = None
  /\ fst (ReadFile "x" (snd (CopyFile "x" "./x" demo))) = ("", None).
Proof.
  split; [vm_compute; reflexivity|].
  split; [vm_compute; reflexivity|].
  destruct (CopyFile_onto_itself_empties "x" "./x" demo
              (snd (CopyFile "x" "./x" demo)) ["home"; "x"]) as (He & _);
    [vm_compute; reflexivity|vm_compute; reflexivity|vm_compute; reflexivity|].
  exact He.
Defined.

(** ** Mkdir and MkdirAll when they succeed *)

Lemma keepsFiles_refl (w : World) : keepsFiles w w.
Proof.
  split; [reflexivity|]. split; [apply grows_refl|]. intros q pm mt d H. exact H.
Qed.

Lemma keepsFiles_trans (a b c : World) :
  keepsFiles a b -> keepsFiles b c -> keepsFiles a c.
Proof.
  intros (A1 & A2 & A3) (B1 & B2 & B3).
  split; [congruence|]. split; [eapply grows_trans; eassumption|].
  intros q pm mt d H. apply B3, A3, H.
Qed.

(** What could be read is still read, and reads the same. *)
Lemma ReadFile_kept (w w' : World) (name data : string) :
  keepsFiles w w' ->
  os.ReadFile w name = Ok data -> os.ReadFile w' name = Ok data.
Proof.
  intros (Hc & Hg & Hk) Hd.
  destruct (ReadFile_inv w name data Hd) as (p & pm & mt & Hr & Hl & Hcr).
  rewrite (ReadFile_at w' name p pm mt data);
    [now rewrite Hcr|now apply (resolve_grows w)|now apply Hk].
Qed.

Lemma resolve_Missing_follow (w : World) (name : string) parent c :
  os.resolve w name false = os.Missing parent c ->
  os.resolve w name true = os.Missing parent c.
Proof.
  unfold os.resolve. destruct (name =? ""); [discriminate|].
  apply resolveFrom_Missing_follow.
Qed.

Lemma resolve_Found_follow (w : World) (name : string) (p : list string) pm mt es :
  os.lookup (os.root w) p = Some (os.Directory pm mt es) ->
  os.resolve w name false = os.Found p ->
  os.resolve w name true = os.Found p.
Proof.
  intros Hp. unfold os.resolve. destruct (name =? ""); [discriminate|].
  now apply (resolveFrom_Found_follow _ p pm mt es).
Qed.

(** A successful [os.Mkdir]: the last element of the name was missing,
    and is now an empty directory with the permissions asked for, less
    the umask. *)
Lemma os_Mkdir_result (name : string) (perm : Z) (w w1 : World) :
  os.Mkdir name perm w = (None, w1) ->
  exists parent c,
    os.resolve w name false = os.Missing parent c
    /\ os.resolve w1 name true = os.Found (parent ++ [c])%list
    /\ os.lookup (os.root w1) (parent ++ [c])%list
       = Some (os.Directory (Z.ldiff (Z.land perm os.ModePerm) (os.umask w))
                            (os.now w) [])
    /\ keepsFiles w w1.
Proof.
  unfold os.Mkdir.
  set (w0 := os.record (os.CallMkdir name perm) w).
  assert (Hres : os.resolve w0 name false = os.resolve w name false) by reflexivity.
  rewrite Hres.
  destruct (os.resolve w name false) as [p | parent c | |] eqn:Hr; try discriminate.
  change (os.root w0) with (os.root w).
  destruct (resolve_Missing _ _ _ _ _ Hr) as (pm & mt & es & Hp & Hc).
  rewrite Hp. destruct (os.canWrite pm); [|discriminate].
  intros H. inversion H; subst w1. clear H.
  exists parent, c. split; [reflexivity|]. split.
  { eapply resolve_created;
      [apply resolve_Missing_follow; exact Hr| |simpl; reflexivity|reflexivity];
      reflexivity. }
  split.
  { simpl. eapply lookup_added; eassumption. }
  split; [reflexivity|]. split.
  - simpl. eapply grows_modify; [exact Hp|apply grows_addEntry].
  - intros q pm' mt' d' Hq. simpl. now apply lookup_modify_addEntry.
Qed.

(** A failing [os.Mkdir] changes nothing but the record of calls. *)
Lemma os_Mkdir_failure (name : string) (perm : Z) (w w1 : World) (e : error) :
  os.Mkdir name perm w = (Some e, w1) ->
  w1 = os.record (os.CallMkdir name perm) w.
Proof.
  unfold os.Mkdir.
  set (w0 := os.record (os.CallMkdir name perm) w).
  destruct (os.resolve w0 name false) as [p | parent c | |];
    try (intros H; inversion H; reflexivity).
  destruct (os.lookup (os.root w0) parent) as [[| pm mt es |]|];
    try (intros H; inversion H; reflexivity).
  destruct (os.canWrite pm); [discriminate|].
  intros H; inversion H; reflexivity.
Qed.

Lemma MkdirAllRec_eq (n : nat) (path : string) (perm : Z) (w : World) :
  os.MkdirAllRec n path perm w
  = match os.Stat w path with
    | Ok dir =>
        if os.IsDir dir then (None, w)
        else (Some (PathError "mkdir" path ENOTDIR), w)
    | Failure _ =>
        let parent := os.parentOf path in
        let '(err, w1) :=
          match n with
          | S k => if (0 <? String.length parent)%nat
                   then os.MkdirAllRec k parent perm w else (None, w)
          | O => (None, w)
          end in
        match err with
        | Some e => (Some e, w1)
        | None =>
            let '(err, w2) := os.Mkdir path perm w1 in
            match err with
            | None => (None, w2)
            | Some e =>
                match os.Lstat w2 path with
                | Ok dir => if os.IsDir dir then (None, w2) else (Some e, w2)
                | Failure _ => (Some e, w2)
                end
            end
        end
    end.
Proof. destruct n; reflexivity. Qed.

(** A directory that [os.Lstat] sees is the directory [os.Stat] sees. *)
Lemma Lstat_directory (w : World) (name : string) (dir : os.FileInfo) :
  os.Lstat w name = Ok dir -> os.IsDir dir = true ->
  exists st, os.Stat w name = Ok st /\ os.IsDir st = true.
Proof.
  unfold os.Lstat, os.statWith.
  destruct (os.resolve w name false) as [p | | |] eqn:Hr; try discriminate.
  destruct (os.lookup (os.root w) p) as [n|] eqn:Hl; [|discriminate].
  intros H Hd. inversion H; subst dir. clear H.
  rewrite infoOf_IsDir in Hd. destruct n as [| pm mt es |]; try discriminate.
  exists (os.infoOf (filepath.Base name) (os.Directory pm mt es)).
  split; [|now rewrite infoOf_IsDir].
  apply (Stat_at w name p); [|exact Hl].
  now apply (resolve_Found_follow w name p pm mt es).
Qed.

(** A successful [os.MkdirAll] leaves a directory at the path, and every
    file as it was. *)
Lemma os_MkdirAllRec_result (n : nat) :
  forall (path : string) (perm : Z) (w w1 : World),
    os.MkdirAllRec n path perm w = (None, w1) ->
    (exists st, os.Stat w1 path = Ok st /\ os.IsDir st = true)
    /\ keepsFiles w w1.
Proof.
  induction n as [|k IH]; intros path perm w w1; rewrite MkdirAllRec_eq;
    (destruct (os.Stat w path) as [dir|e0] eqn:Hs;
     [destruct (os.IsDir dir) eqn:Hd; [|discriminate];
      intros H; inversion H; subst w1;
      split; [eauto|apply keepsFiles_refl]|]);
    cbv zeta.
  - destruct (os.Mkdir path perm w) as [[e|] w2] eqn:Hm.
    + pose proof (os_Mkdir_failure _ _ _ _ _ Hm) as E.
      destruct (os.Lstat w2 path) as [dir|] eqn:Hl; [|discriminate].
      destruct (os.IsDir dir) eqn:Hd; [|discriminate].
      intros H. inversion H; subst w1. clear H.
      split; [eapply Lstat_directory; eassumption|].
      rewrite E. split; [reflexivity|]. split; [apply grows_refl|auto].
    + intros H. inversion H; subst w1. clear H.
      destruct (os_Mkdir_result _ _ _ _ Hm) as (parent & c & _ & Hr & Hl & Hk).
      split; [|exact Hk].
      eexists. split; [apply (Stat_at w2 path _ _ Hr Hl)|now rewrite infoOf_IsDir].
  - destruct (if (0 <? String.length (os.parentOf path))%nat
              then os.MkdirAllRec k (os.parentOf path) perm w else (None, w))
      as [err wa] eqn:Hin.
    assert (Hka : err = None -> keepsFiles w wa).
    { intros ->. destruct (0 <? String.length (os.parentOf path))%nat.
      - now apply IH in Hin.
      - inversion Hin. apply keepsFiles_refl. }
    destruct err as [e|]; [discriminate|]. specialize (Hka eq_refl).
    destruct (os.Mkdir path perm wa) as [[e|] w2] eqn:Hm.
    + pose proof (os_Mkdir_failure _ _ _ _ _ Hm) as E.
      destruct (os.Lstat w2 path) as [dir|] eqn:Hl; [|discriminate].
      destruct (os.IsDir dir) eqn:Hd; [|discriminate].
      intros H. inversion H; subst w1. clear H.
      split; [eapply Lstat_directory; eassumption|].
      apply (keepsFiles_trans _ wa); [exact Hka|].
      rewrite E. split; [reflexivity|]. split; [apply grows_refl|auto].
    + intros H. inversion H; subst w1. clear H.
      destruct (os_Mkdir_result _ _ _ _ Hm) as (parent & c & _ & Hr & Hl & Hk).
      split; [|apply (keepsFiles_trans _ wa); assumption].
      eexists. split; [apply (Stat_at w2 path _ _ Hr Hl)|now rewrite infoOf_IsDir].
Qed.

(** When [MkdirAll] reports success the cleaned path exists; if it did
    not exist before, it is now a directory; and every file that could be
    read before reads the same afterwards. *)
Theorem MkdirAll_makes_directory (path : string) (perm : Z) (w w1 : World) :
  MkdirAll path perm w = (None, w1) ->
  FileExists w1 (cleanPath path) = true
  /\ (FileExists w (cleanPath path) = false ->
      IsDir (fst (Stat w1 (cleanPath path))) = true)
  /\ forall other data,
       fst (ReadFile other w) = (data, None) ->
       fst (ReadFile other w1) = (data, None).
Proof.
  unfold MkdirAll.
  destruct (FileExists w (cleanPath path)) eqn:Hex; simpl.
  - intros H. inversion H; subst w1. clear H.
    split; [exact Hex|]. split; [discriminate|auto].
  - destruct (os.MkdirAll (cleanPath path) perm w) as [[e|] w2] eqn:Hm;
      [discriminate|].
    intros H. inversion H; subst w2. clear H.
    destruct (os_MkdirAllRec_result _ _ _ _ _ Hm) as ((st & Hs & Hd) & Hk).
    split; [eapply FileExists_at; exact Hs|].
    split.
    + intros _. unfold Stat. rewrite Hs. exact Hd.
    + intros other data Hr. apply ReadFile_ok. apply ReadFile_ok in Hr.
      now apply (ReadFile_kept w).
Qed.

Lemma MkdirAll_makes_directory_witness :
  FileExists demo "new/deep/er" = false
  /\ fst (MkdirAll "./new/deep//er" 493 demo) = None
  /\ FileExists (snd (MkdirAll "./new/deep//er" 493 demo)) "new/deep/er" = true
  /\ IsDir (fst (Stat (snd (MkdirAll "./new/deep//er" 493 demo)) "new/deep/er")) = true.
Proof.
  split; [vm_compute; reflexivity|].
  split; [vm_compute; reflexivity|].
  destruct (MkdirAll_makes_directory "./new/deep//er" 493 demo
              (snd (MkdirAll "./new/deep//er" 493 demo))) as (He & Hd & _);
    [vm_compute; reflexivity|].
  split; [exact He|]. apply Hd. vm_compute. reflexivity.
Defined.

Lemma land_ldiff_ModePerm (perm u : Z) :
  Z.land (Z.ldiff (Z.land perm os.ModePerm) u) os.ModePerm
  = Z.ldiff (Z.land perm os.ModePerm) u.
Proof.
  apply Z.bits_inj'. intros i Hi.
  rewrite !Z.land_spec, !Z.ldiff_spec, !Z.land_spec.
  destruct (Z.testbit perm i), (Z.testbit os.ModePerm i), (Z.testbit u i); reflexivity.
Qed.

(** When [Mkdir] reports success, the cleaned name did not exist before
    and is a directory now; when the mode asked for holds permission bits
    only (none of setuid, setgid, sticky or the type bits), the mode of
    the new directory is those bits less the umask; every file that could
    be read before reads the same afterwards. *)
Theorem Mkdir_makes_directory (name : string) (perm : Z) (w w1 : World) :
  Mkdir name perm w = (None, w1) ->
  FileExists w (cleanPath name) = false
  /\ snd (Stat w1 (cleanPath name)) = None
  /\ IsDir (fst (Stat w1 (cleanPath name))) = true
  /\ (Z.land perm os.ModePerm = perm ->
      Mode (fst (Stat w1 (cleanPath name)))
      = Z.lor os.ModeDir (Z.ldiff perm (os.umask w)))
  /\ forall other data,
       fst (ReadFile other w) = (data, None) ->
       fst (ReadFile other w1) = (data, None).
Proof.
  unfold Mkdir.
  destruct (os.Mkdir (cleanPath name) perm w) as [[e|] w2] eqn:Hm; [discriminate|].
  intros H. inversion H; subst w2. clear H.
  destruct (os_Mkdir_result _ _ _ _ Hm) as (parent & c & Hr0 & Hr & Hl & Hk).
  split.
  { unfold FileExists, os.Stat, os.statWith.
    now rewrite (resolve_Missing_follow _ _ _ _ Hr0). }
  unfold Stat. rewrite (Stat_at w1 _ _ _ Hr Hl). cbn [fst snd Mode IsDir].
  split; [reflexivity|]. split; [now rewrite infoOf_IsDir|].
  split.
  - intros Hperm. unfold os.infoOf. cbn [os.Mode].
    now rewrite land_ldiff_ModePerm, Hperm.
  - intros other data Hd. apply ReadFile_ok. apply ReadFile_ok in Hd.
    now apply (ReadFile_kept w).
Qed.

Lemma Mkdir_makes_directory_witness :
  fst (Mkdir "C:./sub" 511 demo) = None
  /\ FileExists demo "sub" = false
  /\ Mode (fst (Stat (snd (Mkdir "C:./sub" 511 demo)) "sub"))
     = Z.lor os.ModeDir 493.
Proof.
  split; [vm_compute; reflexivity|].
  destruct (Mkdir_makes_directory "C:./sub" 511 demo (snd (Mkdir "C:./sub" 511 demo)))
    as (He & _ & _ & Hmode & _); [vm_compute; reflexivity|].
  split; [exact He|]. exact (Hmode eq_refl).
Defined.

(** [Mkdir] refuses a cleaned name that is there already, be it a file,
    a directory or a symbolic link: the error is EEXIST, the tree is
    touched by nothing but the log write. [MkdirAll] reports success for
    the same name. *)
Theorem Mkdir_existing_fails (name : string) (perm : Z) (w : World) (st : os.FileInfo) :
  os.Lstat w (cleanPath name) = Ok st ->
  fst (Mkdir name perm w) = Some (PathError "mkdir" (cleanPath name) EEXIST)
  /\ onlyLogged (os.record (os.CallMkdir (cleanPath name) perm) w)
                (snd (Mkdir name perm w))
  /\ (FileExists w (cleanPath name) = true -> MkdirAll name perm w = (None, w)).
Proof.
  intros Hl. unfold Mkdir, os.Mkdir.
  set (w0 := os.record (os.CallMkdir (cleanPath name) perm) w).
  assert (Hres : os.resolve w0 (cleanPath name) false
                 = os.resolve w (cleanPath name) false) by reflexivity.
  rewrite Hres. revert Hl. unfold os.Lstat, os.statWith.
  destruct (os.resolve w (cleanPath name) false) as [p | | |]; try discriminate.
  intros _. cbn [fst snd].
  split; [reflexivity|]. split; [apply errorPrinter_onlyLogged|].
  intros Hex. unfold MkdirAll. now rewrite Hex.
Qed.

Lemma Mkdir_existing_fails_witness :
  fst (Mkdir "/t/b" 493 demo) = Some (PathError "mkdir" "/t/b" EEXIST)
  /\ FileExists demo "/t/b" = false.
Proof.
  split; [|vm_compute; reflexivity].
  destruct (Mkdir_existing_fails "/t/b" 493 demo
              (os.infoOf "b" (os.Symlink noon "/nowhere"))) as (He & _).
  - vm_compute. reflexivity.
  - exact He.
Defined.

(** ** Open and Create *)

(** A file other than the one touched is read as before. *)
Lemma ReadFile_touchesOnly (q : list string) (w w' : World) (name data : string) :
  touchesOnly q w w' ->
  os.ReadFile w name = Ok data ->
  os.resolve w name true <> os.Found q ->
  os.ReadFile w' name = Ok data.
Proof.
  intros Ht Hd Hne.
  destruct (ReadFile_inv w name data Hd) as (p & pm & mt & Hr & Hl & Hcr).
  rewrite (ReadFile_at w' name p pm mt data);
    [now rewrite Hcr|now apply (resolve_touchesOnly q w)|].
  destruct Ht as (_ & _ & _ & _ & _ & Hk). apply Hk; [exact Hl|].
  intros E. apply Hne. now rewrite Hr, E.
Qed.

(** When [Create] succeeds the cleaned name is an empty file, whatever it
    held before, and every other file is read as before. *)
Theorem Create_leaves_empty_file (name : string) (w w1 : World) (f : os.File) :
  Create name w = (Ok f, w1) ->
  os.fileName f = cleanPath name
  /\ FileExists w1 (cleanPath name) = true
  /\ FileSizeZeroOnError w1 (cleanPath name) = 0%Z
  /\ (forall data, fst (ReadFile (cleanPath name) w1) = (data, None) -> data = "")
  /\ forall other data,
       fst (ReadFile other w) = (data, None) ->
       os.resolve w other true <> os.resolve w1 (cleanPath name) true ->
       fst (ReadFile other w1) = (data, None).
Proof.
  unfold Create.
  destruct (os.Create (cleanPath name) w) as [[f0|err] w2] eqn:Hc; [|discriminate].
  intros H. inversion H; subst f0 w2. clear H.
  destruct (OpenFile_write (cleanPath name)
              (Z.lor os.O_RDWR (Z.lor os.O_CREATE os.O_TRUNC)) 438 w w1 f eq_refl Hc)
    as (Hn & _ & _ & Ht & Hr & pm & mt & d & Hl & Hcase).
  assert (Hd : d = "").
  { destruct Hcase as [(mt0 & d0 & _ & _ & Hd)|(parent & c & _ & _ & _ & Hd)];
      exact Hd. }
  subst d.
  pose proof (Stat_at w1 _ _ _ Hr Hl) as Hs.
  split; [exact Hn|].
  split; [eapply FileExists_at; exact Hs|].
  split; [unfold FileSizeZeroOnError; rewrite Hs; apply infoOf_Size_regular|].
  split.
  - intros data Hd. apply ReadFile_ok in Hd.
    rewrite (ReadFile_at w1 _ _ pm mt "" Hr Hl) in Hd.
    destruct (os.canRead pm); [|discriminate]. now inversion Hd.
  - intros other data Hd Hne. apply ReadFile_ok. apply ReadFile_ok in Hd.
    apply (ReadFile_touchesOnly (os.filePath f) w); [exact Ht|exact Hd|].
    now rewrite <- Hr.
Qed.

Lemma Create_leaves_empty_file_witness :
  fst (ReadFile "x" demo) = ("hello", None)
  /\ FileSizeZeroOnError (snd (Create "C:x" demo)) "x" = 0%Z
  /\ fst (ReadFile "/a/f.txt" (snd (Create "C:x" demo))) = ("0123456789", None).
Proof.
  split; [vm_compute; reflexivity|].
  destruct (Create_leaves_empty_file "C:x" demo (snd (Create "C:x" demo))
              (os.mkFile "x" ["home"; "x"]
                 (Z.lor os.O_RDWR (Z.lor os.O_CREATE os.O_TRUNC))))
    as (_ & _ & Hs & _ & Hk); [vm_compute; reflexivity|].
  split; [exact Hs|].
  apply Hk; [vm_compute; reflexivity|vm_compute; discriminate].
Defined.

(** When [Open] succeeds nothing has changed, not even the log: the
    handle is on the cleaned name, which exists. *)
Theorem Open_changes_nothing (name : string) (w w1 : World) (f : os.File) :
  Open name w = (Ok f, w1) ->
  w1 = w /\ os.fileName f = cleanPath name /\ FileExists w (cleanPath name) = true.
Proof.
  unfold Open.
  destruct (os.Open w (cleanPath name)) as [f0|err] eqn:Ho; [|discriminate].
  intros H. inversion H; subst f0 w1. clear H.
  destruct (Open_inv w _ f Ho) as (Hn & Hr & Hcase).
  split; [reflexivity|]. split; [exact Hn|].
  destruct Hcase as [(pm & mt & d & Hl & _)|(pm & mt & es & Hl)];
    eapply FileExists_at; apply (Stat_at w _ _ _ Hr Hl).
Qed.

Lemma Open_changes_nothing_witness :
  snd (Open "/a/b/../f.txt" demo) = demo /\ FileExists demo "/a/f.txt" = true.
Proof.
  destruct (Open_changes_nothing "/a/b/../f.txt" demo (snd (Open "/a/b/../f.txt" demo))
              (os.mkFile "/a/f.txt" ["a"; "f.txt"] os.O_RDONLY))
    as (Hw & _ & He); [vm_compute; reflexivity|].
  split; [exact Hw|exact He].
Defined.

(** ** The records of Stat and ReadDir *)

Lemma readDirLoop_records (P : FileInfo -> Prop) (w : World) :
  (forall sz md mt dr nm, P (mkFileInfo true sz md mt dr [] nm)) ->
  forall dirs acc,
    Forall P acc ->
    Forall P (fst (readDirLoop w dirs acc))
    /\ (snd (readDirLoop w dirs acc) <> None -> fst (readDirLoop w dirs acc) = []).
Proof.
  intros HP dirs. induction dirs as [|entry rest IH]; intros acc Hacc; simpl.
  - split; [exact Hacc|congruence].
  - destruct (os.entryInfo w entry) as [st|err]; simpl.
    + apply IH. apply Forall_app. split; [exact Hacc|]. constructor; [apply HP|constructor].
    + split; [constructor|reflexivity].
Qed.

(** The field [Contents] is never filled: the record of [Stat] and every
    record of [ReadDir] has none, and every record of [ReadDir] says that
    the file exists. [ReadDir] gives all the records or none: with an
    error comes the empty list. That is so at whichever entry [Info()]
    fails: the conversion loop, run on any entries after any records,
    drops every record it had when it returns an error. *)
Theorem Contents_never_populated (w : World) (name : string) :
  Contents (fst (Stat w name)) = []
  /\ Forall (fun fi => Contents fi = [] /\ Exists fi = true) (fst (ReadDir w name))
  /\ (snd (ReadDir w name) <> None -> fst (ReadDir w name) = [])
  /\ (forall dirs acc,
        snd (readDirLoop w dirs acc) <> None -> fst (readDirLoop w dirs acc) = []).
Proof.
  split.
  { unfold Stat. now destruct (os.Stat w name). }
  assert (Hloop : forall dirs acc,
             snd (readDirLoop w dirs acc) <> None -> fst (readDirLoop w dirs acc) = []).
  { intros dirs. induction dirs as [|entry rest IH]; intros acc; simpl.
    - congruence.
    - destruct (os.entryInfo w entry) as [st|err]; simpl; [apply IH|reflexivity]. }
  rewrite <- and_assoc. split; [|exact Hloop].
  unfold ReadDir.
  destruct (os.Open w name) as [f|err]; simpl; [|split; [constructor|reflexivity]].
  destruct (os.FileReadDir w f) as [dirs|err]; simpl;
    [|split; [constructor|reflexivity]].
  apply readDirLoop_records; [|constructor].
  intros. split; reflexivity.
Qed.

(** Both failures of [Info()] happen: in the sealed world the one entry
    of [/r] cannot be looked up, and a loop over an entry that is there
    and one that is gone returns nothing of the first. *)
Lemma Contents_never_populated_witness :
  ReadDir sealed "/r" = ([], Some (PathError "lstat" "/r/k" EACCES))
  /\ readDirLoop demo
       [os.mkDirEntry "/a" ["a"] "f.txt" 0; os.mkDirEntry "/a" ["a"] "gone" 0] []
     = ([], Some (PathError "lstat" "/a/gone" ENOENT)).
Proof.
  destruct (Contents_never_populated sealed "/r") as (_ & _ & Hr & _).
  destruct (Contents_never_populated demo "/r") as (_ & _ & _ & Hl).
  split.
  - assert (E : snd (ReadDir sealed "/r") = Some (PathError "lstat" "/r/k" EACCES))
      by (vm_compute; reflexivity).
    destruct (ReadDir sealed "/r") as [l e]. simpl in E, Hr. subst e.
    rewrite Hr; [reflexivity|discriminate].
  - specialize (Hl [os.mkDirEntry "/a" ["a"] "f.txt" 0; os.mkDirEntry "/a" ["a"] "gone" 0] []).
    assert (E : snd (readDirLoop demo
                       [os.mkDirEntry "/a" ["a"] "f.txt" 0;
                        os.mkDirEntry "/a" ["a"] "gone" 0] [])
                = Some (PathError "lstat" "/a/gone" ENOENT))
      by (vm_compute; reflexivity).
    destruct (readDirLoop demo _ []) as [l e]. simpl in E, Hl. subst e.
    rewrite Hl; [reflexivity|discriminate].
Defined.

(** ** FindFilesInDir *)

Section Matching.
Variable filepathMatch : string -> string -> bool * option error.
Variables dir pattern : string.

Lemma findLoop_all (entries : list os.DirEntry) :
  forall acc,
    (forall e, In e entries -> snd (filepathMatch pattern (os.entryName e)) = None) ->
    findLoop filepathMatch dir pattern entries acc
    = ((acc ++ map (fun e => filepath.Join [dir; os.entryName e])
                (filter (fun e => fst (filepathMatch pattern (os.entryName e)))
                        entries))%list,
       None).
Proof.
  induction entries as [|e rest IH]; intros acc Hok; simpl.
  - now rewrite app_nil_r.
  - pose proof (Hok e (or_introl eq_refl)) as He.
    destruct (filepathMatch pattern (os.entryName e)) as [matched err].
    simpl in He. subst err. simpl.
    destruct matched; rewrite IH by (intros x Hx; apply Hok; now right).
    + simpl. now rewrite <- app_assoc.
    + reflexivity.
Qed.

Lemma findLoop_error (before after : list os.DirEntry) (e : os.DirEntry) (err : error) :
  (forall x, In x before -> snd (filepathMatch pattern (os.entryName x)) = None) ->
  snd (filepathMatch pattern (os.entryName e)) = Some err ->
  forall acc,
    findLoop filepathMatch dir pattern (before ++ e :: after)%list acc
    = ([], Some err).
Proof.
  intros Hok He. induction before as [|x rest IH]; intros acc; simpl.
  - destruct (filepathMatch pattern (os.entryName e)) as [matched err'].
    simpl in He. now subst err'.
  - pose proof (Hok x (or_introl eq_refl)) as Hx.
    destruct (filepathMatch pattern (os.entryName x)) as [matched err'].
    simpl in Hx. subst err'.
    destruct matched; apply IH; intros y Hy; apply Hok; now right.
Qed.

End Matching.

(** [FindFilesInDir] keeps, in the order of [os.ReadDir], the entries
    whose name matches, each joined to the directory as it was given;
    when [filepath.Match] fails at some entry the matches found before it
    are dropped and the error comes with an empty list. This holds for
    whatever [filepath.Match] computes. *)
Theorem FindFilesInDir_filters
        (filepathMatch : string -> string -> bool * option error)
        (w : World) (dir pattern : string) (entries : list os.DirEntry) :
  os.ReadDir w dir = Ok entries ->
  ((forall e, In e entries -> snd (filepathMatch pattern (os.entryName e)) = None) ->
   FindFilesInDir filepathMatch w dir pattern
   = (map (fun e => filepath.Join [dir; os.entryName e])
          (filter (fun e => fst (filepathMatch pattern (os.entryName e))) entries),
      None))
  /\ (forall before e after err,
        entries = (before ++ e :: after)%list ->
        (forall x, In x before -> snd (filepathMatch pattern (os.entryName x)) = None) ->
        snd (filepathMatch pattern (os.entryName e)) = Some err ->
        FindFilesInDir filepathMatch w dir pattern = ([], Some err)).
Proof.
  intros Hr. unfold FindFilesInDir. rewrite Hr. split.
  - intros Hok. now rewrite findLoop_all.
  - intros before e after err -> Hok He. now apply findLoop_error.
Qed.

Lemma FindFilesInDir_filters_witness :
  FindFilesInDir (fun pattern name => (String.prefix pattern name, None))
                 demo "/a/." "f"
  = (["/a/f.txt"], None).
Proof.
  destruct (FindFilesInDir_filters
              (fun pattern name => (String.prefix pattern name, None))
              demo "/a/." "f"
              [os.mkDirEntry "/a/." ["a"] "b" os.ModeDir;
               os.mkDirEntry "/a/." ["a"] "f.txt" 0])
    as (Hall & _); [vm_compute; reflexivity|].
  rewrite Hall; [vm_compute; reflexivity|reflexivity].
Defined.

(** ** Delete and Remove *)

(** [Delete] and [Remove] are one operation: whatever [os.Remove] does,
    they return the same error, and they leave the same world whenever
    the removal succeeds or the debug marker is absent; otherwise the log
    lines differ by the name of the operation. Neither cleans the name. *)
Theorem Delete_is_Remove (osRemove : string -> World -> option error * World)
        (name : string) (w : World) :
  fst (Delete osRemove name w) = fst (osRemove name w)
  /\ fst (Remove osRemove name w) = fst (osRemove name w)
  /\ (fst (osRemove name w) = None \/ markerAbsent (snd (osRemove name w)) = true ->
      Delete osRemove name w = osRemove name w
      /\ Remove osRemove name w = osRemove name w)
  /\ onlyLogged (snd (osRemove name w)) (snd (Delete osRemove name w))
  /\ onlyLogged (snd (osRemove name w)) (snd (Remove osRemove name w)).
Proof.
  unfold Delete, Remove.
  destruct (osRemove name w) as [[e|] w1]; simpl.
  - split; [reflexivity|]. split; [reflexivity|]. split.
    + intros [H|H]; [discriminate|]. now rewrite !(errorPrinter_absent _ _ w1 H).
    + split; apply errorPrinter_onlyLogged.
  - split; [reflexivity|]. split; [reflexivity|]. split; [auto|].
    split; apply onlyLogged_refl.
Qed.

(** ** CopyDirFilesGlob and CopyDir *)

(** What [os.Stat] finds is still found, and is of the same kind, once
    the tree has grown. *)
Lemma Stat_grows (w w' : World) (name : string) (st : os.FileInfo) :
  os.cwd w' = os.cwd w -> grows (os.root w) (os.root w') ->
  os.Stat w name = Ok st ->
  exists st', os.Stat w' name = Ok st' /\ os.IsDir st' = os.IsDir st.
Proof.
  intros Hc Hg. unfold os.Stat, os.statWith.
  destruct (os.resolve w name true) as [p | | |] eqn:Hr; try discriminate.
  destruct (os.lookup (os.root w) p) as [n|] eqn:Hl; [|discriminate].
  intros H. inversion H; subst st. clear H.
  rewrite (resolve_grows w w' name true p Hg Hc Hr).
  destruct (Hg p n Hl) as (n' & Hl' & A). rewrite Hl'.
  eexists. split; [reflexivity|]. rewrite !infoOf_IsDir.
  destruct n, n'; simpl in A; try contradiction; reflexivity.
Qed.

Lemma CopyFile_grows (src dst : string) (w w1 : World) :
  CopyFile src dst w = (None, w1) ->
  os.cwd w1 = os.cwd w /\ grows (os.root w) (os.root w1).
Proof.
  intros H. destruct (CopyFile_result src dst w w1 H)
    as (ps & pd & pms & mts & data & mt' & _ & _ & _ & _ & _ & _ & _ & _ & Ht).
  destruct Ht as (Hc & _ & _ & _ & Hg & _). now split.
Qed.

Lemma globCopyLoop_grows (dst : string) (matches : list string) :
  forall w w1,
    globCopyLoop dst matches w = (None, w1) ->
    os.cwd w1 = os.cwd w /\ grows (os.root w) (os.root w1).
Proof.
  induction matches as [|item rest IH]; intros w w1; simpl.
  - intros H. inversion H; subst. split; [reflexivity|apply grows_refl].
  - destruct (CopyFile item _ w) as [[e|] wa] eqn:Hc; [discriminate|].
    intros H. destruct (CopyFile_grows _ _ _ _ Hc) as (C1 & G1).
    destruct (IH _ _ H) as (C2 & G2).
    split; [congruence|eapply grows_trans; eassumption].
Qed.

(** [CopyDirFilesGlob] refuses a source that is not a directory with one
    and the same error, whether the cleaned source is missing, cannot be
    reached or is a file; the error of the stat goes to the log only, and
    nothing is asked of [filepath.Glob] nor created. *)
Theorem CopyDirFilesGlob_source_must_be_directory
        (filepathGlob : World -> string -> list string * option error)
        (src dst fileMatch : string) (w : World) :
  snd (Stat w (cleanPath src)) <> None
  \/ IsDir (fst (Stat w (cleanPath src))) = false ->
  fst (CopyDirFilesGlob filepathGlob src dst fileMatch w)
  = Some (fmt.Errorf "source is not a directory or does not exist")
  /\ onlyLogged w (snd (CopyDirFilesGlob filepathGlob src dst fileMatch w))
  /\ (snd (Stat w (cleanPath src)) = None ->
      snd (CopyDirFilesGlob filepathGlob src dst fileMatch w) = w).
Proof.
  unfold CopyDirFilesGlob.
  destruct (Stat w (cleanPath src)) as [srcInfo [e|]] eqn:Hs; simpl.
  - intros _. split; [reflexivity|].
    split; [apply errorPrinter_onlyLogged|discriminate].
  - intros [H|H]; [congruence|]. rewrite H. simpl.
    split; [reflexivity|]. split; [apply onlyLogged_refl|reflexivity].
Qed.

Lemma CopyDirFilesGlob_source_must_be_directory_witness :
  fst (CopyDirFilesGlob (fun _ _ => (["/a/f.txt"], None)) "/a/f.txt" "out" "*" demo)
  = Some (fmt.Errorf "source is not a directory or does not exist")
  /\ snd (CopyDirFilesGlob (fun _ _ => (["/a/f.txt"], None)) "/a/f.txt" "out" "*" demo)
     = demo.
Proof.
  destruct (CopyDirFilesGlob_source_must_be_directory
              (fun _ _ => (["/a/f.txt"], None)) "/a/f.txt" "out" "*" demo)
    as (He & _ & Hw); [right; vm_compute; reflexivity|].
  split; [exact He|]. apply Hw. vm_compute. reflexivity.
Defined.

Lemma FileExists_inv (w : World) (name : string) :
  FileExists w name = true -> exists st, os.Stat w name = Ok st.
Proof.
  unfold FileExists. destruct (os.Stat w name) as [st|e]; [eauto|].
  cbn [errOf]. destruct (os.IsNotExist (Some e)); discriminate.
Qed.

Lemma FileExists_grows (w w' : World) (name : string) :
  os.cwd w' = os.cwd w -> grows (os.root w) (os.root w') ->
  FileExists w name = true -> FileExists w' name = true.
Proof.
  intros Hc Hg He. destruct (FileExists_inv _ _ He) as (st & Hs).
  destruct (Stat_grows w w' name st Hc Hg Hs) as (st' & Hs' & _).
  eapply FileExists_at; exact Hs'.
Qed.

(** A successful [MkdirAll], seen from inside the package. *)
Lemma MkdirAll_result (path : string) (perm : Z) (w w1 : World) :
  MkdirAll path perm w = (None, w1) ->
  FileExists w1 (cleanPath path) = true
  /\ os.cwd w1 = os.cwd w /\ grows (os.root w) (os.root w1).
Proof.
  unfold MkdirAll.
  destruct (FileExists w (cleanPath path)) eqn:Hex; simpl.
  - intros H. inversion H; subst w1. clear H.
    split; [exact Hex|]. split; [reflexivity|apply grows_refl].
  - destruct (os.MkdirAll (cleanPath path) perm w) as [[e|] w2] eqn:Hm;
      [discriminate|].
    intros H. inversion H; subst w2. clear H.
    destruct (os_MkdirAllRec_result _ _ _ _ _ Hm) as ((st & Hs & _) & Hc & Hg & _).
    split; [eapply FileExists_at; exact Hs|]. now split.
Qed.

(** When [CopyDirFilesGlob] reports success the cleaned source was a
    directory. A cleaned destination that was there is still there; one
    that was not has been made by [MkdirAll], which cleans the path a
    second time, so what exists now is the destination cleaned twice.
    This holds for whatever [filepath.Glob] returns, and also when it
    matches nothing. *)
Theorem CopyDirFilesGlob_destination_exists
        (filepathGlob : World -> string -> list string * option error)
        (src dst fileMatch : string) (w w1 : World) :
  CopyDirFilesGlob filepathGlob src dst fileMatch w = (None, w1) ->
  IsDir (fst (Stat w (cleanPath src))) = true
  /\ (FileExists w (cleanPath dst) = true -> FileExists w1 (cleanPath dst) = true)
  /\ (FileExists w (cleanPath dst) = false ->
      FileExists w1 (cleanPath (cleanPath dst)) = true).
Proof.
  unfold CopyDirFilesGlob.
  destruct (Stat w (cleanPath src)) as [srcInfo [e|]] eqn:Hs; [discriminate|].
  cbn [fst].
  destruct (IsDir srcInfo) eqn:Hd; simpl; [|discriminate].
  destruct (FileExists w (cleanPath dst)) eqn:Hex; simpl.
  - unfold Glob.
    destruct (filepathGlob w _) as [matches [e|]]; [discriminate|].
    intros H. destruct (globCopyLoop_grows _ _ _ _ H) as (Hc & Hg).
    split; [reflexivity|]. split; [|discriminate].
    intros _. now apply (FileExists_grows w).
  - destruct (MkdirAll (cleanPath dst) (Mode srcInfo) w) as [[e|] wa] eqn:Hm;
      [discriminate|].
    unfold Glob.
    destruct (filepathGlob wa _) as [matches [e|]]; [discriminate|].
    intros H. destruct (globCopyLoop_grows _ _ _ _ H) as (Hc & Hg).
    destruct (MkdirAll_result _ _ _ _ Hm) as (He & _ & _).
    split; [reflexivity|]. split; [discriminate|].
    intros _. now apply (FileExists_grows wa).
Qed.

Lemma CopyDirFilesGlob_destination_exists_witness :
  fst (CopyDirFilesGlob (fun _ _ => (["/a/f.txt"], None)) "/a" "x:y:out" "*" demo) = None
  /\ FileExists demo "y:out" = false
  /\ FileExists (snd (CopyDirFilesGlob (fun _ _ => (["/a/f.txt"], None))
                        "/a" "x:y:out" "*" demo)) "out" = true
  /\ FileExists (snd (CopyDirFilesGlob (fun _ _ => (["/a/f.txt"], None))
                        "/a" "x:y:out" "*" demo)) "y:out" = false
  /\ fst (ReadFile "out/f.txt"
            (snd (CopyDirFilesGlob (fun _ _ => (["/a/f.txt"], None))
                    "/a" "x:y:out" "*" demo)))
     = ("0123456789", None).
Proof.
  split; [vm_compute; reflexivity|].
  split; [vm_compute; reflexivity|].
  destruct (CopyDirFilesGlob_destination_exists
              (fun _ _ => (["/a/f.txt"], None)) "/a" "x:y:out" "*" demo
              (snd (CopyDirFilesGlob (fun _ _ => (["/a/f.txt"], None))
                      "/a" "x:y:out" "*" demo)))
    as (_ & _ & He); [vm_compute; reflexivity|].
  split; [apply He; vm_compute; reflexivity|].
  split; vm_compute; reflexivity.
Defined.

Lemma CopyDir_unfold (k : nat) (src dst : string) (w : World) :
  CopyDir (S k) src dst w =
  match os.Stat w (cleanPath src) with
  | Failure err =>
      Some (Some err,
            errorPrinter ("CopyDir (os.Stat): " ++ Error err) (cleanPath src) w)
  | Ok si =>
      if negb (os.IsDir si)
      then Some (Some (fmt.Errorf "source is not a directory"), w)
      else if negb (os.IsNotExist (errOf (os.Stat w (cleanPath dst))))
      then Some (Some (fmt.Errorf "destination already exists"),
                 errorPrinter "CopyDir: File already exist" (cleanPath dst) w)
      else
        let '(err, w) := os.MkdirAll (cleanPath dst) (os.Mode si) w in
        match err with
        | Some e =>
            Some (Some e,
                  errorPrinter ("CopyDir (os.MkdirAll): " ++ Error e) (cleanPath dst) w)
        | None =>
            match os.ReadDir w (cleanPath src) with
            | Failure e =>
                Some (Some e,
                      errorPrinter ("CopyDir (os.ReadDir): " ++ Error e)
                        (cleanPath src) w)
            | Ok entries =>
                copyLoop (CopyDir k) (cleanPath src) (cleanPath dst) entries w
            end
        end
  end.
Proof. reflexivity. Qed.

Lemma copyLoop_grows
      (copyDir : string -> string -> World -> option (option error * World))
      (src dst : string) :
  (forall s d w w1, copyDir s d w = Some (None, w1) ->
                    os.cwd w1 = os.cwd w /\ grows (os.root w) (os.root w1)) ->
  forall entries w w1,
    copyLoop copyDir src dst entries w = Some (None, w1) ->
    os.cwd w1 = os.cwd w /\ grows (os.root w) (os.root w1).
Proof.
  intros Hrec entries. induction entries as [|entry rest IH]; intros w w1; simpl.
  - intros H. inversion H; subst. split; [reflexivity|apply grows_refl].
  - destruct (os.entryIsDir entry).
    + destruct (copyDir _ _ w) as [[[e|] wa]|] eqn:Hc; try discriminate.
      intros H. destruct (Hrec _ _ _ _ Hc) as (C1 & G1).
      destruct (IH _ _ H) as (C2 & G2).
      split; [congruence|eapply grows_trans; eassumption].
    + destruct (os.hasFlag (os.entryType entry) os.ModeSymlink); [apply IH|].
      destruct (CopyFile _ _ w) as [[e|] wa] eqn:Hc; [discriminate|].
      intros H. destruct (CopyFile_grows _ _ _ _ Hc) as (C1 & G1).
      destruct (IH _ _ H) as (C2 & G2).
      split; [congruence|eapply grows_trans; eassumption].
Qed.

Lemma CopyDir_grows (fuel : nat) :
  forall src dst w w1,
    CopyDir fuel src dst w = Some (None, w1) ->
    os.cwd w1 = os.cwd w /\ grows (os.root w) (os.root w1).
Proof.
  induction fuel as [|k IH]; intros src dst w w1; [discriminate|].
  rewrite CopyDir_unfold.
  destruct (os.Stat w (cleanPath src)) as [si|e]; [|discriminate].
  destruct (negb (os.IsDir si)); [discriminate|].
  destruct (negb (os.IsNotExist _)); [discriminate|].
  destruct (os.MkdirAll (cleanPath dst) (os.Mode si) w) as [[e|] wa] eqn:Hm;
    [discriminate|].
  destruct (os.ReadDir wa (cleanPath src)) as [entries|e]; [|discriminate].
  intros H.
  destruct (os_MkdirAllRec_result _ _ _ _ _ Hm) as (_ & C1 & G1 & _).
  destruct (copyLoop_grows _ _ _ IH _ _ _ H) as (C2 & G2).
  split; [congruence|eapply grows_trans; eassumption].
Qed.

(** When [CopyDir] reports success, the cleaned source was a directory,
    the cleaned destination did not exist before and is a directory now,
    and every file and directory that was there before is still there. *)
Theorem CopyDir_makes_destination (fuel : nat) (src dst : string) (w w1 : World) :
  CopyDir fuel src dst w = Some (None, w1) ->
  IsDir (fst (Stat w (cleanPath src))) = true
  /\ FileExists w (cleanPath dst) = false
  /\ snd (Stat w1 (cleanPath dst)) = None
  /\ IsDir (fst (Stat w1 (cleanPath dst))) = true
  /\ forall name, FileExists w name = true -> FileExists w1 name = true.
Proof.
  intros H. pose proof (CopyDir_grows fuel src dst w w1 H) as (Hc & Hg).
  destruct fuel as [|k]; [discriminate|].
  rewrite CopyDir_unfold in H. unfold Stat at 1.
  destruct (os.Stat w (cleanPath src)) as [si|e]; [|discriminate].
  destruct (os.IsDir si) eqn:Hd; [|discriminate]. cbn [negb] in H. cbv iota in H.
  assert (Hex : FileExists w (cleanPath dst) = false).
  { unfold FileExists.
    destruct (os.IsNotExist (errOf (os.Stat w (cleanPath dst)))); [reflexivity|].
    discriminate. }
  destruct (negb (os.IsNotExist _)); [discriminate|].
  destruct (os.MkdirAll (cleanPath dst) (os.Mode si) w) as [[e|] wa] eqn:Hm;
    [discriminate|].
  destruct (os.ReadDir wa (cleanPath src)) as [entries|e]; [|discriminate].
  destruct (os_MkdirAllRec_result _ _ _ _ _ Hm) as ((st & Hs & Hsd) & _).
  destruct (copyLoop_grows _ _ _ (CopyDir_grows k) _ _ _ H) as (C2 & G2).
  destruct (Stat_grows wa w1 _ st C2 G2 Hs) as (st' & Hs' & Hd').
  split; [reflexivity|]. split; [exact Hex|].
  unfold Stat. rewrite Hs'. cbn [fst snd IsDir].
  split; [reflexivity|]. split; [congruence|].
  intros name. now apply FileExists_grows.
Qed.

Lemma CopyDir_makes_destination_witness :
  option_map fst (CopyDir 3 "/a" "C:copy" demo) = Some None
  /\ FileExists demo "copy" = false
  /\ option_map (fun r => IsDir (fst (Stat (snd r) "copy/b")))
       (CopyDir 3 "/a" "C:copy" demo) = Some true
  /\ option_map (fun r => fst (ReadFile "copy/b/g.txt" (snd r)))
       (CopyDir 3 "/a" "C:copy" demo) = Some ("g", None).
Proof.
  split; [vm_compute; reflexivity|].
  destruct (CopyDir 3 "/a" "C:copy" demo) as [[err w1]|] eqn:Hc;
    [|vm_compute in Hc; discriminate].
  assert (err = None) by (vm_compute in Hc; congruence). subst err.
  destruct (CopyDir_makes_destination 3 "/a" "C:copy" demo w1 Hc)
    as (_ & He & _ & _ & _).
  split; [exact He|].
  vm_compute in Hc. inversion Hc; subst w1. split; vm_compute; reflexivity.
Defined.

(** ** RecurseFS *)

Lemma append_assoc (a b c : string) : (a ++ b) ++ c = a ++ b ++ c.
Proof. induction a as [|x a IH]; simpl; [reflexivity|now rewrite IH]. Qed.

Lemma below_child (path name x : string) :
  below (path ++ "/" ++ name) x -> below path x.
Proof.
  intros (rest & [->| ->]); exists (name ++ "/" ++ rest).
  - left. now rewrite !append_assoc.
  - right. now rewrite !append_assoc.
Qed.

Lemma emitLoop_below (recurseFS : string -> World -> option (list string * World))
      (path : string) :
  (forall p w out w', recurseFS p w = Some (out, w') -> Forall (below p) out) ->
  forall files acc w out w',
    Forall (below path) acc ->
    emitLoop recurseFS path files acc w = Some (out, w') ->
    Forall (below path) out.
Proof.
  intros Hrec files. induction files as [|f rest IH]; intros acc w out w' Hacc; simpl.
  - intros H. now inversion H; subst.
  - destruct (IsDir f).
    + destruct (recurseFS _ w) as [[child w1]|] eqn:Hc; [|discriminate].
      apply IH. apply Forall_app. split.
      * apply Forall_app. split; [exact Hacc|].
        constructor; [|constructor]. exists (Name f). now right.
      * eapply Forall_impl; [|exact (Hrec _ _ _ _ Hc)].
        intros x. apply below_child.
    + apply IH. apply Forall_app. split; [exact Hacc|].
      constructor; [|constructor]. exists (Name f). now left.
Qed.

Lemma ReadDir_is_directory (w : World) (path : string) (temp : list FileInfo) :
  ReadDir w path = (temp, None) ->
  exists st, os.Stat w path = Ok st /\ os.IsDir st = true.
Proof.
  unfold ReadDir.
  destruct (os.Open w path) as [f|e] eqn:Ho; [|discriminate].
  unfold os.FileReadDir.
  destruct (os.lookup (os.root w) (os.filePath f)) as [[| pm mt es |]|] eqn:Hl;
    try discriminate.
  intros _. apply (opensDir_Stat w path es). exists f, pm, mt. now split.
Qed.

(** Whatever [RecurseFS] returns lies under the path it was given: every
    entry is the path as given, a separator and more, behind a star for a
    directory; the path itself is never listed. For a path that is not a
    directory the list is empty and nothing is logged. *)
Theorem RecurseFS_stays_below (fuel : nat) (path : string) (w : World) :
  (forall out w', RecurseFS fuel path w = Some (out, w') -> Forall (below path) out)
  /\ (IsDir (fst (Stat w path)) = false ->
      RecurseFS (S fuel) path w = Some ([], w)).
Proof.
  split.
  - revert path w. induction fuel as [|k IH]; intros path w out w'; [discriminate|].
    rewrite RecurseFS_unfold.
    destruct (Stat w path) as [stat [e|]];
      [intros H; inversion H; constructor|].
    destruct (ReadDir w path) as [temp [e|]];
      [intros H; inversion H; constructor|].
    destruct (if IsDir stat then statLoop path temp [] w else ([], w)) as [files w1].
    apply emitLoop_below; [|constructor].
    intros p w2 out2 w2'. apply IH.
  - rewrite RecurseFS_unfold. unfold Stat at 1 2.
    destruct (os.Stat w path) as [st|e] eqn:Hs; [|reflexivity].
    cbn [fst IsDir]. intros Hd.
    destruct (ReadDir w path) as [temp [e|]] eqn:Hr; [reflexivity|].
    destruct (ReadDir_is_directory w path temp Hr) as (st' & Hs' & Hd').
    congruence.
Qed.

(** ** What WriteFile touches *)

(** [WriteFile] uses its permission argument only for a file it makes: a
    file that was there keeps the mode it had; a new one, when the mode
    asked for holds permission bits only (none of setuid, setgid, sticky
    or the type bits), gets those bits less the umask. No other file is
    touched: what could be read from another file reads the same
    afterwards. *)
Theorem WriteFile_perm_only_for_new_file (name content : string) (perm : Z)
        (w w1 : World) :
  WriteFile name content perm w = (None, w1) ->
  (snd (Stat w (cleanPath name)) = None ->
   Mode (fst (Stat w1 (cleanPath name))) = Mode (fst (Stat w (cleanPath name))))
  /\ (snd (Stat w (cleanPath name)) <> None ->
      Z.land perm os.ModePerm = perm ->
      Mode (fst (Stat w1 (cleanPath name))) = Z.ldiff perm (os.umask w))
  /\ forall other data,
       fst (ReadFile other w) = (data, None) ->
       os.resolve w other true <> os.resolve w1 (cleanPath name) true ->
       fst (ReadFile other w1) = (data, None).
Proof.
  unfold WriteFile.
  destruct (os.WriteFile (cleanPath name) content perm w) as [[e|] w2] eqn:Hw;
    [discriminate|].
  intros H. inversion H; subst w2. clear H.
  destruct (os_WriteFile_result _ _ _ _ _ Hw) as (p & pm & mt & Hr & Hl & Ht & Hcase).
  unfold Stat. rewrite (Stat_at w1 _ p _ Hr Hl). cbn [fst snd Mode].
  rewrite infoOf_Mode_regular.
  split; [|split].
  - destruct Hcase as [(mt0 & d0 & Hr0 & Hl0)|(parent & c & Hr0 & Hpm)].
    + rewrite (Stat_at w _ p _ Hr0 Hl0). cbn [fst snd Mode].
      now rewrite infoOf_Mode_regular.
    + unfold os.Stat, os.statWith. rewrite Hr0. discriminate.
  - destruct Hcase as [(mt0 & d0 & Hr0 & Hl0)|(parent & c & Hr0 & Hpm)].
    + rewrite (Stat_at w _ p _ Hr0 Hl0). cbn [snd]. congruence.
    + intros _ Hperm. subst pm. now rewrite land_ldiff_ModePerm, Hperm.
  - intros other data Hd Hne. apply ReadFile_ok. apply ReadFile_ok in Hd.
    apply (ReadFile_touchesOnly p w); [exact Ht|exact Hd|].
    now rewrite <- Hr.
Qed.

Lemma WriteFile_perm_only_for_new_file_witness :
  fst (WriteFile "x" "bye" 511 demo) = None
  /\ Mode (fst (Stat (snd (WriteFile "x" "bye" 511 demo)) "x")) = 420%Z
  /\ fst (WriteFile "fresh" "bye" 511 demo) = None
  /\ Mode (fst (Stat (snd (WriteFile "fresh" "bye" 511 demo)) "fresh")) = 493%Z.
Proof.
  split; [vm_compute; reflexivity|].
  destruct (WriteFile_perm_only_for_new_file "x" "bye" 511 demo
              (snd (WriteFile "x" "bye" 511 demo))) as (Hold & _ & _);
    [vm_compute; reflexivity|].
  destruct (WriteFile_perm_only_for_new_file "fresh" "bye" 511 demo
              (snd (WriteFile "fresh" "bye" 511 demo))) as (_ & Hnew & _);
    [vm_compute; reflexivity|].
  split; [change (cleanPath "x") with "x" in Hold; rewrite Hold;
          [vm_compute; reflexivity|vm_compute; reflexivity]|].
  split; [vm_compute; reflexivity|].
  change (cleanPath "fresh") with "fresh" in Hnew. rewrite Hnew;
    [vm_compute; reflexivity|vm_compute; discriminate|reflexivity].
Defined.

(** ** Names, paths and their elements *)













(** ** Resolving a longer path *)








(** ** Height, names and directories along the log writes *)

























(** ** Where the names of a traversal come from *)







(** ** The traversal ends *)









(** ** RecurseFS goes on after a failure *)


